(** * Audio capture, playback and transcription front end: a shallow embedding

    The development follows [audio.py] (class [Audio]) and [converter.py]
    (class [Converter]).  The Python standard [wave] module and the PyAudio
    binding are modelled at the level of the calls the two classes make.
    Console output ([print], the prompt text that [_format_device_prompt]
    builds for [input]) is not part of the model; console input is. Files
    can always be created and written; creating a [PyAudio] instance always
    succeeds. *)

From Stdlib Require Import ZArith Strings.Byte.
From stdpp Require Import base option list strings gmap pretty.

Open Scope string_scope.
Open Scope list_scope.
Open Scope nat_scope.

(** ** Exceptions and results *)

Inductive exn : Type :=
  | ValueError (msg : string)
  | IOError (msg : string)          (* OSError, as PyAudio raises it *)
  | WaveError (msg : string)        (* wave.Error *)
  | FileNotFoundError (path : string)
  | EOFError
  | AttributeError (msg : string)
  | StructError                     (* struct.error: a header field out of range *)
  | Exception (msg : string).

Inductive result (A : Type) : Type :=
  | Ok (a : A)
  | Raise (e : exn).
Arguments Ok {A} a.
Arguments Raise {A} e.

#[global] Instance result_ret : MRet result := λ A a, Ok a.
#[global] Instance result_bind : MBind result := λ A B f r,
  match r with
  | Ok a => f a
  | Raise e => Raise e
  end.

Definition is_ok {A} (r : result A) : bool :=
  match r with Ok _ => true | Raise _ => false end.

(** Calls that change a state [S]: a result, and the state as the call left
    it (an exception keeps the changes made before it was raised). *)
Definition ST (S A : Type) : Type := S → result A * S.

#[global] Instance ST_ret {S} : MRet (ST S) := λ A a s, (Ok a, s).
#[global] Instance ST_bind {S} : MBind (ST S) := λ A B f m s,
  match m s with
  | (Ok a, s') => f a s'
  | (Raise e, s') => (Raise e, s')
  end.

Definition raise {S A} (e : exn) : ST S A := λ s, (Raise e, s).
Definition get {S} : ST S S := λ s, (Ok s, s).
Definition modify {S} (f : S → S) : ST S unit := λ s, (Ok tt, f s).
Definition lift {S A} (r : result A) : ST S A := λ s, (r, s).

(** Byte strings ([bytes] objects). *)
Abbreviation bytes := (list byte).

(** [b''.join(chunks)] *)
Definition join (chunks : list bytes) : bytes := concat chunks.

(** ** The [wave] module, as the two classes use it *)
Module wave.

(** An uncompressed PCM RIFF/WAVE container as the module reports it: the
    header fields behind [getnchannels], [getsampwidth], [getframerate], and
    the bytes of the data chunk. *)
Record WaveFile : Type := {
  nchannels : Z;
  sampwidth : Z;
  framerate : Z;
  payload : bytes;
}.

(** What a path may hold: a PCM wave file; a wave file whose format tag is
    not PCM; a file of other bytes (the transcription, or what a writer that
    failed left behind), which is no wave file; a file of no bytes. *)
Inductive File : Type :=
  | WavFile (f : WaveFile)
  | NonPcmFile (format_tag : Z)
  | TextFile (text : string)
  | EmptyFile.

(** [Wave_write]: the parameters, 0 until set; [_nframes], which the first
    attempt at the header sets; whether the header is written, and the data
    length it holds; the data written; and the ['RIFF'] ids that attempts at
    the header which failed have left in the file. *)
Record Wave_write : Type := {
  w_nchannels : Z;
  w_sampwidth : Z;
  w_framerate : Z;
  w_nframes : Z;
  w_headerwritten : bool;
  w_datalength : Z;
  w_datawritten : bytes;
  w_riffs : nat;
}.

Definition new_Wave_write : Wave_write :=
  {| w_nchannels := 0; w_sampwidth := 0; w_framerate := 0; w_nframes := 0;
     w_headerwritten := false; w_datalength := 0; w_datawritten := []; w_riffs := 0 |}.

Definition started (w : Wave_write) : bool :=
  match w_datawritten w with [] => false | _ => true end.

Definition setnchannels (n : Z) (w : Wave_write) : result Wave_write :=
  if started w then Raise (WaveError "cannot change parameters after starting to write")
  else if (n <? 1)%Z then Raise (WaveError "bad # of channels")
  else Ok {| w_nchannels := n; w_sampwidth := w_sampwidth w;
             w_framerate := w_framerate w; w_nframes := w_nframes w;
             w_headerwritten := w_headerwritten w; w_datalength := w_datalength w;
             w_datawritten := w_datawritten w; w_riffs := w_riffs w |}.

Definition setsampwidth (n : Z) (w : Wave_write) : result Wave_write :=
  if started w then Raise (WaveError "cannot change parameters after starting to write")
  else if ((n <? 1) || (4 <? n))%Z then Raise (WaveError "bad sample width")
  else Ok {| w_nchannels := w_nchannels w; w_sampwidth := n;
             w_framerate := w_framerate w; w_nframes := w_nframes w;
             w_headerwritten := w_headerwritten w; w_datalength := w_datalength w;
             w_datawritten := w_datawritten w; w_riffs := w_riffs w |}.

Definition setframerate (n : Z) (w : Wave_write) : result Wave_write :=
  if started w then Raise (WaveError "cannot change parameters after starting to write")
  else if (n <=? 0)%Z then Raise (WaveError "bad frame rate")
  else Ok {| w_nchannels := w_nchannels w; w_sampwidth := w_sampwidth w;
             w_framerate := n; w_nframes := w_nframes w;
             w_headerwritten := w_headerwritten w; w_datalength := w_datalength w;
             w_datawritten := w_datawritten w; w_riffs := w_riffs w |}.

(** A setter as a step on the writer inside a [with] block. *)
Definition call (op : Wave_write → result Wave_write) : ST Wave_write unit := λ w,
  match op w with
  | Ok w' => (Ok tt, w')
  | Raise e => (Raise e, w)
  end.

(** [struct.pack] of an unsigned field of [bits] bits. *)
Definition fits (bits n : Z) : bool := ((0 <=? n) && (n <? 2 ^ bits))%Z.

(** The fields [_write_header] packs: the RIFF length, the channel count,
    the frame rate, the byte rate, the block size, the bits per sample (the
    format string ['<L4s4sLHHLLHH4s']), and then the data length (['<L']). *)
Definition header_fits (nchannels sampwidth framerate datalength : Z) : bool :=
  fits 32 (36 + datalength) && fits 16 nchannels && fits 32 framerate
  && fits 32 (nchannels * framerate * sampwidth) && fits 16 (nchannels * sampwidth)
  && fits 16 (sampwidth * 8) && fits 32 datalength.

(** [_write_header(initlength)]: ['RIFF'] goes to the file first, then
    [_nframes] is set if it is still 0, then the fields are packed, which
    raises [struct.error] when one is out of range. *)
Definition write_header (initlength : Z) : ST Wave_write unit := λ w,
  let nframes :=
    if (w_nframes w =? 0)%Z then (initlength / (w_nchannels w * w_sampwidth w))%Z
    else w_nframes w in
  let datalength := (nframes * w_nchannels w * w_sampwidth w)%Z in
  if header_fits (w_nchannels w) (w_sampwidth w) (w_framerate w) datalength
  then (Ok tt,
        {| w_nchannels := w_nchannels w; w_sampwidth := w_sampwidth w;
           w_framerate := w_framerate w; w_nframes := nframes;
           w_headerwritten := true; w_datalength := datalength;
           w_datawritten := w_datawritten w; w_riffs := w_riffs w |})
  else (Raise StructError,
        {| w_nchannels := w_nchannels w; w_sampwidth := w_sampwidth w;
           w_framerate := w_framerate w; w_nframes := nframes;
           w_headerwritten := false; w_datalength := datalength;
           w_datawritten := w_datawritten w; w_riffs := S (w_riffs w) |}).

(** [_ensure_header_written(datasize)] *)
Definition ensure_header (datasize : Z) : ST Wave_write unit := λ w,
  if w_headerwritten w then (Ok tt, w)
  else if (w_nchannels w =? 0)%Z then (Raise (WaveError "# channels not specified"), w)
  else if (w_sampwidth w =? 0)%Z then (Raise (WaveError "sample width not specified"), w)
  else if (w_framerate w =? 0)%Z then (Raise (WaveError "sampling rate not specified"), w)
  else write_header datasize w.

(** [_patchheader]: the two lengths of the header are rewritten to the
    bytes written. *)
Definition patchheader : ST Wave_write unit := λ w,
  let written := Z.of_nat (length (w_datawritten w)) in
  if (written =? w_datalength w)%Z then (Ok tt, w)
  else if fits 32 (36 + written)
  then (Ok tt,
        {| w_nchannels := w_nchannels w; w_sampwidth := w_sampwidth w;
           w_framerate := w_framerate w; w_nframes := w_nframes w;
           w_headerwritten := w_headerwritten w; w_datalength := written;
           w_datawritten := w_datawritten w; w_riffs := w_riffs w |})
  else (Raise StructError, w).

Definition writeframesraw (data : bytes) : ST Wave_write unit :=
  ensure_header (Z.of_nat (length data));;
  modify (λ w,
    {| w_nchannels := w_nchannels w; w_sampwidth := w_sampwidth w;
       w_framerate := w_framerate w; w_nframes := w_nframes w;
       w_headerwritten := w_headerwritten w; w_datalength := w_datalength w;
       w_datawritten := w_datawritten w ++ data; w_riffs := w_riffs w |}).

Definition writeframes (data : bytes) : ST Wave_write unit :=
  writeframesraw data;; patchheader.

(** [close]: the header is written if it was not, and patched to the bytes
    written; the file is closed whether this raises or not. *)
Definition close : ST Wave_write unit :=
  ensure_header 0;; patchheader.

(** The file a writer leaves. With the header written it is a PCM file
    whose data chunk has the length the header holds; without, it holds the
    ['RIFF'] ids of the attempts that failed. (In [_write_to_file] an attempt
    that failed is never followed by one that succeeds: both see the same
    parameters.) *)
Definition on_disk (w : Wave_write) : File :=
  if w_headerwritten w then
    WavFile {| nchannels := w_nchannels w; sampwidth := w_sampwidth w;
               framerate := w_framerate w;
               payload := take (Z.to_nat (w_datalength w)) (w_datawritten w) |}
  else
    match w_riffs w with
    | O => EmptyFile
    | n => TextFile (String.concat "" (repeat "RIFF" n))
    end.

(** [Wave_read]: the opened file and the read position in its data chunk. *)
Record Wave_read : Type := {
  r_file : WaveFile;
  r_pos : nat;
}.

Definition getnchannels (r : Wave_read) : Z := nchannels (r_file r).
Definition getsampwidth (r : Wave_read) : Z := sampwidth (r_file r).
Definition getframerate (r : Wave_read) : Z := framerate (r_file r).
(** [wave.open] accepts PCM only, and [getcomptype] then reports 'NONE'. *)
Definition getcomptype (r : Wave_read) : string := "NONE".
Definition framesize (r : Wave_read) : Z := (getnchannels r * getsampwidth r)%Z.

(** [wave.open(path, 'rb')] on the content of [path]. A file of fewer than
    eight bytes has no chunk header (EOFError); other bytes are refused at
    the first thing that is wrong with them (a text that goes on after
    ['RIFF....WAVE'] holds no chunks). *)
Definition open_read (path : string) (content : option File) : result Wave_read :=
  match content with
  | Some (WavFile f) =>
      if (nchannels f =? 0)%Z then Raise (WaveError "bad # of channels")
      else if (sampwidth f =? 0)%Z then Raise (WaveError "bad sample width")
      else Ok {| r_file := f; r_pos := 0 |}
  | Some (NonPcmFile format_tag) =>
      Raise (WaveError ("unknown format: " +:+ pretty format_tag))
  | Some (TextFile text) =>
      if (String.length text <? 8)%nat then Raise EOFError
      else if negb (String.prefix "RIFF" text)
      then Raise (WaveError "file does not start with RIFF id")
      else if negb (String.eqb (String.substring 8 4 text) "WAVE")
      then Raise (WaveError "not a WAVE file")
      else Raise (WaveError "fmt chunk and/or data chunk missing")
  | Some EmptyFile => Raise EOFError
  | None => Raise (FileNotFoundError path)
  end.

(** [readframes(nframes)]: at most [nframes * framesize] bytes from the read
    position, all the rest when that product is negative, nothing when
    [nframes] is 0 or the chunk is exhausted. *)
Definition readframes (n : Z) (r : Wave_read) : bytes * Wave_read :=
  let rest := drop (r_pos r) (payload (r_file r)) in
  if (n =? 0)%Z then ([], r)
  else
    let size := (n * framesize r)%Z in
    let data := if (size <? 0)%Z then rest else take (Z.to_nat size) rest in
    (data, {| r_file := r_file r; r_pos := r_pos r + length data |}).

End wave.

(** ** The PyAudio binding *)
Module pyaudio.

Definition paFloat32 : Z := 1.
Definition paInt32 : Z := 2.
Definition paInt24 : Z := 4.
Definition paInt16 : Z := 8.
Definition paInt8 : Z := 16.
Definition paUInt8 : Z := 32.

Definition paNonInterleaved : Z := 2147483648.

(** [get_sample_size(format)]: bytes per sample. The format is taken as an
    unsigned long (of 64 bits) and PortAudio looks at it without the
    non-interleaved flag. *)
Definition get_sample_size (format : Z) : result Z :=
  let format := Z.ldiff (format mod 2 ^ 64) paNonInterleaved in
  if (format =? paFloat32)%Z then Ok 4%Z
  else if (format =? paInt32)%Z then Ok 4%Z
  else if (format =? paInt24)%Z then Ok 3%Z
  else if (format =? paInt16)%Z then Ok 2%Z
  else if (format =? paInt8)%Z then Ok 1%Z
  else if (format =? paUInt8)%Z then Ok 1%Z
  else Raise (ValueError "Sample format not supported").

(** [get_format_from_width(width)] with the default [unsigned=True]. *)
Definition get_format_from_width (width : Z) : result Z :=
  if (width =? 1)%Z then Ok paUInt8
  else if (width =? 2)%Z then Ok paInt16
  else if (width =? 3)%Z then Ok paInt24
  else if (width =? 4)%Z then Ok paFloat32
  else Raise (ValueError ("Invalid width: " +:+ pretty width)).

(** One entry of the host's device table ([get_device_info_by_index]). *)
Record DeviceInfo : Type := {
  name : string;
  maxInputChannels : Z;
  maxOutputChannels : Z;
}.

(** What one blocking hardware read delivers: the chunk, and whether the
    driver reported an input overflow for it. *)
Record HwRead : Type := {
  hw_data : bytes;
  hw_overflowed : bool;
}.

(** An audio stream as [PyAudio.open] was asked to create it. *)
Record Stream : Type := {
  st_format : Z;
  st_channels : Z;
  st_rate : Z;
  st_input : bool;
  st_output : bool;
  st_frames_per_buffer : Z;
  st_input_device_index : Z;
  st_output_device_index : Z;
  st_closed : bool;
}.

(** The device a stream moves audio from or to. *)
Definition st_device (s : Stream) : Z :=
  if st_input s then st_input_device_index s else st_output_device_index s.

Definition closed_stream (s : Stream) : Stream :=
  {| st_format := st_format s; st_channels := st_channels s; st_rate := st_rate s;
     st_input := st_input s; st_output := st_output s;
     st_frames_per_buffer := st_frames_per_buffer s;
     st_input_device_index := st_input_device_index s;
     st_output_device_index := st_output_device_index s;
     st_closed := true |}.

(** The host audio layer: the device table, the default devices (if any),
    whether a stream request is granted, what the [k]-th hardware read
    delivers when asked for a number of frames, whether the [k]-th hardware
    write succeeds, and PortAudio's error text for a request that is refused
    and for a write that fails. *)
Record Host : Type := {
  devices : list DeviceInfo;
  default_input : option Z;
  default_output : option Z;
  grants : Stream → bool;
  mic : nat → Z → HwRead;
  speaker_ok : nat → bool;
  open_error : Stream → string;
  write_error : nat → string;
}.

Definition get_device_count (h : Host) : nat := length (devices h).

Definition get_device_info_by_index (h : Host) (i : nat) : result DeviceInfo :=
  match devices h !! i with
  | Some info => Ok info
  | None => Raise (IOError "Invalid device info")
  end.

(** [get_default_input_device_info()['index']] *)
Definition get_default_input_device_index (h : Host) : result Z :=
  match default_input h with
  | Some i => Ok i
  | None => Raise (IOError "No Default Input Device Available")
  end.

(** [get_default_output_device_info()['index']] *)
Definition get_default_output_device_index (h : Host) : result Z :=
  match default_output h with
  | Some i => Ok i
  | None => Raise (IOError "No Default Output Device Available")
  end.

End pyaudio.

(** ** [audio.py]: class [Audio] *)
Module audio.
Import pyaudio.

(** The [{'id': i, 'name': ...}] dictionaries of the device lists. *)
Record DeviceDict : Type := {
  id : Z;
  dname : string;
}.

(** The attributes of an [Audio] object. *)
Record Audio : Type := {
  filepath : string;
  sample_rate : Z;
  channels : Z;
  format : Z;
  frames_per_buffer : Z;
  recording : bool;
  recorded_frames : list bytes;
  pyaudio_obj : option bool;
    (* the attribute [_open_audio_stream] creates: [None] before that (the
       constructor sets [pyaudio_object], which nothing reads), [Some true]
       for a live PyAudio instance, [Some false] once terminated *)
  audio_stream : option Stream;
  microphones : list DeviceDict;
  speakers : list DeviceDict;
}.

Definition __init__ (filepath : string) (sample_rate channels format frames_per_buffer : Z)
  : Audio :=
  {| filepath := filepath;
     sample_rate := sample_rate;
     channels := channels;
     format := format;
     frames_per_buffer := frames_per_buffer;
     recording := true;
     recorded_frames := [];
     pyaudio_obj := None;
     audio_stream := None;
     microphones := [];
     speakers := [] |}.

(** The constructor's defaults; [dir] is the directory of the module. *)
Definition default_Audio (dir : string) : Audio :=
  __init__ (dir +:+ "/recording.wav") 16000 1 paInt16 4096.

(** One line typed at the console, as [int(line.strip())] reads it. *)
Inductive Line : Type :=
  | IntLine (n : Z)
  | OtherLine (text : string).

(** Observable actions, in the order they happen. *)
Inductive Event : Type :=
  | EvOpen (s : Stream)                      (* PyAudio.open granted *)
  | EvRead (data : bytes) (overflowed : bool)  (* Stream.read returned *)
  | EvAppend (data : bytes)                  (* recorded_frames.append *)
  | EvPlay (data : bytes) (ok : bool)        (* Stream.write returned / raised *)
  | EvClose                                  (* Stream.close() returned *)
  | EvSpawn                                  (* thread.start() *)
  | EvStop                                   (* self.recording = False *)
  | EvJoin                                   (* thread.join() returned *)
  | EvSerialize (path : string).             (* wave.open(path, 'wb') *)

(** Everything the methods read or change: the object, the files, the
    pending console input, the number of hardware reads and writes done,
    and the history of observable actions. *)
Record World : Type := {
  self : Audio;
  fs : gmap string wave.File;
  stdin : list Line;
  hw_reads : nat;
  hw_writes : nat;
  trace : list Event;
}.

Definition with_self (f : Audio → Audio) (w : World) : World :=
  {| self := f (self w); fs := fs w; stdin := stdin w;
     hw_reads := hw_reads w; hw_writes := hw_writes w; trace := trace w |}.

Definition emit (e : Event) (w : World) : World :=
  {| self := self w; fs := fs w; stdin := stdin w;
     hw_reads := hw_reads w; hw_writes := hw_writes w; trace := trace w ++ [e] |}.

Definition set_stdin (l : list Line) (w : World) : World :=
  {| self := self w; fs := fs w; stdin := l;
     hw_reads := hw_reads w; hw_writes := hw_writes w; trace := trace w |}.

Definition count_read (w : World) : World :=
  {| self := self w; fs := fs w; stdin := stdin w;
     hw_reads := S (hw_reads w); hw_writes := hw_writes w; trace := trace w |}.

Definition count_write (w : World) : World :=
  {| self := self w; fs := fs w; stdin := stdin w;
     hw_reads := hw_reads w; hw_writes := S (hw_writes w); trace := trace w |}.

Definition set_file (path : string) (f : wave.File) (w : World) : World :=
  {| self := self w; fs := <[path := f]> (fs w); stdin := stdin w;
     hw_reads := hw_reads w; hw_writes := hw_writes w; trace := trace w |}.

(** Field assignments on [self]. *)
Definition set_recording (b : bool) (a : Audio) : Audio :=
  {| filepath := filepath a; sample_rate := sample_rate a; channels := channels a;
     format := format a; frames_per_buffer := frames_per_buffer a;
     recording := b; recorded_frames := recorded_frames a;
     pyaudio_obj := pyaudio_obj a; audio_stream := audio_stream a;
     microphones := microphones a; speakers := speakers a |}.

Definition set_recorded_frames (l : list bytes) (a : Audio) : Audio :=
  {| filepath := filepath a; sample_rate := sample_rate a; channels := channels a;
     format := format a; frames_per_buffer := frames_per_buffer a;
     recording := recording a; recorded_frames := l;
     pyaudio_obj := pyaudio_obj a; audio_stream := audio_stream a;
     microphones := microphones a; speakers := speakers a |}.

Definition set_pyaudio_obj (p : option bool) (a : Audio) : Audio :=
  {| filepath := filepath a; sample_rate := sample_rate a; channels := channels a;
     format := format a; frames_per_buffer := frames_per_buffer a;
     recording := recording a; recorded_frames := recorded_frames a;
     pyaudio_obj := p; audio_stream := audio_stream a;
     microphones := microphones a; speakers := speakers a |}.

Definition set_audio_stream (s : option Stream) (a : Audio) : Audio :=
  {| filepath := filepath a; sample_rate := sample_rate a; channels := channels a;
     format := format a; frames_per_buffer := frames_per_buffer a;
     recording := recording a; recorded_frames := recorded_frames a;
     pyaudio_obj := pyaudio_obj a; audio_stream := s;
     microphones := microphones a; speakers := speakers a |}.

Definition set_microphones (l : list DeviceDict) (a : Audio) : Audio :=
  {| filepath := filepath a; sample_rate := sample_rate a; channels := channels a;
     format := format a; frames_per_buffer := frames_per_buffer a;
     recording := recording a; recorded_frames := recorded_frames a;
     pyaudio_obj := pyaudio_obj a; audio_stream := audio_stream a;
     microphones := l; speakers := speakers a |}.

Definition set_speakers (l : list DeviceDict) (a : Audio) : Audio :=
  {| filepath := filepath a; sample_rate := sample_rate a; channels := channels a;
     format := format a; frames_per_buffer := frames_per_buffer a;
     recording := recording a; recorded_frames := recorded_frames a;
     pyaudio_obj := pyaudio_obj a; audio_stream := audio_stream a;
     microphones := microphones a; speakers := l |}.

(** *** Methods run in [ST World]. *)
Abbreviation M := (ST World).

(** [input(prompt)]: the next console line, [EOFError] when there is none. *)
Definition input : M Line := λ w,
  match stdin w with
  | [] => (Raise EOFError, w)
  | l :: rest => (Ok l, set_stdin rest w)
  end.

(** [PyAudio.open(...)]: the request goes through or is refused; [grants]
    is the outcome of the call as a whole. A request for less than one
    channel is refused by PyAudio itself, with a ValueError, before
    PortAudio sees it (no host grants one); any other refusal is
    PortAudio's, with its error text. *)
Definition pa_open (h : Host) (s : Stream) : M Stream := λ w,
  if grants h s then (Ok s, emit (EvOpen s) w)
  else if (st_channels s <? 1)%Z then (Raise (ValueError "Invalid audio channels"), w)
  else (Raise (IOError (open_error h s)), w).

(** What PyAudio does to the stream of a read or write that fails, before
    it raises: the stream is closed. *)
Definition cleanup_stream (st : Stream) (w : World) : World :=
  with_self (set_audio_stream (Some (closed_stream st))) w.

(** [Stream.read(num_frames, exception_on_overflow)] on [self.audio_stream]:
    one blocking hardware read. An overflow raises only when
    [exception_on_overflow] is set; otherwise the chunk is returned. *)
Definition stream_read (h : Host) (num_frames : Z) (exception_on_overflow : bool)
  : M bytes := λ w,
  match audio_stream (self w) with
  | None => (Raise (AttributeError "'NoneType' object has no attribute 'read'"), w)
  | Some st =>
      if negb (st_input st) then (Raise (IOError "Not input stream"), w)
      else if st_closed st then (Raise (IOError "Stream closed"), w)
      else
        let r := mic h (hw_reads w) num_frames in
        if hw_overflowed r && exception_on_overflow
        then (Raise (IOError "Input overflowed"), cleanup_stream st (count_read w))
        else (Ok (hw_data r), emit (EvRead (hw_data r) (hw_overflowed r)) (count_read w))
  end.

(** [Stream.write(data)] on [self.audio_stream]: one blocking hardware
    write. When it fails PyAudio closes the stream and raises IOError with
    PortAudio's error text. *)
Definition stream_write (h : Host) (data : bytes) : M unit := λ w,
  match audio_stream (self w) with
  | None => (Raise (AttributeError "'NoneType' object has no attribute 'write'"), w)
  | Some st =>
      if negb (st_output st) then (Raise (IOError "Not output stream"), w)
      else if st_closed st then (Raise (IOError "Stream closed"), w)
      else if speaker_ok h (hw_writes w)
      then (Ok tt, emit (EvPlay data true) (count_write w))
      else (Raise (IOError (write_error h (hw_writes w))),
            cleanup_stream st (emit (EvPlay data false) (count_write w)))
  end.

Definition _open_audio_stream (h : Host) (record : bool)
    (file_bytes : option wave.Wave_read)
    (input_device_index output_device_index : option Z) : M unit :=
  (* Create the pyaudio object *)
  modify (with_self (set_pyaudio_obj (Some true)));;
  (* Get the default devices if they weren't passed as parameters *)
  input_device_index ←
    match input_device_index with
    | None => lift (get_default_input_device_index h)
    | Some i => mret i
    end;
  output_device_index ←
    match output_device_index with
    | None => lift (get_default_output_device_index h)
    | Some i => mret i
    end;
  (* Handle whether it is recording or playback *)
  w ← get;
  params ←
    (if record then
       mret (false, format (self w), channels (self w), sample_rate (self w))
     else
       match file_bytes with
       | None =>
           raise (AttributeError "'NoneType' object has no attribute 'getsampwidth'")
       | Some file =>
           audio_format ← lift (get_format_from_width (wave.getsampwidth file));
           mret (true, audio_format, wave.getnchannels file, wave.getframerate file)
       end);
  let '(output, audio_format, channels, sample_rate) := params in
  st ← pa_open h {| st_format := audio_format;
                    st_channels := channels;
                    st_rate := sample_rate;
                    st_input := record;
                    st_output := output;
                    st_frames_per_buffer := frames_per_buffer (self w);
                    st_input_device_index := input_device_index;
                    st_output_device_index := output_device_index;
                    st_closed := false |};
  modify (with_self (set_audio_stream (Some st))).

(** [stop_stream(); close(); terminate()] *)
Definition _close_audio_stream : M unit :=
  w ← get;
  match audio_stream (self w) with
  | None => raise (AttributeError "'NoneType' object has no attribute 'stop_stream'")
  | Some st =>
      modify (with_self (set_audio_stream (Some (closed_stream st))));;
      modify (emit EvClose);;
      match pyaudio_obj (self w) with
      | None => raise (AttributeError "'Audio' object has no attribute 'pyaudio_obj'")
      | Some _ => modify (with_self (set_pyaudio_obj (Some false)))
      end
  end.

(** The [with wave.open(self.filepath, 'wb') as file] block: opening
    truncates the file, the body runs on a fresh writer, and leaving the
    block closes the writer, whose own error (if any) is the one raised. The
    file is left as the writer left it. *)
Definition _write_to_file : M unit := λ w,
  let a := self w in
  let full_audio := join (recorded_frames a) in
  let w1 := emit (EvSerialize (filepath a)) w in
  let '(r, file) :=
    (wave.call (wave.setnchannels (channels a));;
     width ← lift (get_sample_size (format a));
     wave.call (wave.setsampwidth width);;
     wave.call (wave.setframerate (sample_rate a));;
     wave.writeframes full_audio) wave.new_Wave_write in
  let '(closing, file') := wave.close file in
  let w2 := set_file (filepath a) (wave.on_disk file') w1 in
  match closing with
  | Raise e => (Raise e, w2)
  | Ok _ => (r, w2)
  end.

(** The loop of [_get_available_devices] over [range(get_device_count())]. *)
Fixpoint devices_loop (h : Host) (indices : list nat) : M unit :=
  match indices with
  | [] => mret tt
  | i :: rest =>
      info ← lift (get_device_info_by_index h i);
      let device_dict := {| id := Z.of_nat i; dname := name info |} in
      (* Differentiate between speakers and microphones *)
      (if (0 <? maxInputChannels info)%Z
       then modify (with_self (λ a, set_microphones (microphones a ++ [device_dict]) a))
       else mret tt);;
      (if (0 <? maxOutputChannels info)%Z
       then modify (with_self (λ a, set_speakers (speakers a ++ [device_dict]) a))
       else mret tt);;
      devices_loop h rest
  end.

Definition _get_available_devices (h : Host) : M unit :=
  devices_loop h (seq 0 (get_device_count h)).

(** The [while True] loop of [_select_device]: one console line per turn,
    until one is the id of a listed device. *)
Fixpoint select_loop (devices : list DeviceDict) (lines : list Line)
  : result Z * list Line :=
  match lines with
  | [] => (Raise EOFError, [])
  | IntLine index :: rest =>
      if bool_decide (index ∈ map id devices) then (Ok index, rest)
      else select_loop devices rest
  | OtherLine _ :: rest => select_loop devices rest
  end.

Definition _select_device (h : Host) (record : bool) : M Z :=
  _get_available_devices h;;
  w ← get;
  let devices := if record then microphones (self w) else speakers (self w) in
  let '(r, rest) := select_loop devices (stdin w) in
  modify (set_stdin rest);;
  lift r.

(** The [while data] loop of [play]; [None] when [fuel] turns do not
    exhaust the file. *)
Fixpoint play_loop (h : Host) (fuel : nat) (file : wave.Wave_read) (data : bytes)
    (w : World) : option (result unit * World) :=
  match data with
  | [] => Some (Ok tt, w)
  | _ :: _ =>
      match fuel with
      | O => None
      | S fuel' =>
          match stream_write h data w with
          | (Raise e, w1) => Some (Raise e, w1)
          | (Ok _, w1) =>
              let '(data', file') :=
                wave.readframes (frames_per_buffer (self w1)) file in
              play_loop h fuel' file' data' w1
          end
      end
  end.

(** [play]; every non-empty chunk takes at least one byte of the payload,
    so one turn per byte (and one more) is enough fuel. *)
Definition play (h : Host) (use_default : bool) (w : World)
  : option (result unit * World) :=
  let prologue : M wave.Wave_read :=
    (* Prompt user to select device if not using default *)
    device_index ←
      (if use_default then mret None
       else index ← _select_device h false; mret (Some index));
    (* Open the file and get the audio format details *)
    w0 ← get;
    file ← lift (wave.open_read (filepath (self w0)) (fs w0 !! filepath (self w0)));
    _open_audio_stream h false (Some file) None device_index;;
    mret file in
  match prologue w with
  | (Raise e, w1) => Some (Raise e, w1)
  | (Ok file, w1) =>
      (* Read data in chunks and play *)
      let '(data, file1) := wave.readframes (frames_per_buffer (self w1)) file in
      match play_loop h (S (length (wave.payload (wave.r_file file)))) file1 data w1 with
      | None => None
      | Some (Raise e, w2) => Some (Raise e, w2)
      | Some (Ok _, w2) =>
          (* Close and clean up the stream *)
          Some (_close_audio_stream w2)
      end
  end.

(** *** [record]: two threads over one object

    [record] runs on the coordinating thread; [_record_thread] runs on the
    thread it starts. Each is a sequence of steps between which the other
    thread may run; a schedule says whose turn it is. *)

(** Where the coordinating thread is in [record]. *)
Inductive CoordPc : Type :=
  | CSelect (use_default : bool)        (* if use_default: ... else: ... *)
  | COpen (device_index : option Z)     (* self._open_audio_stream() *)
  | CPromptStart                        (* input('Press <ENTER> to start recording...') *)
  | CSpawn                              (* thread = Thread(...); thread.start() *)
  | CPromptStop                         (* input('Press <ENTER> to stop the recording') *)
  | CSetStop                            (* self.recording = False *)
  | CJoin                               (* thread.join() *)
  | CClose                              (* self._close_audio_stream() *)
  | CSerialize                          (* self._write_to_file() *)
  | CReturned
  | CRaised (e : exn).

(** Where the capture thread is in [_record_thread]. *)
Inductive WorkerPc : Type :=
  | WNotStarted
  | WLoopTest                           (* while self.recording: *)
  | WReading                            (* data = self.audio_stream.read(...) *)
  | WAppending (data : bytes)           (* self.recorded_frames.append(data) *)
  | WFinished
  | WRaised (e : exn).

Definition terminated (p : WorkerPc) : bool :=
  match p with
  | WFinished | WRaised _ => true
  | _ => false
  end.

Record Session : Type := {
  world : World;
  coord : CoordPc;
  worker : WorkerPc;
}.

(** The call [obj.record(use_default)] about to run in world [w]. *)
Definition start_record (use_default : bool) (w : World) : Session :=
  {| world := w; coord := CSelect use_default; worker := WNotStarted |}.

(** One statement of [record]: run it, then go on or propagate. *)
Definition coord_run {A} (s : Session) (m : M A) (next : A → CoordPc) : Session :=
  match m (world s) with
  | (Ok a, w') => {| world := w'; coord := next a; worker := worker s |}
  | (Raise e, w') => {| world := w'; coord := CRaised e; worker := worker s |}
  end.

(** A turn of the coordinating thread; [None] when it cannot move. *)
Definition coord_step (h : Host) (s : Session) : option Session :=
  match coord s with
  | CSelect use_default =>
      Some (coord_run s
              (if use_default then mret None
               else index ← _select_device h true; mret (Some index))
              COpen)
  | COpen device_index =>
      Some (coord_run s (_open_audio_stream h true None None None) (λ _, CPromptStart))
  | CPromptStart =>
      Some (coord_run s input (λ _, CSpawn))
  | CSpawn =>
      Some {| world := emit EvSpawn (world s); coord := CPromptStop; worker := WLoopTest |}
  | CPromptStop =>
      Some (coord_run s input (λ _, CSetStop))
  | CSetStop =>
      Some (coord_run s
              (modify (with_self (set_recording false));; modify (emit EvStop))
              (λ _, CJoin))
  | CJoin =>
      if terminated (worker s)
      then Some (coord_run s (modify (emit EvJoin)) (λ _, CClose))
      else None
  | CClose =>
      Some (coord_run s _close_audio_stream (λ _, CSerialize))
  | CSerialize =>
      Some (coord_run s _write_to_file (λ _, CReturned))
  | CReturned | CRaised _ => None
  end.

(** A turn of the capture thread; [None] when it is not running. *)
Definition worker_step (h : Host) (s : Session) : option Session :=
  match worker s with
  | WLoopTest =>
      Some {| world := world s; coord := coord s;
              worker := if recording (self (world s)) then WReading else WFinished |}
  | WReading =>
      match stream_read h (frames_per_buffer (self (world s))) false (world s) with
      | (Ok data, w') => Some {| world := w'; coord := coord s; worker := WAppending data |}
      | (Raise e, w') => Some {| world := w'; coord := coord s; worker := WRaised e |}
      end
  | WAppending data =>
      Some {| world :=
                emit (EvAppend data)
                  (with_self (λ a, set_recorded_frames (recorded_frames a ++ [data]) a)
                     (world s));
              coord := coord s; worker := WLoopTest |}
  | WNotStarted | WFinished | WRaised _ => None
  end.

Inductive Tid : Type := Coordinator | Capture.

Definition step (h : Host) (t : Tid) (s : Session) : option Session :=
  match t with
  | Coordinator => coord_step h s
  | Capture => worker_step h s
  end.

(** Run a schedule; [None] when it gives a turn to a thread that cannot move. *)
Fixpoint run (h : Host) (schedule : list Tid) (s : Session) : option Session :=
  match schedule with
  | [] => Some s
  | t :: rest =>
      match step h t s with
      | Some s' => run h rest s'
      | None => None
      end
  end.

End audio.

(** ** [converter.py]: class [Converter] *)
Module converter.

(** The attributes of a [Converter]; [text] exists once
    [_read_audio_file] has set it. *)
Record Converter : Type := {
  input_path : option string;
  output_path : option string;
  text_to_speech_model_path : option string;
  speech_to_text_model_path : option string;
  sample_rate : Z;
  speech_to_text : bool;
  text : option string;
}.

Definition __init__ (input_path output_path speech_to_text_model_path
    text_to_speech_model_path : option string) (sample_rate : Z)
    (speech_to_text : bool) : Converter :=
  {| input_path := input_path;
     output_path := output_path;
     text_to_speech_model_path := text_to_speech_model_path;
     speech_to_text_model_path := speech_to_text_model_path;
     sample_rate := 1600;
     speech_to_text := speech_to_text;
     text := None |}.

(** The Vosk recognizer, as [_read_audio_file] drives it: whether a model
    directory loads, the recognizer for a model and a frame rate, whether a
    chunk completes an utterance, and the ['text'] of [Result()] and
    [FinalResult()]. *)
Record Vosk : Type := {
  rec_state : Type;
  model_loads : string → bool;
  KaldiRecognizer : string → Z → rec_state;
  AcceptWaveform : bytes → rec_state → bool * rec_state;
  Result : rec_state → string * rec_state;
  FinalResult : rec_state → string * rec_state;
}.

Inductive Event : Type :=
  | EvHeader (path : string)          (* the header getters of _check_audio_file *)
  | EvModel (path : string)           (* Model(path) *)
  | EvFrames (data : bytes)           (* file.readframes(4000) *)
  | EvAccept (data : bytes)           (* recognizer.AcceptWaveform(data) *)
  | EvText (path : string).           (* the transcription written *)

Record World : Type := {
  self : Converter;
  fs : gmap string wave.File;
  trace : list Event;
}.

Abbreviation M := (ST World).

Definition with_self (f : Converter → Converter) (w : World) : World :=
  {| self := f (self w); fs := fs w; trace := trace w |}.

Definition emit (e : Event) (w : World) : World :=
  {| self := self w; fs := fs w; trace := trace w ++ [e] |}.

Definition set_file (path : string) (f : wave.File) (w : World) : World :=
  {| self := self w; fs := <[path := f]> (fs w); trace := trace w |}.

Definition set_paths (i o t s : option string) (c : Converter) : Converter :=
  {| input_path := i; output_path := o;
     text_to_speech_model_path := t; speech_to_text_model_path := s;
     sample_rate := sample_rate c; speech_to_text := speech_to_text c;
     text := text c |}.

Definition set_text (t : string) (c : Converter) : Converter :=
  {| input_path := input_path c; output_path := output_path c;
     text_to_speech_model_path := text_to_speech_model_path c;
     speech_to_text_model_path := speech_to_text_model_path c;
     sample_rate := sample_rate c; speech_to_text := speech_to_text c;
     text := Some t |}.

(** [not path]: [None] and the empty string are both false values. *)
Definition missing (p : option string) : bool :=
  match p with
  | None | Some EmptyString => true
  | Some _ => false
  end.

Definition or_default (p : option string) (default : string) : option string :=
  if missing p then Some default else p.

(** [_process_paths]; [dir] is the directory of the module. *)
Definition _process_paths (dir : string) : M unit :=
  let default_audio_path := dir +:+ "/recording.wav" in
  let default_text_path := dir +:+ "/transcription.txt" in
  let default_speech_to_text_model_path :=
    dir +:+ "/speech_recognition_models/vosk_en_small" in
  let default_text_to_speech_model_path := dir in
  modify (with_self (λ c,
    if speech_to_text c then
      set_paths (or_default (input_path c) default_audio_path)
                (or_default (output_path c) default_text_path)
                (text_to_speech_model_path c)
                (or_default (speech_to_text_model_path c)
                   default_speech_to_text_model_path) c
    else
      set_paths (or_default (input_path c) default_text_path)
                (or_default (output_path c) default_audio_path)
                (or_default (text_to_speech_model_path c)
                   default_text_to_speech_model_path)
                (speech_to_text_model_path c) c)).

(** [wave.open(self.input_path)] *)
Definition open_input : M wave.Wave_read :=
  w ← get;
  match input_path (self w) with
  | None => raise (AttributeError "'NoneType' object has no attribute 'read'")
  | Some path => lift (wave.open_read path (fs w !! path))
  end.

(** The error of a file that is not WAV, mono, 16-bit PCM. *)
Definition FormatError : exn :=
  ValueError "Audio input file must be WAV, mono, 16-bit PCM".

Definition _check_audio_file : M unit :=
  file ← open_input;
  w ← get;
  modify (emit (EvHeader (default "" (input_path (self w)))));;
  let channels := wave.getnchannels file in
  let sample_width := wave.getsampwidth file in
  let comp_type := wave.getcomptype file in
  if negb (channels =? 1)%Z || negb (sample_width =? 2)%Z
     || negb (String.eqb comp_type "NONE")
  then raise FormatError
  else mret tt.

(** The [while True] loop of [_read_audio_file]; [None] when [fuel] turns
    do not reach the end of the file. *)
Fixpoint read_loop (V : Vosk) (fuel : nat) (file : wave.Wave_read)
    (recognizer : rec_state V) (results : list string) (w : World)
  : option (list string * rec_state V * World) :=
  match fuel with
  | O => None
  | S fuel' =>
      let '(data, file') := wave.readframes 4000 file in
      let w1 := emit (EvFrames data) w in
      if (length data =? 0)%nat then Some (results, recognizer, w1)
      else
        let '(complete, recognizer1) := AcceptWaveform V data recognizer in
        let w2 := emit (EvAccept data) w1 in
        if complete then
          let '(result, recognizer2) := Result V recognizer1 in
          read_loop V fuel' file' recognizer2 (results ++ [result]) w2
        else read_loop V fuel' file' recognizer1 results w2
  end.

Definition _read_audio_file (V : Vosk) (w : World) : option (result unit * World) :=
  (* Initialize the model *)
  match speech_to_text_model_path (self w) with
  | None => Some (Raise (Exception "Failed to create a model"), w)
  | Some model_path =>
      let w1 := emit (EvModel model_path) w in
      if negb (model_loads V model_path)
      then Some (Raise (Exception "Failed to create a model"), w1)
      else
        match open_input w1 with
        | (Raise e, w2) => Some (Raise e, w2)
        | (Ok file, w2) =>
            let recognizer := KaldiRecognizer V model_path (wave.getframerate file) in
            match read_loop V (S (length (wave.payload (wave.r_file file))))
                    file recognizer [] w2 with
            | None => None
            | Some (results, recognizer1, w3) =>
                (* Get final bits *)
                let '(final_result, _) := FinalResult V recognizer1 in
                let results := results ++ [final_result] in
                (* Convert results list to string *)
                Some (Ok tt, with_self (set_text (String.concat " " results)) w3)
            end
        end
  end.

Definition _write_text_file : M unit :=
  w ← get;
  match output_path (self w), text (self w) with
  | Some path, Some t =>
      modify (set_file path (wave.TextFile t));; modify (emit (EvText path))
  | None, _ => raise (Exception "expected str, bytes or os.PathLike object, not NoneType")
  | _, None => raise (AttributeError "'Converter' object has no attribute 'text'")
  end.

Definition audio_to_text (V : Vosk) (dir : string) (w : World)
  : option (result unit * World) :=
  match (_process_paths dir;; _check_audio_file) w with
  | (Raise e, w1) => Some (Raise e, w1)
  | (Ok _, w1) =>
      match _read_audio_file V w1 with
      | None => None
      | Some (Raise e, w2) => Some (Raise e, w2)
      | Some (Ok _, w2) => Some (_write_text_file w2)
      end
  end.

End converter.

(** ** Notions the statements use *)

Import pyaudio.

(** The devices of a table that can capture ([input]) or play back, with
    their indices from [i] on: a device qualifies iff it has channels in
    that direction. *)
Fixpoint classify (input : bool) (i : nat) (infos : list DeviceInfo)
  : list audio.DeviceDict :=
  match infos with
  | [] => []
  | info :: rest =>
      let n := if input then maxInputChannels info else maxOutputChannels info in
      (if (0 <? n)%Z then [{| audio.id := Z.of_nat i; audio.dname := name info |}] else [])
        ++ classify input (S i) rest
  end.

Definition host_microphones (h : Host) : list audio.DeviceDict :=
  classify true 0 (devices h).
Definition host_speakers (h : Host) : list audio.DeviceDict :=
  classify false 0 (devices h).

(** A world whose device lists have grown by [mics] and [spks]. *)
Definition listed (mics spks : list audio.DeviceDict) (w : audio.World) : audio.World :=
  audio.with_self
    (λ a, audio.set_speakers (audio.speakers a ++ spks)
            (audio.set_microphones (audio.microphones a ++ mics) a)) w.

(** The chunks the hardware delivered, the chunks appended to the frame
    buffer, and the chunks handed to the output stream, in a history. *)
Definition captured (t : list audio.Event) : list bytes :=
  omap (λ e, match e with audio.EvRead d _ => Some d | _ => None end) t.
Definition appended (t : list audio.Event) : list bytes :=
  omap (λ e, match e with audio.EvAppend d => Some d | _ => None end) t.
Definition played (t : list audio.Event) : list bytes :=
  omap (λ e, match e with audio.EvPlay d _ => Some d | _ => None end) t.

(** A world with a given object and console input, and nothing else yet. *)
Definition fresh_world (a : audio.Audio) (lines : list audio.Line) : audio.World :=
  {| audio.self := a; audio.fs := ∅; audio.stdin := lines;
     audio.hw_reads := 0; audio.hw_writes := 0; audio.trace := [] |}.

(** A host with a microphone (0), a speaker (1) and a headset (2); every
    read delivers [chunk], every [overruns k] read is an overrun, and the
    writes [fails k] fail. *)
Definition host3 (chunk : bytes) (overruns fails : nat → bool) : Host :=
  {| devices :=
       [ {| name := "microphone"; maxInputChannels := 2; maxOutputChannels := 0 |};
         {| name := "speaker"; maxInputChannels := 0; maxOutputChannels := 2 |};
         {| name := "headset"; maxInputChannels := 1; maxOutputChannels := 1 |} ];
     default_input := Some 0%Z;
     default_output := Some 1%Z;
     grants := λ _, true;
     mic := λ k _, {| hw_data := chunk; hw_overflowed := overruns k |};
     speaker_ok := λ k, negb (fails k);
     open_error := λ _, "Invalid device";
     write_error := λ _, "Unanticipated host error" |}.

Definition never : nat → bool := λ _, false.

(** [n] bytes [b]. *)
Definition chunk (b : byte) (n : nat) : bytes := repeat b n.

(** An object with two-frame buffers (four bytes a chunk), and a world whose
    only file is a 16 kHz mono 16-bit recording at the object's path. *)
Definition small_Audio : audio.Audio :=
  audio.__init__ "/app/recording.wav" 16000 1 paInt16 2.

Definition recording_of (data : bytes) : wave.File :=
  wave.WavFile {| wave.nchannels := 1; wave.sampwidth := 2; wave.framerate := 16000;
                  wave.payload := data |}.

Definition world_with_file (a : audio.Audio) (data : bytes) : audio.World :=
  {| audio.self := a; audio.fs := {[ audio.filepath a := recording_of data ]};
     audio.stdin := []; audio.hw_reads := 0; audio.hw_writes := 0; audio.trace := [] |}.

(** *** Worlds that calls leave behind *)

(** After [_open_audio_stream] created [st]. *)
Definition opened (st : Stream) (w : audio.World) : audio.World :=
  audio.emit (audio.EvOpen st)
    (audio.with_self
       (λ a, audio.set_audio_stream (Some st) (audio.set_pyaudio_obj (Some true) a)) w).

(** After [_close_audio_stream] closed [st]. *)
Definition closed (st : Stream) (w : audio.World) : audio.World :=
  audio.with_self
    (λ a, audio.set_pyaudio_obj (Some false)
            (audio.set_audio_stream (Some (closed_stream st)) a))
    (audio.emit audio.EvClose w).

(** After [n] more hardware writes that left the events [new]. *)
Definition after_writes (n : nat) (new : list audio.Event) (w : audio.World) : audio.World :=
  {| audio.self := audio.self w; audio.fs := audio.fs w; audio.stdin := audio.stdin w;
     audio.hw_reads := audio.hw_reads w;
     audio.hw_writes := audio.hw_writes w + n;
     audio.trace := audio.trace w ++ new |}.

Definition ok_writes (ds : list bytes) : list audio.Event :=
  map (λ d, audio.EvPlay d true) ds.

(** The device index a stream gets: the one passed, else the host default. *)
Definition resolve (index default : option Z) : option Z :=
  match index with Some i => Some i | None => default end.

(** The container [_write_to_file] makes of an object, the world while the
    file is open for writing, and the world once it is written. *)
Definition wav_of (a : audio.Audio) (width : Z) : wave.WaveFile :=
  {| wave.nchannels := audio.channels a; wave.sampwidth := width;
     wave.framerate := audio.sample_rate a;
     wave.payload := join (audio.recorded_frames a) |}.

(** The world once [_write_to_file] has left [f] at the path. *)
Definition unfinished (f : wave.File) (w : audio.World) : audio.World :=
  audio.set_file (audio.filepath (audio.self w)) f
    (audio.emit (audio.EvSerialize (audio.filepath (audio.self w))) w).

Definition serialized (width : Z) (w : audio.World) : audio.World :=
  unfinished (wave.WavFile (wav_of (audio.self w) width)) w.

(** A configuration [wave] accepts: a format PyAudio knows, at least one
    channel, a positive sample rate. *)
Definition valid_config (a : audio.Audio) : Prop :=
  is_ok (get_sample_size (audio.format a))
  ∧ (1 ≤ audio.channels a)%Z ∧ (0 < audio.sample_rate a)%Z.

(** The length of the payload [_write_to_file] writes, and the length of
    the whole frames in it, which is the data length of the first header. *)
Definition buffer_length (a : audio.Audio) : Z :=
  Z.of_nat (length (join (audio.recorded_frames a))).

Definition whole_frames (a : audio.Audio) (width : Z) : Z :=
  (buffer_length a / (audio.channels a * width) * audio.channels a * width)%Z.

(** What the RIFF header can hold: the block size in 16 bits, the byte
    rate and the length of the file in 32 bits. *)
Definition container_limits (a : audio.Audio) (width : Z) : Prop :=
  (audio.channels a * width < 2 ^ 16)%Z
  ∧ (audio.channels a * audio.sample_rate a * width < 2 ^ 32)%Z
  ∧ (36 + buffer_length a < 2 ^ 32)%Z.

(** How [_write_to_file] fails, and the file it leaves then: the
    configuration is refused by a setter, and the file is empty; a field of
    the header is out of range, and the file holds the ids of two attempts
    at the header; the payload is not made of whole frames and its length
    is out of range, and the file holds the whole frames. *)
Inductive write_failure (a : audio.Audio) : exn → wave.File → Prop :=
  | refused_config :
      ¬ valid_config a →
      write_failure a
        (WaveError (if (audio.channels a <? 1)%Z then "# channels not specified"
                    else if is_ok (get_sample_size (audio.format a))
                    then "sampling rate not specified"
                    else "sample width not specified"))
        wave.EmptyFile
  | header_out_of_range width :
      valid_config a → get_sample_size (audio.format a) = Ok width →
      wave.header_fits (audio.channels a) width (audio.sample_rate a)
        (whole_frames a width) = false →
      write_failure a StructError (wave.TextFile "RIFFRIFF")
  | length_out_of_range width :
      valid_config a → get_sample_size (audio.format a) = Ok width →
      wave.header_fits (audio.channels a) width (audio.sample_rate a)
        (whole_frames a width) = true →
      whole_frames a width ≠ buffer_length a →
      wave.fits 32 (36 + buffer_length a) = false →
      write_failure a StructError
        (wave.WavFile
           {| wave.nchannels := audio.channels a; wave.sampwidth := width;
              wave.framerate := audio.sample_rate a;
              wave.payload := take (Z.to_nat (whole_frames a width))
                                (join (audio.recorded_frames a)) |}).

(** The statements of [play] before its loop, and one read followed by the
    loop (the shape of every turn). *)
Definition play_prologue (h : Host) (use_default : bool) : audio.M wave.Wave_read :=
  device_index ←
    (if use_default then mret None
     else index ← audio._select_device h false; mret (Some index));
  w0 ← get;
  file ← lift (wave.open_read (audio.filepath (audio.self w0))
                 (audio.fs w0 !! audio.filepath (audio.self w0)));
  audio._open_audio_stream h false (Some file) None device_index;;
  mret file.

Definition read_play (h : Host) (fuel : nat) (file : wave.Wave_read) (w : audio.World)
  : option (result unit * audio.World) :=
  let '(data, file1) := wave.readframes (audio.frames_per_buffer (audio.self w)) file in
  audio.play_loop h fuel file1 data w.

(** What the prologue of [play] leaves when it succeeds. *)
Definition play_ready (w w1 : audio.World) (file : wave.Wave_read) (st : Stream) : Prop :=
  audio.trace w1 = audio.trace w ++ [audio.EvOpen st]
  ∧ audio.self w1
    = audio.set_audio_stream (Some st)
        (audio.set_pyaudio_obj (Some true)
           (audio.set_speakers (audio.speakers (audio.self w1))
              (audio.set_microphones (audio.microphones (audio.self w1)) (audio.self w))))
  ∧ st_closed st = false ∧ st_output st = true ∧ st_input st = false
  ∧ wave.open_read (audio.filepath (audio.self w))
      (audio.fs w !! audio.filepath (audio.self w)) = Ok file
  ∧ audio.fs w1 = audio.fs w.

(** A recognizer that never completes an utterance. *)
Definition silent_vosk : converter.Vosk :=
  {| converter.rec_state := unit;
     converter.model_loads := λ _, true;
     converter.KaldiRecognizer := λ _ _, tt;
     converter.AcceptWaveform := λ _ s, (false, s);
     converter.Result := λ s, ("", s);
     converter.FinalResult := λ s, ("", s) |}.

(** A converter world with default arguments and one file. *)
Definition converter_world (path : string) (f : wave.File) : converter.World :=
  {| converter.self := converter.__init__ None None None None 1600 true;
     converter.fs := {[ path := f ]};
     converter.trace := [] |}.

(** The events of [_read_audio_file] that handle frames of the payload. *)
Definition frame_event (e : converter.Event) : bool :=
  match e with
  | converter.EvFrames _ | converter.EvAccept _ => true
  | _ => false
  end.

(** The header test of [_check_audio_file]. *)
Definition pcm16_mono (file : wave.Wave_read) : bool :=
  (wave.getnchannels file =? 1)%Z && (wave.getsampwidth file =? 2)%Z
  && String.eqb (wave.getcomptype file) "NONE".

(** *** Recording sessions *)

(** How far the teardown of a session has come, read off its history: the
    stop signal, then the join, then the close, then the serialization, with
    capture events only before the join and nothing out of this order. *)
Inductive Phase : Type :=
  | PSetup
  | PStopped
  | PJoined
  | PClosed
  | PSerialized (path : string)
  | PBad.

Definition next_phase (p : Phase) (e : audio.Event) : Phase :=
  match p, e with
  | PSetup, (audio.EvOpen _ | audio.EvSpawn | audio.EvRead _ _ | audio.EvAppend _) => PSetup
  | PSetup, audio.EvStop => PStopped
  | PStopped, (audio.EvRead _ _ | audio.EvAppend _) => PStopped
  | PStopped, audio.EvJoin => PJoined
  | PJoined, audio.EvClose => PClosed
  | PClosed, audio.EvSerialize path => PSerialized path
  | _, _ => PBad
  end.

Definition phase_of (t : list audio.Event) : Phase := fold_left next_phase t PSetup.

(** Events of the setup and capture part of a session, and events of the
    capture thread. *)
Definition setup_event (e : audio.Event) : Prop :=
  match e with
  | audio.EvOpen _ | audio.EvSpawn | audio.EvRead _ _ | audio.EvAppend _ => True
  | _ => False
  end.

Definition capture_event (e : audio.Event) : Prop :=
  match e with
  | audio.EvRead _ _ | audio.EvAppend _ => True
  | _ => False
  end.

(** What the hardware will deliver to the next read of the capture thread. *)
Definition next_read (h : Host) (s : audio.Session) : HwRead :=
  mic h (audio.hw_reads (audio.world s))
    (audio.frames_per_buffer (audio.self (audio.world s))).

(** The chunk the capture thread holds but has not appended yet. *)
Definition pending (p : audio.WorkerPc) : list bytes :=
  match p with
  | audio.WAppending d => [d]
  | _ => []
  end.

Definition started (p : audio.WorkerPc) : Prop := p ≠ audio.WNotStarted.

(** The capture thread is not in a hardware read nor holding a chunk. *)
Definition idle (p : audio.WorkerPc) : Prop :=
  match p with
  | audio.WNotStarted | audio.WLoopTest | audio.WFinished => True
  | _ => False
  end.

Definition raised (p : audio.WorkerPc) : Prop :=
  match p with
  | audio.WRaised _ => True
  | _ => False
  end.

(** The object's stream is open for capture / has been closed. *)
Definition capture_open (a : audio.Audio) : Prop :=
  ∃ st, audio.audio_stream a = Some st ∧ st_closed st = false ∧ st_input st = true
        ∧ is_Some (audio.pyaudio_obj a).

Definition stream_closed (a : audio.Audio) : Prop :=
  ∃ st, audio.audio_stream a = Some st ∧ st_closed st = true.

(** The configuration and the path of an object do not change. *)
Definition same_config (a a' : audio.Audio) : Prop :=
  audio.filepath a' = audio.filepath a
  ∧ audio.sample_rate a' = audio.sample_rate a
  ∧ audio.channels a' = audio.channels a
  ∧ audio.format a' = audio.format a
  ∧ audio.frames_per_buffer a' = audio.frames_per_buffer a.

(** What holds at each point of [record], for the events [new] of the session. *)
Definition coord_inv (s : audio.Session) (new : list audio.Event) : Prop :=
  let a := audio.self (audio.world s) in
  match audio.coord s with
  | audio.CSelect _ | audio.COpen _ =>
      audio.worker s = audio.WNotStarted ∧ phase_of new = PSetup
  | audio.CPromptStart | audio.CSpawn =>
      audio.worker s = audio.WNotStarted ∧ capture_open a ∧ phase_of new = PSetup
  | audio.CPromptStop | audio.CSetStop =>
      started (audio.worker s) ∧ capture_open a ∧ phase_of new = PSetup
  | audio.CJoin =>
      started (audio.worker s) ∧ capture_open a ∧ audio.recording a = false
      ∧ phase_of new = PStopped
  | audio.CClose =>
      audio.terminated (audio.worker s) = true ∧ capture_open a
      ∧ audio.recording a = false ∧ phase_of new = PJoined
  | audio.CSerialize =>
      audio.terminated (audio.worker s) = true ∧ stream_closed a
      ∧ audio.recording a = false ∧ phase_of new = PClosed
  | audio.CReturned =>
      audio.terminated (audio.worker s) = true ∧ stream_closed a
      ∧ audio.recording a = false ∧ phase_of new = PSerialized (audio.filepath a)
      ∧ ∃ width, get_sample_size (audio.format a) = Ok width
          ∧ audio.fs (audio.world s) !! audio.filepath a
            = Some (wave.WavFile (wav_of a width))
  | audio.CRaised _ =>
      (phase_of new = PSetup
       ∧ (audio.worker s = audio.WNotStarted ∨ capture_open a))
      ∨ (audio.terminated (audio.worker s) = true ∧ stream_closed a
         ∧ phase_of new = PSerialized (audio.filepath a))
  end.

(** The invariant of a session of [record] started in world [w0]. *)
Definition session_inv (w0 : audio.World) (s : audio.Session) (new : list audio.Event)
  : Prop :=
  let a0 := audio.self w0 in
  let a := audio.self (audio.world s) in
  audio.trace (audio.world s) = audio.trace w0 ++ new
  ∧ same_config a0 a
  ∧ audio.recorded_frames a = audio.recorded_frames a0 ++ appended new
  ∧ captured new = appended new ++ pending (audio.worker s)
  ∧ ¬ raised (audio.worker s)
  ∧ coord_inv s new
  ∧ (audio.recording a0 = false →
     audio.recording a = false ∧ idle (audio.worker s) ∧ captured new = []).

(** The container of a completed session: the object's configuration and
    the concatenation of [chunks]. *)
Definition session_wav (a : audio.Audio) (width : Z) (chunks : list bytes)
  : wave.WaveFile :=
  {| wave.nchannels := audio.channels a; wave.sampwidth := width;
     wave.framerate := audio.sample_rate a;
     wave.payload := join chunks |}.

(** *** Example sessions *)

Definition enter : audio.Line := audio.OtherLine "".

(** The state a schedule leaves ([s] itself if the schedule cannot run). *)
Definition final (h : Host) (schedule : list audio.Tid) (s : audio.Session) : audio.Session :=
  default s (audio.run h schedule s).

(** Whether a schedule can run to its end. *)
Definition completes (h : Host) (schedule : list audio.Tid) (s : audio.Session) : bool :=
  match audio.run h schedule s with
  | Some _ => true
  | None => false
  end.

(** [record] with [n] turns of the capture loop between start and stop: the
    coordinator up to [thread.start()], [n] times test-read-append, the stop
    prompt and the stop signal, the loop test that ends the thread, then
    join, close and serialize. *)
Definition capture_schedule (n : nat) : list audio.Tid :=
  repeat audio.Coordinator 4
  ++ mjoin (repeat [audio.Capture; audio.Capture; audio.Capture] n)
  ++ [audio.Coordinator; audio.Coordinator; audio.Capture;
      audio.Coordinator; audio.Coordinator; audio.Coordinator].

(** *** Chunking *)

(** A list cut into pieces of [n] elements, the last one possibly shorter;
    [fuel] bounds the number of pieces. *)
Fixpoint chunks_upto {A} (fuel n : nat) (l : list A) : list (list A) :=
  match fuel with
  | O => []
  | S fuel' =>
      match l with
      | [] => []
      | _ :: _ => take n l :: chunks_upto fuel' n (drop n l)
      end
  end.

Definition chunks {A} (n : nat) (l : list A) : list (list A) :=
  chunks_upto (length l) n l.

(** *** Streams as the two callers request them *)

(** The world once [_open_audio_stream] has created its PyAudio instance. *)
Definition created (w : audio.World) : audio.World :=
  audio.with_self (audio.set_pyaudio_obj (Some true)) w.

(** The stream [record] asks for: the object's configuration, input only. *)
Definition capture_stream (a : audio.Audio) (i o : Z) : Stream :=
  {| st_format := audio.format a;
     st_channels := audio.channels a;
     st_rate := audio.sample_rate a;
     st_input := true;
     st_output := false;
     st_frames_per_buffer := audio.frames_per_buffer a;
     st_input_device_index := i;
     st_output_device_index := o;
     st_closed := false |}.

(** The stream [play] asks for: the file's header, output only, with the
    object's buffer size. *)
Definition playback_stream (a : audio.Audio) (file : wave.Wave_read) (fmt i o : Z)
  : Stream :=
  {| st_format := fmt;
     st_channels := wave.getnchannels file;
     st_rate := wave.getframerate file;
     st_input := false;
     st_output := true;
     st_frames_per_buffer := audio.frames_per_buffer a;
     st_input_device_index := i;
     st_output_device_index := o;
     st_closed := false |}.

(** The bytes one [readframes(frames_per_buffer)] of [play] asks for. *)
Definition play_chunk_size (a : audio.Audio) (f : wave.WaveFile) : nat :=
  Z.to_nat (audio.frames_per_buffer a * (wave.nchannels f * wave.sampwidth f)).

(** The streams opened in a history. *)
Definition opens (t : list audio.Event) : list Stream :=
  omap (λ e, match e with audio.EvOpen st => Some st | _ => None end) t.

(** *** The ways a call of [play] ends *)

(** The device selection at the head of [play]: the index selected ([None]
    for the default) and the world it leaves. *)
Definition after_selection (h : Host) (use_default : bool) (w : audio.World)
  : result (option Z) * audio.World :=
  if use_default then (Ok None, w)
  else
    let w1 := listed (host_microphones h) (host_speakers h) w in
    let '(r, rest) := audio.select_loop (audio.speakers (audio.self w1)) (audio.stdin w) in
    (match r with Ok i => Ok (Some i) | Raise e => Raise e end, audio.set_stdin rest w1).

(** The error of [PyAudio.open] for a stream the host does not grant. *)
Definition refusal (h : Host) (s : Stream) : exn :=
  if (st_channels s <? 1)%Z then ValueError "Invalid audio channels"
  else IOError (open_error h s).

(** [play] ends in one of five ways: the selection fails; the file does not
    open; the stream does not open; every chunk is written and the stream
    closed; a write fails. *)
Inductive play_outcome (h : Host) (use_default : bool) (w : audio.World)
  : result unit → audio.World → Prop :=
  | play_no_device e wsel :
      after_selection h use_default w = (Raise e, wsel) →
      play_outcome h use_default w (Raise e) wsel
  | play_no_file index wsel e :
      after_selection h use_default w = (Ok index, wsel) →
      wave.open_read (audio.filepath (audio.self w))
        (audio.fs w !! audio.filepath (audio.self w)) = Raise e →
      play_outcome h use_default w (Raise e) wsel
  | play_no_stream index wsel file e :
      after_selection h use_default w = (Ok index, wsel) →
      wave.open_read (audio.filepath (audio.self w))
        (audio.fs w !! audio.filepath (audio.self w)) = Ok file →
      audio._open_audio_stream h false (Some file) None index wsel
        = (Raise e, created wsel) →
      play_outcome h use_default w (Raise e) (created wsel)
  | play_done index wsel file fmt i o n ds :
      after_selection h use_default w = (Ok index, wsel) →
      wave.open_read (audio.filepath (audio.self w))
        (audio.fs w !! audio.filepath (audio.self w)) = Ok file →
      get_format_from_width (wave.getsampwidth file) = Ok fmt →
      default_input h = Some i → resolve index (default_output h) = Some o →
      let st := playback_stream (audio.self wsel) file fmt i o in
      play_outcome h use_default w (Ok tt)
        (closed st (after_writes n (ok_writes ds) (opened st wsel)))
  | play_write_failed index wsel file fmt i o n ds d k :
      after_selection h use_default w = (Ok index, wsel) →
      wave.open_read (audio.filepath (audio.self w))
        (audio.fs w !! audio.filepath (audio.self w)) = Ok file →
      get_format_from_width (wave.getsampwidth file) = Ok fmt →
      default_input h = Some i → resolve index (default_output h) = Some o →
      let st := playback_stream (audio.self wsel) file fmt i o in
      play_outcome h use_default w (Raise (IOError (write_error h k)))
        (audio.cleanup_stream st
           (after_writes n (ok_writes ds ++ [audio.EvPlay d false]) (opened st wsel))).

(** *** Recording sessions: the hardware, the files, the stop signal *)

(** The chunks the hardware delivers to [n] consecutive reads of [frames]
    frames each, the first of them being read number [r0]. *)
Definition hw_chunks (h : Host) (frames : Z) (r0 n : nat) : list bytes :=
  map (λ k, hw_data (mic h (r0 + k) frames)) (seq 0 n).

(** The reads since the stop signal: [None] before it, their number after. *)
Definition late_step (k : option nat) (e : audio.Event) : option nat :=
  match e, k with
  | audio.EvStop, _ => Some 0
  | audio.EvRead _ _, Some n => Some (S n)
  | _, _ => k
  end.

Definition late_reads (t : list audio.Event) : option nat :=
  fold_left late_step t None.

(** The paths serialized in a history. *)
Definition serializations (t : list audio.Event) : list string :=
  omap (λ e, match e with audio.EvSerialize p => Some p | _ => None end) t.

(** The capture hardware and the buffer: the chunks read in the session are
    the ones the hardware delivered to consecutive reads of
    [frames_per_buffer] frames; nothing is written to the hardware. *)
Definition hw_inv (h : Host) (w0 : audio.World) (s : audio.Session)
    (new : list audio.Event) : Prop :=
  let w := audio.world s in
  audio.hw_reads w = audio.hw_reads w0 + length (captured new)
  ∧ captured new
    = hw_chunks h (audio.frames_per_buffer (audio.self w0)) (audio.hw_reads w0)
        (length (captured new))
  ∧ audio.hw_writes w = audio.hw_writes w0.

(** The files: no other path is touched, nothing is touched before the
    serialization, and the serialization ends the call: returned, with a
    configuration and a buffer the container can hold, or raised, in one of
    the ways [_write_to_file] fails. *)
Definition fs_inv (w0 : audio.World) (s : audio.Session) (new : list audio.Event)
  : Prop :=
  let w := audio.world s in
  let path := audio.filepath (audio.self w0) in
  (∀ p, p ≠ path → audio.fs w !! p = audio.fs w0 !! p)
  ∧ (audio.EvSerialize path ∉ new → audio.fs w = audio.fs w0)
  ∧ (audio.EvSerialize path ∈ new →
     (audio.coord s = audio.CReturned
      ∧ ∃ width, get_sample_size (audio.format (audio.self w)) = Ok width
          ∧ valid_config (audio.self w) ∧ container_limits (audio.self w) width)
     ∨ (∃ e f, audio.coord s = audio.CRaised e
          ∧ audio.fs w !! path = Some f
          ∧ write_failure (audio.self w) e f))
  ∧ (audio.coord s = audio.CReturned → audio.EvSerialize path ∈ new).

(** The flag and the stop signal: the flag is as it was until the signal,
    false from then on, and the capture thread reads at most once more. *)
Definition late_inv (w0 : audio.World) (s : audio.Session) (new : list audio.Event)
  : Prop :=
  match late_reads new with
  | None =>
      audio.recording (audio.self (audio.world s)) = audio.recording (audio.self w0)
  | Some n =>
      audio.recording (audio.self (audio.world s)) = false
      ∧ n ≤ 1 ∧ (n = 1 → audio.worker s ≠ audio.WReading)
  end.

(** The stream: the session's first event is the opening of the capture
    stream on the host's default devices, and it opens no other. *)
Definition open_inv (h : Host) (w0 : audio.World) (s : audio.Session)
    (new : list audio.Event) : Prop :=
  match new with
  | [] =>
      audio.worker s = audio.WNotStarted
      ∧ match audio.coord s with
        | audio.CSelect _ | audio.COpen _ | audio.CRaised _ => True
        | _ => False
        end
  | e :: rest =>
      (∃ i o, default_input h = Some i ∧ default_output h = Some o
         ∧ grants h (capture_stream (audio.self w0) i o) = true
         ∧ e = audio.EvOpen (capture_stream (audio.self w0) i o))
      ∧ opens rest = []
      ∧ match audio.coord s with
        | audio.CSelect _ | audio.COpen _ => False
        | _ => True
        end
  end.

Definition session_inv2 (h : Host) (w0 : audio.World) (s : audio.Session)
    (new : list audio.Event) : Prop :=
  hw_inv h w0 s new ∧ fs_inv w0 s new ∧ late_inv w0 s new ∧ open_inv h w0 s new.

(** [n] turns of the capture loop: test, read, append. *)
Definition capture_rounds (n : nat) : list audio.Tid :=
  mjoin (repeat [audio.Capture; audio.Capture; audio.Capture] n).

(** ** Device enumeration *)
Section enumeration.
Import audio.

Lemma listed_nil w : listed [] [] w = w.
Proof.
  destruct w as [a ? ? ? ? ?]; destruct a.
  unfold listed, with_self, set_speakers, set_microphones; simpl.
  by rewrite !app_nil_r.
Qed.

Lemma devices_loop_spec h l k w :
  drop k (devices h) = l →
  devices_loop h (seq k (length l)) w
  = (Ok tt, listed (classify true k l) (classify false k l) w).
Proof.
  revert k w. induction l as [|info l IH]; intros k w Hdrop.
  - simpl. by rewrite listed_nil.
  - assert (Hk : devices h !! k = Some info).
    { rewrite <- (Nat.add_0_r k), <- lookup_drop, Hdrop. done. }
    assert (Hd : drop (S k) (devices h) = l).
    { rewrite <- Nat.add_1_r, <- drop_drop, Hdrop. done. }
    cbn [length seq devices_loop].
    unfold mbind at 1, ST_bind, lift, get_device_info_by_index. rewrite Hk.
    cbn [classify].
    destruct (0 <? maxInputChannels info)%Z, (0 <? maxOutputChannels info)%Z;
      unfold mbind, ST_bind, modify, mret, ST_ret; rewrite (IH (S k) _ Hd);
      f_equal; destruct w as [a ? ? ? ? ?]; destruct a;
      unfold listed, with_self, set_speakers, set_microphones; simpl;
      rewrite <- ?app_assoc, ?app_nil_r; reflexivity.
Qed.

Lemma get_available_devices_listed h w :
  _get_available_devices h w = (Ok tt, listed (host_microphones h) (host_speakers h) w).
Proof. apply devices_loop_spec. reflexivity. Qed.

(** The classification of the spec's example table: microphones 0 and 2,
    speakers 1 and 2. *)
Example host3_lists :
  map id (host_microphones (host3 [] never never)) = [0; 2]%Z
  ∧ map id (host_speakers (host3 [] never never)) = [1; 2]%Z.
Proof. split; reflexivity. Qed.

(** C7, as the code has it: an enumeration call never fails and appends the
    host's microphones and speakers, in index order, to the lists the object
    already holds, changing nothing else; on a fresh object the first call
    leaves exactly the host's devices; and a second call appends them once
    more, so that every device is then listed twice. *)
Theorem enumeration_appends h w :
  ∃ w' w'',
    _get_available_devices h w = (Ok tt, w')
    ∧ microphones (self w') = microphones (self w) ++ host_microphones h
    ∧ speakers (self w') = speakers (self w) ++ host_speakers h
    ∧ w' = listed (host_microphones h) (host_speakers h) w
    ∧ (microphones (self w) = [] → speakers (self w) = [] →
       microphones (self w') = host_microphones h
       ∧ speakers (self w') = host_speakers h)
    ∧ _get_available_devices h w' = (Ok tt, w'')
    ∧ microphones (self w'')
      = microphones (self w) ++ host_microphones h ++ host_microphones h
    ∧ speakers (self w'')
      = speakers (self w) ++ host_speakers h ++ host_speakers h.
Proof.
  exists (listed (host_microphones h) (host_speakers h) w),
    (listed (host_microphones h) (host_speakers h)
       (listed (host_microphones h) (host_speakers h) w)).
  split; [apply get_available_devices_listed|].
  split; [reflexivity|]. split; [reflexivity|]. split; [reflexivity|].
  split; [intros Hm Hs; simpl; by rewrite Hm, Hs|].
  split; [apply get_available_devices_listed|].
  simpl. by rewrite <- !app_assoc.
Qed.

(** C7 fails as stated: on the example host, a second enumeration call on the
    same object leaves lists that differ from those after the first call
    (each device is listed twice). *)
Lemma enumeration_accumulates :
  let h := host3 [] never never in
  let w0 := fresh_world (default_Audio "/app") [] in
  let w1 := (_get_available_devices h w0).2 in
  let w2 := (_get_available_devices h w1).2 in
  map id (microphones (self w1)) = [0; 2]%Z
  ∧ map id (microphones (self w2)) = [0; 2; 0; 2]%Z
  ∧ map id (speakers (self w2)) = [1; 2; 1; 2]%Z
  ∧ ¬ (microphones (self w2) = microphones (self w1)
       ∧ speakers (self w2) = speakers (self w1)).
Proof.
  cbv zeta. repeat split; try reflexivity.
  intros [H _]. vm_compute in H. discriminate H.
Qed.

End enumeration.

(** ** Stream life cycle and playback *)
Section playback.
Import audio.

Ltac st_unfold :=
  unfold mbind, ST_bind, mret, ST_ret, modify, get, lift, raise in *.

Lemma open_audio_stream_spec h record fb i o w :
  match _open_audio_stream h record fb i o w with
  | (Ok _, w') =>
      ∃ st, w' = opened st w
        ∧ st_closed st = false ∧ st_input st = record ∧ st_output st = negb record
        ∧ resolve i (default_input h) = Some (st_input_device_index st)
        ∧ resolve o (default_output h) = Some (st_output_device_index st)
  | (Raise e, w') => w' = with_self (set_pyaudio_obj (Some true)) w
  end.
Proof.
  unfold _open_audio_stream, pa_open, get_default_input_device_index,
    get_default_output_device_index, resolve.
  st_unfold.
  destruct i as [i|]; [|destruct (default_input h) as [i|]]; try reflexivity;
  (destruct o as [o|]; [|destruct (default_output h) as [o|]]); try reflexivity;
  (destruct record; [|destruct fb as [file|]; [destruct (get_format_from_width _)|]]);
  try reflexivity;
  match goal with |- context [grants h ?s] => destruct (grants h s) end;
  try (eexists; by repeat split); by destruct (_ <? 1)%Z.
Qed.

Lemma close_audio_stream_spec w st p :
  audio_stream (self w) = Some st → pyaudio_obj (self w) = Some p →
  _close_audio_stream w = (Ok tt, closed st w).
Proof.
  intros Hst Hp. unfold _close_audio_stream. st_unfold. rewrite Hst, Hp. reflexivity.
Qed.

Lemma select_device_spec h record w :
  _select_device h record w
  = let w1 := listed (host_microphones h) (host_speakers h) w in
    let devs := if record then microphones (self w1) else speakers (self w1) in
    ((select_loop devs (stdin w)).1, set_stdin (select_loop devs (stdin w)).2 w1).
Proof.
  unfold _select_device. st_unfold. rewrite get_available_devices_listed.
  cbv zeta. destruct record; simpl; destruct (select_loop _ _); reflexivity.
Qed.

Lemma select_loop_listed devs lines index rest :
  select_loop devs lines = (Ok index, rest) → index ∈ map id devs.
Proof.
  induction lines as [|[n|t] lines IH]; simpl; [discriminate| |exact IH].
  case_bool_decide; [|exact IH]. intros [= <- _]. done.
Qed.

Lemma stream_write_open h data w st :
  audio_stream (self w) = Some st → st_closed st = false → st_output st = true →
  stream_write h data w
  = if speaker_ok h (hw_writes w)
    then (Ok tt, emit (EvPlay data true) (count_write w))
    else (Raise (IOError (write_error h (hw_writes w))),
          cleanup_stream st (emit (EvPlay data false) (count_write w))).
Proof. intros H1 H2 H3. unfold stream_write. rewrite H1, H2, H3. reflexivity. Qed.

Lemma readframes_spec n r :
  (wave.readframes n r).2
  = {| wave.r_file := wave.r_file r;
       wave.r_pos := wave.r_pos r + length (wave.readframes n r).1 |}
  ∧ length (wave.readframes n r).1 ≤ length (wave.payload (wave.r_file r)) - wave.r_pos r.
Proof.
  unfold wave.readframes. destruct (n =? 0)%Z; simpl.
  - split; [destruct r; simpl; f_equal; lia | lia].
  - split; [reflexivity|].
    destruct (_ <? 0)%Z; rewrite ?length_take, length_drop; lia.
Qed.

Lemma after_writes_0 w : after_writes 0 [] w = w.
Proof. destruct w; unfold after_writes; simpl. by rewrite app_nil_r, Nat.add_0_r. Qed.

(** The loop of [play] always ends within its fuel: with every write
    accepted, or at the first one the hardware refuses, which PyAudio
    answers by closing the stream. *)
Lemma play_loop_spec h fuel : ∀ file data w st,
  audio_stream (self w) = Some st → st_closed st = false → st_output st = true →
  (data ≠ [] → length (wave.payload (wave.r_file file)) - wave.r_pos file < fuel) →
  ∃ r w' n new ds, play_loop h fuel file data w = Some (r, w')
    ∧ ((r = Ok tt ∧ new = ok_writes ds ∧ w' = after_writes n new w)
       ∨ (∃ d k, r = Raise (IOError (write_error h k))
               ∧ new = ok_writes ds ++ [EvPlay d false]
               ∧ w' = cleanup_stream st (after_writes n new w))).
Proof.
  induction fuel as [|fuel IH]; intros file data w st Hst Hcl Hout Hfuel.
  - destruct data as [|b data].
    + exists (Ok tt), w, 0, [], []. split; [done|]. left.
      by rewrite after_writes_0.
    + exfalso. specialize (Hfuel ltac:(done)). lia.
  - destruct data as [|b data].
    + exists (Ok tt), w, 0, [], []. split; [done|]. left.
      by rewrite after_writes_0.
    + specialize (Hfuel ltac:(done)).
      cbn [play_loop]. rewrite (stream_write_open _ _ _ st Hst Hcl Hout).
      destruct (speaker_ok h (hw_writes w)).
      * cbn [self emit count_write].
        destruct (readframes_spec (frames_per_buffer (self w)) file) as [Hfile Hlen].
        destruct (wave.readframes (frames_per_buffer (self w)) file) as [data' file'].
        simpl in Hfile, Hlen. subst file'.
        edestruct (IH {| wave.r_file := wave.r_file file;
                         wave.r_pos := wave.r_pos file + length data' |} data'
                     (emit (EvPlay (b :: data) true) (count_write w)) st)
          as (r & w' & n & new & ds & Hrun & Hres); [exact Hst|exact Hcl|exact Hout| |].
        { intros Hne. simpl. destruct data'; [done|]. simpl in *. lia. }
        exists r, w', (S n), (EvPlay (b :: data) true :: new), ((b :: data) :: ds).
        split; [exact Hrun|].
        assert (Hw : after_writes n new (emit (EvPlay (b :: data) true) (count_write w))
                     = after_writes (S n) (EvPlay (b :: data) true :: new) w).
        { unfold after_writes; simpl. f_equal; [lia | by rewrite <- app_assoc]. }
        destruct Hres as [(-> & -> & ->)|(d & k & -> & -> & ->)].
        -- left. by rewrite Hw.
        -- right. exists d, k. by rewrite Hw.
      * exists (Raise (IOError (write_error h (hw_writes w)))),
          (cleanup_stream st (emit (EvPlay (b :: data) false) (count_write w))),
          1, [EvPlay (b :: data) false], [].
        split; [done|]. right. exists (b :: data), (hw_writes w).
        split; [done|]. split; [done|].
        f_equal. unfold after_writes, emit, count_write; simpl. f_equal. lia.
Qed.

Lemma play_unfold h use_default w :
  play h use_default w
  = match play_prologue h use_default w with
    | (Raise e, w1) => Some (Raise e, w1)
    | (Ok file, w1) =>
        match read_play h (S (length (wave.payload (wave.r_file file)))) file w1 with
        | None => None
        | Some (Raise e, w2) => Some (Raise e, w2)
        | Some (Ok _, w2) => Some (_close_audio_stream w2)
        end
    end.
Proof.
  unfold play. cbv zeta. fold (play_prologue h use_default).
  destruct (play_prologue h use_default w) as [[file|e] w1]; [|reflexivity].
  unfold read_play. destruct (wave.readframes _ _); reflexivity.
Qed.

Lemma play_prologue_cases h use_default w :
  (∃ e w1, play_prologue h use_default w = (Raise e, w1) ∧ trace w1 = trace w)
  ∨ (∃ file st w1, play_prologue h use_default w = (Ok file, w1)
       ∧ play_ready w w1 file st
       ∧ (∀ index, use_default = false →
            (select_loop (speakers (self w) ++ host_speakers h) (stdin w)).1 = Ok index →
            st_device st = index)
       ∧ (use_default = true → Some (st_device st) = default_output h)).
Proof.
  unfold play_prologue. st_unfold.
  destruct use_default.
  - destruct (wave.open_read _ _) as [file|e] eqn:Hopen; [|left; eauto].
    pose proof (open_audio_stream_spec h false (Some file) None None w) as Hspec.
    destruct (_open_audio_stream _ _ _ _ _ _) as [[[]|e] w1].
    + destruct Hspec as (st & -> & Hc & Hi & Ho & _ & Hout). right.
      exists file, st, (opened st w). split; [done|].
      split; [by repeat split; try done; destruct w as [[] ? ? ? ? ?]|].
      split; [done|]. intros _. unfold st_device. rewrite Hi. by simpl in Hout.
    + subst w1. left. eauto.
  - rewrite select_device_spec. cbv zeta.
    change (speakers (self (listed (host_microphones h) (host_speakers h) w)))
      with (speakers (self w) ++ host_speakers h).
    destruct (select_loop _ _) as [[index|e] rest] eqn:Hsel; simpl; [|left; eauto].
    set (w0 := set_stdin rest _).
    destruct (wave.open_read _ _) as [file|e] eqn:Hopen; [|left; eauto].
    pose proof (open_audio_stream_spec h false (Some file) None (Some index) w0) as Hspec.
    destruct (_open_audio_stream _ _ _ _ _ _) as [[[]|e] w1].
    + destruct Hspec as (st & -> & Hc & Hi & Ho & _ & Hout). right.
      exists file, st, (opened st w0). split; [done|].
      split; [by repeat split; try done; destruct w as [[] ? ? ? ? ?]|].
      split; [|done]. intros index' _. simpl. intros [= <-].
      unfold st_device. rewrite Hi. simpl in Hout. congruence.
    + subst w1. left. eauto.
Qed.

Lemma play_ready_stream w w1 file st :
  play_ready w w1 file st →
  audio_stream (self w1) = Some st ∧ pyaudio_obj (self w1) = Some true
  ∧ frames_per_buffer (self w1) = frames_per_buffer (self w)
  ∧ filepath (self w1) = filepath (self w).
Proof. intros (_ & -> & _). done. Qed.

(** Every call of [play] returns: it fails before the loop and leaves no
    event, or it plays every chunk and closes the stream, or it stops at the
    first refused write, which has closed the stream. *)
Lemma play_cases h use_default w :
  (∃ e w1, play h use_default w = Some (Raise e, w1) ∧ trace w1 = trace w)
  ∨ (∃ file st w1 n ds,
       play_ready w w1 file st
       ∧ (play h use_default w
            = Some (Ok tt, closed st (after_writes n (ok_writes ds) w1))
          ∨ ∃ d k, play h use_default w
                 = Some (Raise (IOError (write_error h k)),
                         cleanup_stream st
                           (after_writes n (ok_writes ds ++ [EvPlay d false]) w1)))).
Proof.
  rewrite play_unfold.
  destruct (play_prologue_cases h use_default w)
    as [(e & w1 & -> & Ht)|(file & st & w1 & -> & Hready & _)]; [left; eauto|].
  right.
  destruct (play_ready_stream _ _ _ _ Hready) as (Hst & Hp & _).
  destruct Hready as (Ht & Hself & Hc & Ho & Hi & Hopen & Hfs).
  unfold read_play.
  destruct (readframes_spec (frames_per_buffer (self w1)) file) as [Hfile Hlen].
  destruct (wave.readframes (frames_per_buffer (self w1)) file) as [data file1] eqn:Hread.
  simpl in Hfile, Hlen.
  destruct (play_loop_spec h (S (length (wave.payload (wave.r_file file)))) file1 data w1 st
              Hst Hc Ho) as (r & w' & n & new & ds & Hrun & Hres).
  { intros _. subst file1. simpl. lia. }
  exists file, st, w1, n, ds. split; [by repeat split|].
  rewrite Hrun.
  destruct Hres as [(-> & -> & ->)|(d & k & -> & -> & ->)].
  - left. f_equal. by apply (close_audio_stream_spec _ st true).
  - right. exists d, k. done.
Qed.

Lemma not_in_ok_writes_fail d ds : EvPlay d false ∉ ok_writes ds.
Proof.
  unfold ok_writes. intros (d' & [=] & _)%list_elem_of_fmap.
Qed.

Lemma not_in_ok_writes_close ds : EvClose ∉ ok_writes ds.
Proof.
  unfold ok_writes. intros (d' & [=] & _)%list_elem_of_fmap.
Qed.

(** C5, as the code has it: every call of [play] returns. When it returns
    normally, closing the stream was its last action: the stream is closed
    and the PyAudio instance terminated. When a write to the stream fails,
    the error of that write is what [play] raises, and [play] does nothing
    after it: the failed write is the last event, [_close_audio_stream] is
    not called, and the PyAudio instance is not terminated. *)
Theorem play_closes_stream_only_on_completion h use_default w :
  ∃ r w' new,
    play h use_default w = Some (r, w') ∧ trace w' = trace w ++ new
    ∧ (r = Ok tt →
       ∃ st pre, audio_stream (self w') = Some st ∧ st_closed st = true
                 ∧ pyaudio_obj (self w') = Some false
                 ∧ new = pre ++ [EvClose])
    ∧ (∀ d, EvPlay d false ∈ new →
       (∃ k, r = Raise (IOError (write_error h k)))
       ∧ (∃ pre, new = pre ++ [EvPlay d false])
       ∧ (EvClose ∉ new)
       ∧ pyaudio_obj (self w') = Some true).
Proof.
  destruct (play_cases h use_default w)
    as [(e & w1 & Hplay & Ht)
       |(file & st & w1 & n & ds & Hready & [Hplay|(d & k & Hplay)])].
  - exists (Raise e), w1, []. split; [done|]. split; [by rewrite app_nil_r|].
    split; [done|]. intros d Hd. by apply elem_of_nil in Hd.
  - destruct (play_ready_stream _ _ _ _ Hready) as (Hst & _).
    destruct Hready as (Ht & _).
    eexists _, _, ([EvOpen st] ++ ok_writes ds ++ [EvClose]). split; [exact Hplay|].
    split; [simpl; rewrite Ht; by rewrite <- !app_assoc|].
    split.
    + intros _. exists (closed_stream st), ([EvOpen st] ++ ok_writes ds).
      split; [done|]. split; [done|]. split; [done|]. by rewrite <- app_assoc.
    + intros d Hd. exfalso.
      rewrite !elem_of_app, !list_elem_of_singleton in Hd.
      destruct Hd as [[=]|[Hd|[=]]]. by apply not_in_ok_writes_fail in Hd.
  - destruct (play_ready_stream _ _ _ _ Hready) as (Hst & Hp & _).
    destruct Hready as (Ht & _ & Hc & _).
    eexists _, _, ([EvOpen st] ++ ok_writes ds ++ [EvPlay d false]).
    split; [exact Hplay|].
    split; [simpl; rewrite Ht; by rewrite <- !app_assoc|].
    split; [discriminate|].
    intros d' Hd'. split; [by exists k|].
    assert (d' = d) as ->.
    { rewrite !elem_of_app, !list_elem_of_singleton in Hd'.
      destruct Hd' as [[=]|[Hd'|[= ->]]]; [|done].
      by apply not_in_ok_writes_fail in Hd'. }
    split; [exists ([EvOpen st] ++ ok_writes ds); by rewrite <- app_assoc|].
    split; [|exact Hp].
    rewrite !elem_of_app, !list_elem_of_singleton.
    intros [[=]|[Hd|[=]]]. by apply not_in_ok_writes_close in Hd.
Qed.

(** C5 fails as stated: a three-chunk file played on a host whose second
    write fails. [play] raises the error of that write after two writes and
    does nothing more: it makes no close, and the PyAudio instance it
    created is left live, where a completed playback has terminated it. *)
Lemma play_does_not_close_after_failed_write :
  let h := host3 [] never (λ k, k =? 1) in
  let w := world_with_file small_Audio (chunk "a" 4 ++ chunk "b" 4 ++ chunk "c" 4) in
  ∃ w' st,
    play h true w = Some (Raise (IOError (write_error h 1)), w')
    ∧ trace w' = [EvOpen st; EvPlay (chunk "a" 4) true; EvPlay (chunk "b" 4) false]
    ∧ (EvClose ∉ trace w')
    ∧ pyaudio_obj (self w') = Some true.
Proof.
  cbv zeta.
  set (r := play _ _ _). vm_compute in r. subst r.
  eexists _, _. split; [reflexivity|]. split; [reflexivity|].
  split; [|reflexivity].
  cbn [trace]. rewrite !elem_of_cons. intros [[=]|[[=]|[[=]|Hn]]].
  by apply elem_of_nil in Hn.
Qed.

(** The same file on a host that accepts every write: the close is the
    last event and the instance is terminated. *)
Example play_closes_after_last_write :
  let h := host3 [] never never in
  let w := world_with_file small_Audio (chunk "a" 4 ++ chunk "b" 4 ++ chunk "c" 4) in
  ∃ w' st,
    play h true w = Some (Ok tt, w')
    ∧ trace w' = [EvOpen st; EvPlay (chunk "a" 4) true; EvPlay (chunk "b" 4) true;
                  EvPlay (chunk "c" 4) true; EvClose]
    ∧ pyaudio_obj (self w') = Some false.
Proof.
  cbv zeta.
  set (r := play _ _ _). vm_compute in r. subst r.
  eexists _, _. split; [reflexivity|]. split; reflexivity.
Qed.

End playback.

(** ** The waveform container: writing and reading back *)
Section codec.
Import audio.

Ltac st_unfold :=
  unfold mbind, ST_bind, mret, ST_ret, modify, get, lift, raise in *.

Lemma get_sample_size_range f n :
  get_sample_size f = Ok n → (1 ≤ n ≤ 4)%Z.
Proof.
  unfold get_sample_size. cbv zeta.
  repeat (case_match; [intros [= <-]; lia|]). discriminate.
Qed.

Lemma get_format_from_width_ok n :
  (1 ≤ n ≤ 4)%Z → ∃ f, get_format_from_width n = Ok f.
Proof.
  intros Hn. unfold get_format_from_width.
  repeat (case_match; [eauto|]). lia.
Qed.

Lemma whole_frames_le a width :
  (1 ≤ channels a)%Z → (1 ≤ width)%Z →
  (0 ≤ whole_frames a width ≤ buffer_length a)%Z.
Proof.
  intros Hc Hw. unfold whole_frames.
  assert (Hb : (0 ≤ buffer_length a)%Z) by (unfold buffer_length; lia).
  assert (Hp : (0 < channels a * width)%Z) by nia.
  rewrite <- Z.mul_assoc, Z.mul_comm.
  pose proof (Z.mul_div_le (buffer_length a) _ Hp).
  pose proof (Z.div_pos (buffer_length a) _ Hb Hp). nia.
Qed.

(** The header of a valid configuration can be packed exactly when the
    block size, the byte rate and the length of the whole frames fit. *)
Lemma header_fits_limits a width :
  (1 ≤ channels a)%Z → (1 ≤ width ≤ 4)%Z → (0 < sample_rate a)%Z →
  wave.header_fits (channels a) width (sample_rate a) (whole_frames a width) = true
  ↔ (channels a * width < 2 ^ 16)%Z
    ∧ (channels a * sample_rate a * width < 2 ^ 32)%Z
    ∧ (36 + whole_frames a width < 2 ^ 32)%Z.
Proof.
  intros Hc Hw Hs. pose proof (whole_frames_le a width Hc ltac:(lia)) as Hwf.
  unfold wave.header_fits, wave.fits.
  rewrite !andb_true_iff, !Z.leb_le, !Z.ltb_lt.
  split; [intros; lia|]. intros (H1 & H2 & H3).
  assert ((sample_rate a ≤ channels a * sample_rate a * width)%Z) by nia.
  assert ((channels a ≤ channels a * width)%Z) by nia.
  repeat split; try lia; nia.
Qed.

(** The second attempt at a header that could not be packed, which [close]
    makes, sees the frame count of the first. *)
Lemma nframes_again (n d : Z) : (if (n =? 0)%Z then (0 / d)%Z else n) = n.
Proof. destruct (n =? 0)%Z eqn:Hn; [|done]. rewrite Zdiv_0_l. lia. Qed.

(** [_write_to_file] succeeds on a valid configuration that the header can
    hold, and then leaves the container of the object at its path; when it
    fails the file is left as the failure has it. *)
Lemma write_to_file_spec w :
  match _write_to_file w with
  | (Ok _, w') =>
      ∃ width, get_sample_size (format (self w)) = Ok width
        ∧ (1 ≤ channels (self w))%Z ∧ (0 < sample_rate (self w))%Z
        ∧ w' = serialized width w
        ∧ container_limits (self w) width
  | (Raise e, w') =>
      ∃ f, w' = unfinished f w ∧ write_failure (self w) e f
  end.
Proof.
  unfold _write_to_file, wave.call, wave.setnchannels, wave.setsampwidth,
    wave.setframerate, wave.writeframes, wave.writeframesraw, wave.close,
    wave.ensure_header, wave.patchheader.
  st_unfold. cbn.
  destruct (channels (self w) <? 1)%Z eqn:Hch; cbn.
  { eexists. split; [reflexivity|].
    assert (Hbad : ¬ valid_config (self w)) by (intros (_ & ? & _); lia).
    pose proof (refused_config _ Hbad) as Hf. by rewrite Hch in Hf. }
  assert (Hc0 : (channels (self w) =? 0)%Z = false) by lia.
  destruct (get_sample_size (format (self w))) as [width|e] eqn:Hw; cbn.
  2:{ rewrite Hc0. eexists. split; [reflexivity|].
      assert (Hbad : ¬ valid_config (self w)) by (intros (Hok & _); by rewrite Hw in Hok).
      pose proof (refused_config _ Hbad) as Hf. by rewrite Hch, Hw in Hf. }
  pose proof (get_sample_size_range _ _ Hw) as Hr.
  assert (Hw0 : (width =? 0)%Z = false) by lia.
  destruct (width <? 1)%Z eqn:H1; [lia|]. destruct (4 <? width)%Z eqn:H4; [lia|]. cbn.
  destruct (sample_rate (self w) <=? 0)%Z eqn:Hsr; cbn; rewrite ?Hc0, ?Hw0; cbn.
  { eexists. split; [reflexivity|].
    assert (Hbad : ¬ valid_config (self w)) by (intros (_ & _ & ?); lia).
    pose proof (refused_config _ Hbad) as Hf. by rewrite Hch, Hw in Hf. }
  assert (Hs0 : (sample_rate (self w) =? 0)%Z = false) by lia.
  rewrite ?Hs0; cbn.
  assert (Hvalid : valid_config (self w)).
  { split; [by rewrite Hw|]. lia. }
  pose proof (whole_frames_le (self w) width ltac:(lia) ltac:(lia)) as Hwf.
  unfold wave.write_header. cbn.
  change (Z.of_nat (length (join (recorded_frames (self w)))))
    with (buffer_length (self w)).
  change (buffer_length (self w) / (channels (self w) * width) * channels (self w) * width)%Z
    with (whole_frames (self w) width).
  destruct (wave.header_fits (channels (self w)) width (sample_rate (self w))
              (whole_frames (self w) width)) eqn:Hfits; cbn.
  - pose proof Hfits as Hl.
    apply (header_fits_limits (self w) width ltac:(lia) Hr ltac:(lia)) in Hl.
    fold (buffer_length (self w)).
    destruct (buffer_length (self w) =? whole_frames (self w) width)%Z eqn:Heq; cbn;
      fold (buffer_length (self w)).
    + rewrite Heq. cbn. exists width.
      do 3 (split; [done || lia|]). split.
      * unfold serialized, unfinished, wav_of. do 3 f_equal.
        apply take_ge. unfold buffer_length in *. lia.
      * unfold container_limits. lia.
    + destruct (wave.fits 32 (36 + buffer_length (self w))) eqn:Hfit; cbn;
        fold (buffer_length (self w)).
      * rewrite Z.eqb_refl. cbn. exists width.
        do 3 (split; [done || lia|]). split.
        -- unfold serialized, unfinished, wav_of. do 3 f_equal.
           apply take_ge. unfold buffer_length. lia.
        -- unfold container_limits. unfold wave.fits in Hfit. lia.
      * rewrite Heq, Hfit. cbn. eexists. split; [reflexivity|].
        apply (length_out_of_range _ width); try done. lia.
  - rewrite Hc0, Hw0, Hs0. cbn. rewrite !nframes_again.
    change (buffer_length (self w) / (channels (self w) * width)
            * channels (self w) * width)%Z
      with (whole_frames (self w) width).
    rewrite Hfits. cbn. eexists. split; [reflexivity|].
    by apply (header_out_of_range _ width).
Qed.

Lemma write_to_file_ok w width :
  get_sample_size (format (self w)) = Ok width →
  (1 ≤ channels (self w))%Z → (0 < sample_rate (self w))%Z →
  container_limits (self w) width →
  _write_to_file w = (Ok tt, serialized width w).
Proof.
  intros Hw Hc Hs (Hl1 & Hl2 & Hl3). pose proof (write_to_file_spec w) as Hspec.
  pose proof (get_sample_size_range _ _ Hw) as Hr.
  pose proof (whole_frames_le (self w) width Hc ltac:(lia)) as Hwf.
  destruct (_write_to_file w) as [[[]|e] w'].
  - destruct Hspec as (width' & Hw' & _ & _ & -> & _). congruence.
  - exfalso. destruct Hspec as (f & _ & Hf).
    destruct Hf as [Hbad|width' _ Hw' Hfits|width' _ Hw' _ _ Hfit].
    + apply Hbad. split; [by rewrite Hw|]. lia.
    + assert (width' = width) as -> by congruence.
      apply not_true_iff_false in Hfits. apply Hfits.
      apply header_fits_limits; lia.
    + unfold wave.fits in Hfit. unfold buffer_length in *. lia.
Qed.

Lemma serialized_lookup width w :
  fs (serialized width w) !! filepath (self w)
  = Some (wave.WavFile (wav_of (self w) width)).
Proof. unfold serialized, set_file; simpl. apply lookup_insert_eq. Qed.

Lemma readframes_uniform n r c cs :
  (0 < n * wave.framesize r)%Z →
  length c = Z.to_nat (n * wave.framesize r) →
  drop (wave.r_pos r) (wave.payload (wave.r_file r)) = c ++ cs →
  wave.readframes n r
  = (c, {| wave.r_file := wave.r_file r; wave.r_pos := wave.r_pos r + length c |}).
Proof.
  intros Hpos Hlen Hdrop. unfold wave.readframes.
  destruct (n =? 0)%Z eqn:Hn; [lia|].
  destruct (n * wave.framesize r <? 0)%Z eqn:Hs; [lia|].
  rewrite Hdrop, <- Hlen, take_app_length. reflexivity.
Qed.

Lemma readframes_end n r :
  drop (wave.r_pos r) (wave.payload (wave.r_file r)) = [] →
  (wave.readframes n r).1 = [].
Proof.
  intros Hdrop. unfold wave.readframes. rewrite Hdrop.
  destruct (n =? 0)%Z; [done|]. simpl. destruct (_ <? 0)%Z; [done|]. by rewrite take_nil.
Qed.

(** Reading a payload made of full chunks hands exactly those chunks to
    the output stream. *)
Lemma read_play_uniform h st sz : ∀ cs fuel file w,
  audio_stream (self w) = Some st → st_closed st = false → st_output st = true →
  (∀ k, speaker_ok h k = true) →
  (0 < frames_per_buffer (self w) * wave.framesize file)%Z →
  sz = Z.to_nat (frames_per_buffer (self w) * wave.framesize file) →
  Forall (λ c, length c = sz) cs →
  drop (wave.r_pos file) (wave.payload (wave.r_file file)) = concat cs →
  length cs ≤ fuel →
  read_play h fuel file w = Some (Ok tt, after_writes (length cs) (ok_writes cs) w).
Proof.
  induction cs as [|c cs IH]; intros fuel file w Hst Hcl Hout Hspk Hpos Hsz Hall Hdrop Hfuel.
  - unfold read_play. pose proof (readframes_end (frames_per_buffer (self w)) file Hdrop) as He.
    destruct (wave.readframes _ _) as [data file1]. simpl in He. subst data.
    rewrite after_writes_0. by destruct fuel.
  - apply Forall_cons in Hall as [Hc Hall]. simpl in Hdrop.
    unfold read_play.
    rewrite (readframes_uniform _ _ c (concat cs)); [|lia|congruence|done].
    destruct fuel as [|fuel]; [simpl in Hfuel; lia|].
    destruct c as [|b c]; [simpl in Hc; lia|].
    cbn [play_loop]. rewrite (stream_write_open _ _ _ st Hst Hcl Hout), Hspk.
    set (file1 := {| wave.r_file := _; wave.r_pos := _ |}).
    set (w1 := emit _ _).
    specialize (IH fuel file1 w1 Hst Hcl Hout Hspk Hpos Hsz Hall).
    change (read_play h fuel file1 w1
            = Some (Ok tt, after_writes (length ((b :: c) :: cs))
                             (ok_writes ((b :: c) :: cs)) w)).
    rewrite IH.
    + f_equal. f_equal. unfold after_writes; simpl. f_equal; [lia|by rewrite <- app_assoc].
    + subst file1. cbn [wave.r_pos wave.r_file].
      rewrite <- drop_drop, Hdrop. apply drop_app_length.
    + simpl in Hfuel. lia.
Qed.

Lemma length_concat_ge (cs : list bytes) :
  Forall (λ c, 0 < length c) cs → length cs ≤ length (concat cs).
Proof.
  induction 1 as [|c cs Hc _ IH]; simpl; [lia|]. rewrite length_app. lia.
Qed.

Lemma played_ok_writes cs : played (ok_writes cs) = cs.
Proof. induction cs as [|c cs IH]; simpl; [done|]. by rewrite IH. Qed.

Lemma play_prologue_default h w f fmt i o :
  fs w !! filepath (self w) = Some (wave.WavFile f) →
  wave.nchannels f ≠ 0%Z → wave.sampwidth f ≠ 0%Z →
  get_format_from_width (wave.sampwidth f) = Ok fmt →
  default_input h = Some i → default_output h = Some o →
  (∀ s, grants h s = true) →
  ∃ st, play_prologue h true w = (Ok {| wave.r_file := f; wave.r_pos := 0 |}, opened st w)
    ∧ st_closed st = false ∧ st_output st = true.
Proof.
  intros Hfile Hn Hs Hfmt Hi Ho Hg.
  unfold play_prologue, _open_audio_stream, pa_open, get_default_input_device_index,
    get_default_output_device_index, wave.open_read, wave.getsampwidth.
  st_unfold. rewrite Hfile.
  destruct (wave.nchannels f =? 0)%Z eqn:E1; [lia|].
  destruct (wave.sampwidth f =? 0)%Z eqn:E2; [lia|].
  cbn. rewrite Hi, Ho, Hfmt, Hg. eexists. split; [reflexivity|]. done.
Qed.

(** C3, as the code has it: a frame buffer of chunks of [frames_per_buffer]
    frames each, written by [_write_to_file] under a valid configuration
    whose block size, byte rate and length the RIFF header can hold, and
    read back by [play] in [frames_per_buffer]-frame reads, comes back as
    the same chunks: as many of them, and with the same concatenation. *)
Theorem wave_roundtrip h w width :
  (0 < frames_per_buffer (self w))%Z →
  get_sample_size (format (self w)) = Ok width →
  (1 ≤ channels (self w))%Z → (0 < sample_rate (self w))%Z →
  container_limits (self w) width →
  Forall (λ c, Z.of_nat (length c)
               = (frames_per_buffer (self w) * (channels (self w) * width))%Z)
    (recorded_frames (self w)) →
  is_Some (default_input h) → is_Some (default_output h) →
  (∀ s, grants h s = true) → (∀ k, speaker_ok h k = true) →
  ∃ w1 w2 new,
    _write_to_file w = (Ok tt, w1)
    ∧ play h true w1 = Some (Ok tt, w2)
    ∧ trace w2 = trace w1 ++ new
    ∧ played new = recorded_frames (self w)
    ∧ length (played new) = length (recorded_frames (self w))
    ∧ join (played new) = join (recorded_frames (self w)).
Proof.
  intros Hfpb Hw Hch Hsr Hlim Hall [i Hi] [o Ho] Hg Hspk.
  pose proof (get_sample_size_range _ _ Hw) as Hr.
  destruct (get_format_from_width_ok width Hr) as [fmt Hfmt].
  set (cs := recorded_frames (self w)) in *.
  set (w1 := serialized width w).
  destruct (play_prologue_default h w1 (wav_of (self w) width) fmt i o)
    as (st & Hpro & Hcl & Hout);
    [exact (serialized_lookup width w)|simpl; lia|simpl; lia|exact Hfmt|exact Hi|exact Ho
    |exact Hg|].
  set (file := {| wave.r_file := _; wave.r_pos := 0 |}) in Hpro.
  assert (Hsize : (0 < frames_per_buffer (self w) * (channels (self w) * width))%Z) by lia.
  assert (Hrun : read_play h (S (length (wave.payload (wave.r_file file)))) file (opened st w1)
                 = Some (Ok tt, after_writes (length cs) (ok_writes cs) (opened st w1))).
  { apply (read_play_uniform h st
             (Z.to_nat (frames_per_buffer (self w) * (channels (self w) * width))));
      try done.
    - eapply Forall_impl; [exact Hall|]. intros c Hc. cbv beta in Hc.
      rewrite <- Hc. by rewrite Nat2Z.id.
    - simpl. etrans; [apply length_concat_ge|]; [|unfold join; subst cs; lia].
      eapply Forall_impl; [exact Hall|]. intros c Hc. cbv beta in Hc.
      apply Nat2Z.inj_lt. rewrite Hc. exact Hsize. }
  exists w1, (closed st (after_writes (length cs) (ok_writes cs) (opened st w1))),
    ([EvOpen st] ++ ok_writes cs ++ [EvClose]).
  split; [by apply write_to_file_ok|].
  split.
  { rewrite play_unfold, Hpro, Hrun. reflexivity. }
  split; [simpl; by rewrite <- !app_assoc|].
  assert (Hplayed : played ([EvOpen st] ++ ok_writes cs ++ [EvClose]) = cs).
  { unfold played. rewrite !omap_app. simpl. rewrite app_nil_r. apply played_ok_writes. }
  rewrite Hplayed. done.
Qed.

(** An instance: two four-byte chunks of the two-frame object. *)
Lemma wave_roundtrip_witness :
  let h := host3 [] never never in
  let w := fresh_world
             (set_recorded_frames [chunk "a" 4; chunk "b" 4] small_Audio) [] in
  ∃ w1 w2 new,
    _write_to_file w = (Ok tt, w1)
    ∧ play h true w1 = Some (Ok tt, w2)
    ∧ trace w2 = trace w1 ++ new
    ∧ played new = [chunk "a" 4; chunk "b" 4]
    ∧ length (played new) = 2
    ∧ join (played new) = chunk "a" 4 ++ chunk "b" 4.
Proof.
  cbv zeta.
  apply (wave_roundtrip (host3 [] never never)
           (fresh_world (set_recorded_frames [chunk "a" 4; chunk "b" 4] small_Audio) [])
           2%Z).
  - reflexivity.
  - reflexivity.
  - simpl; lia.
  - reflexivity.
  - unfold container_limits, buffer_length. simpl. lia.
  - repeat constructor.
  - by eexists.
  - by eexists.
  - reflexivity.
  - reflexivity.
Defined.

(** C3 fails as stated: the same two chunks under a sample rate of 2^32,
    which the object accepts and the 32-bit field of the header cannot
    hold. [_write_to_file] raises [struct.error], the file at the path
    holds two ['RIFF'] ids and no container, and [play] cannot open it:
    no chunk comes back. *)
Lemma wave_roundtrip_beyond_header_range :
  let h := host3 [] never never in
  let a := set_recorded_frames [chunk "a" 4; chunk "b" 4]
             (__init__ "/app/recording.wav" 4294967296 1 paInt16 2) in
  let w := fresh_world a [] in
  ∃ w1 w2,
    (0 < frames_per_buffer a)%Z ∧ valid_config a
    ∧ Forall (λ c, Z.of_nat (length c) = (frames_per_buffer a * (channels a * 2))%Z)
        (recorded_frames a)
    ∧ _write_to_file w = (Raise StructError, w1)
    ∧ fs w1 !! "/app/recording.wav" = Some (wave.TextFile "RIFFRIFF")
    ∧ play h true w1 = Some (Raise (WaveError "not a WAVE file"), w2)
    ∧ played (trace w2) = [].
Proof.
  cbv zeta. eexists _, _.
  split; [reflexivity|].
  split; [split; [exact I|split; [simpl; lia|reflexivity]]|].
  split; [repeat constructor|].
  split; [vm_compute; reflexivity|].
  split; [vm_compute; reflexivity|].
  split; [vm_compute; reflexivity|].
  vm_compute; reflexivity.
Qed.

End codec.

(** ** Transcription front end: the PCM16-mono check *)
Section transcription.
Import converter.

Ltac st_unfold :=
  unfold mbind, ST_bind, mret, ST_ret, modify, get, lift, raise in *.

Lemma pcm16_mono_true file :
  pcm16_mono file = true
  ↔ wave.getnchannels file = 1%Z ∧ wave.getsampwidth file = 2%Z
    ∧ wave.getcomptype file = "NONE".
Proof.
  unfold pcm16_mono. rewrite !andb_true_iff, !Z.eqb_eq, String.eqb_eq. tauto.
Qed.

Lemma pcm16_mono_false file :
  pcm16_mono file = false
  ↔ wave.getnchannels file ≠ 1%Z ∨ wave.getsampwidth file ≠ 2%Z
    ∨ wave.getcomptype file ≠ "NONE".
Proof.
  rewrite <- not_true_iff_false, pcm16_mono_true.
  destruct (decide (wave.getnchannels file = 1%Z)),
    (decide (wave.getsampwidth file = 2%Z)),
    (decide (wave.getcomptype file = "NONE")); tauto.
Qed.

Lemma check_audio_file_spec w path file :
  input_path (self w) = Some path →
  wave.open_read path (fs w !! path) = Ok file →
  _check_audio_file w
  = (if pcm16_mono file then Ok tt else Raise FormatError, emit (EvHeader path) w).
Proof.
  intros Hpath Hopen. unfold _check_audio_file, open_input, pcm16_mono. st_unfold.
  rewrite Hpath, Hopen. simpl. rewrite Hpath. simpl.
  destruct (_ =? 1)%Z, (_ =? 2)%Z; reflexivity.
Qed.

Lemma process_paths_spec dir w :
  ∃ c, _process_paths dir w = (Ok tt, {| self := c; fs := fs w; trace := trace w |}).
Proof. unfold _process_paths, modify, with_self. eauto. Qed.

(** The loop of [_read_audio_file] ends within its fuel. *)
Lemma read_loop_returns V fuel : ∀ file recognizer results w,
  wave.framesize file ≠ 0%Z →
  length (wave.payload (wave.r_file file)) - wave.r_pos file < fuel →
  is_Some (read_loop V fuel file recognizer results w).
Proof.
  induction fuel as [|fuel IH]; intros file recognizer results w Hsize Hfuel; [lia|].
  cbn [read_loop].
  pose proof (readframes_spec 4000 file) as [Hfile Hlen].
  destruct (wave.readframes 4000 file) as [data file'] eqn:Hread. simpl in Hfile, Hlen.
  destruct data as [|b data]; [by eexists|].
  cbn [length Nat.eqb].
  assert (Hnext : ∀ r rs w', is_Some (read_loop V fuel file' r rs w')).
  { intros. apply IH; subst file'; simpl in *; [exact Hsize|lia]. }
  destruct (AcceptWaveform V _ _) as [[] ?]; [destruct (Result V _)|]; apply Hnext.
Qed.

(** [audio_to_text] always returns. *)
Lemma audio_to_text_returns V dir w : is_Some (audio_to_text V dir w).
Proof.
  unfold audio_to_text.
  destruct ((_process_paths dir;; _check_audio_file) w) as [[[]|e] w1]; [|by eexists].
  unfold _read_audio_file.
  destruct (speech_to_text_model_path (self w1)) as [model_path|]; [|by eexists].
  destruct (negb _); [by eexists|].
  destruct (open_input _) as [[file|e] w2] eqn:Hopen; [|by eexists].
  assert (Hfile : wave.r_pos file = 0 ∧ wave.framesize file ≠ 0%Z).
  { unfold open_input, wave.open_read in Hopen. st_unfold. simpl in Hopen.
    destruct (input_path (self w1)) as [path|]; [|discriminate].
    destruct (fs w1 !! path) as [[f|format_tag|text|]|]; try discriminate.
    2:{ simpl in Hopen. repeat case_match; discriminate. }
    destruct (wave.nchannels f =? 0)%Z eqn:E1; [discriminate|].
    destruct (wave.sampwidth f =? 0)%Z eqn:E2; [discriminate|].
    injection Hopen as <- _. unfold wave.framesize, wave.getnchannels, wave.getsampwidth.
    simpl. split; [done|]. lia. }
  destruct Hfile as [Hpos Hsize].
  destruct (read_loop_returns V (S (length (wave.payload (wave.r_file file)))) file
              (KaldiRecognizer V model_path (wave.getframerate file)) [] w2 Hsize)
    as [[[results r1] w3] ->]; [lia|].
  destruct (FinalResult V r1). by eexists.
Qed.

(** When [wave.open] refuses the file, its error is the error of
    [_check_audio_file], and no header is read. *)
Lemma check_audio_file_unopened w path e :
  input_path (self w) = Some path →
  wave.open_read path (fs w !! path) = Raise e →
  _check_audio_file w = (Raise e, w).
Proof.
  intros Hpath Hopen. unfold _check_audio_file, open_input. st_unfold.
  by rewrite Hpath, Hopen.
Qed.

Lemma open_read_error path content e :
  wave.open_read path content = Raise e → e ≠ FormatError.
Proof.
  unfold wave.open_read, FormatError. intros Hopen ->.
  repeat case_match; discriminate.
Qed.

(** C4, as the code has it: [_check_audio_file] raises the format error iff
    the file opens as a wave file and its header has channels other than 1
    or a sample width other than 2 bytes. Every file [wave.open] opens has
    the compression type "NONE", and the canonical header is accepted. A
    file of another compression is refused by [wave.open] itself, with
    [wave.Error], not the format error. When the header is rejected,
    [audio_to_text] raises the format error with the header read and nothing
    else done: no frame read or recognized, no model loaded, no file
    written. *)
Theorem pcm16_mono_validation V dir w path :
  input_path (self w) = Some path →
  ((_check_audio_file w).1 = Raise FormatError
   ↔ ∃ file, wave.open_read path (fs w !! path) = Ok file
       ∧ (wave.getnchannels file ≠ 1%Z ∨ wave.getsampwidth file ≠ 2%Z))
  ∧ (∀ file, wave.open_read path (fs w !! path) = Ok file →
       wave.getcomptype file = "NONE"
       ∧ (wave.getnchannels file = 1%Z → wave.getsampwidth file = 2%Z →
          (_check_audio_file w).1 = Ok tt))
  ∧ (∀ format_tag, fs w !! path = Some (wave.NonPcmFile format_tag) →
       (_check_audio_file w).1
       = Raise (WaveError ("unknown format: " +:+ pretty format_tag)))
  ∧ (∀ w0 file, _process_paths dir w0 = (Ok tt, w) →
     wave.open_read path (fs w !! path) = Ok file →
     wave.getnchannels file ≠ 1%Z ∨ wave.getsampwidth file ≠ 2%Z →
     ∃ w', audio_to_text V dir w0 = Some (Raise FormatError, w')
       ∧ trace w' = trace w0 ++ [EvHeader path]
       ∧ filter frame_event (trace w') = filter frame_event (trace w0)
       ∧ fs w' = fs w0).
Proof.
  intros Hpath.
  assert (Hbad : ∀ file, wave.getnchannels file ≠ 1%Z ∨ wave.getsampwidth file ≠ 2%Z
                         ↔ pcm16_mono file = false).
  { intros file. rewrite pcm16_mono_false. unfold wave.getcomptype. tauto. }
  split; [|split; [|split]].
  - destruct (wave.open_read path (fs w !! path)) as [file|e] eqn:Hopen.
    + rewrite (check_audio_file_spec w path file Hpath Hopen). simpl. split.
      * intros Hr. exists file. split; [done|]. apply Hbad.
        by destruct (pcm16_mono file).
      * intros (file' & [= <-] & Hf). apply Hbad in Hf. by rewrite Hf.
    + rewrite (check_audio_file_unopened w path e Hpath Hopen). simpl. split.
      * intros [= ->]. by apply open_read_error in Hopen.
      * by intros (file' & [=] & _).
  - intros file Hopen. split; [done|]. intros H1 H2.
    rewrite (check_audio_file_spec w path file Hpath Hopen). simpl.
    by rewrite (proj2 (pcm16_mono_true file) (conj H1 (conj H2 eq_refl))).
  - intros format_tag Hfile.
    rewrite (check_audio_file_unopened w path
               (WaveError ("unknown format: " +:+ pretty format_tag)) Hpath);
      [done|]. by rewrite Hfile.
  - intros w0 file Hproc Hopen Hf. apply Hbad in Hf.
    destruct (process_paths_spec dir w0) as [c Hc].
    rewrite Hproc in Hc. injection Hc as ->.
    exists (emit (EvHeader path) {| self := c; fs := fs w0; trace := trace w0 |}).
    split.
    + unfold audio_to_text. unfold mbind at 1, ST_bind.
      rewrite Hproc, (check_audio_file_spec _ path file Hpath Hopen), Hf. reflexivity.
    + simpl. split; [done|]. split; [|done]. by rewrite filter_app, app_nil_r.
Qed.

(** An instance: a stereo recording at the default path. *)
Lemma pcm16_mono_validation_witness :
  let stereo :=
    {| wave.nchannels := 2; wave.sampwidth := 2; wave.framerate := 16000;
       wave.payload := chunk "a" 8 |} in
  let w0 := converter_world "/app/recording.wav" (wave.WavFile stereo) in
  let w := (_process_paths "/app" w0).2 in
  let path := "/app/recording.wav" in
  ((_check_audio_file w).1 = Raise FormatError
   ↔ ∃ file, wave.open_read path (fs w !! path) = Ok file
       ∧ (wave.getnchannels file ≠ 1%Z ∨ wave.getsampwidth file ≠ 2%Z))
  ∧ (∀ file, wave.open_read path (fs w !! path) = Ok file →
       wave.getcomptype file = "NONE"
       ∧ (wave.getnchannels file = 1%Z → wave.getsampwidth file = 2%Z →
          (_check_audio_file w).1 = Ok tt))
  ∧ (∀ format_tag, fs w !! path = Some (wave.NonPcmFile format_tag) →
       (_check_audio_file w).1
       = Raise (WaveError ("unknown format: " +:+ pretty format_tag)))
  ∧ (∀ w0 file, _process_paths "/app" w0 = (Ok tt, w) →
     wave.open_read path (fs w !! path) = Ok file →
     wave.getnchannels file ≠ 1%Z ∨ wave.getsampwidth file ≠ 2%Z →
     ∃ w', audio_to_text silent_vosk "/app" w0 = Some (Raise FormatError, w')
       ∧ trace w' = trace w0 ++ [EvHeader path]
       ∧ filter frame_event (trace w') = filter frame_event (trace w0)
       ∧ fs w' = fs w0).
Proof.
  cbv zeta.
  apply (pcm16_mono_validation silent_vosk "/app"
           (_process_paths "/app"
              (converter_world "/app/recording.wav"
                 (wave.WavFile
                    {| wave.nchannels := 2; wave.sampwidth := 2; wave.framerate := 16000;
                       wave.payload := chunk "a" 8 |}))).2
           "/app/recording.wav").
  reflexivity.
Defined.

(** C4 fails as stated: a file whose compression is A-law (format tag 6)
    at the default path. The compression type is other than uncompressed,
    and the error is not the format error: [wave.open] raises
    [wave.Error], which [_check_audio_file] and [audio_to_text] pass on,
    with no header read. *)
Lemma check_audio_file_compressed_input :
  let w0 := converter_world "/app/recording.wav" (wave.NonPcmFile 6) in
  let w := (_process_paths "/app" w0).2 in
  (_check_audio_file w).1 = Raise (WaveError "unknown format: 6")
  ∧ (_check_audio_file w).1 ≠ Raise FormatError
  ∧ ∃ w', audio_to_text silent_vosk "/app" w0
          = Some (Raise (WaveError "unknown format: 6"), w')
        ∧ trace w' = [].
Proof.
  cbv zeta.
  assert (Hcheck : (_check_audio_file
                      (_process_paths "/app"
                         (converter_world "/app/recording.wav" (wave.NonPcmFile 6))).2).1
                   = Raise (WaveError "unknown format: 6")) by (vm_compute; reflexivity).
  split; [exact Hcheck|]. split; [rewrite Hcheck; discriminate|].
  eexists. split; vm_compute; reflexivity.
Qed.

End transcription.

(** ** Recording sessions: the invariant *)
Section session.
Import audio.

Ltac st_unfold :=
  unfold mbind, ST_bind, mret, ST_ret, modify, get, lift, raise in *.

Lemma phase_of_snoc t e : phase_of (t ++ [e]) = next_phase (phase_of t) e.
Proof. unfold phase_of. by rewrite fold_left_app. Qed.

Lemma captured_snoc t e :
  captured (t ++ [e])
  = captured t ++ match e with EvRead d _ => [d] | _ => [] end.
Proof. unfold captured. rewrite omap_app. by destruct e. Qed.

Lemma appended_snoc t e :
  appended (t ++ [e])
  = appended t ++ match e with EvAppend d => [d] | _ => [] end.
Proof. unfold appended. rewrite omap_app. by destruct e. Qed.

Lemma session_inv_start use_default w0 :
  session_inv w0 (start_record use_default w0) [].
Proof.
  unfold session_inv, coord_inv, same_config, raised, idle; simpl.
  rewrite !app_nil_r. repeat split; auto.
Qed.

Lemma stream_read_open h n w :
  capture_open (self w) →
  stream_read h n false w
  = (Ok (hw_data (mic h (hw_reads w) n)),
     emit (EvRead (hw_data (mic h (hw_reads w) n)) (hw_overflowed (mic h (hw_reads w) n)))
       (count_read w)).
Proof.
  intros (st & Hst & Hcl & Hin & _). unfold stream_read.
  rewrite Hst, Hcl, Hin. simpl. by rewrite andb_false_r.
Qed.

Ltac inv_split :=
  unfold session_inv; cbn [world coord worker self trace emit with_self set_stdin
    count_read set_file];
  repeat match goal with |- _ ∧ _ => split end.

(** A turn of the capture thread keeps the invariant. *)
Lemma worker_step_inv h w0 s s' new :
  session_inv w0 s new → worker_step h s = Some s' →
  ∃ new', session_inv w0 s' new'.
Proof.
  intros (Ht & Hcfg & Hfr & Hcap & Hnr & Hco & Hidle) Hstep.
  unfold worker_step in Hstep.
  destruct s as [w c p]. cbn [world coord worker] in *.
  destruct p as [| | |d| |e]; try discriminate.
  - (* while self.recording *)
    injection Hstep as <-. exists new. inv_split; try done.
    + by destruct (recording (self w)).
    + by destruct (recording (self w)).
    + unfold coord_inv in *. cbn [world coord worker] in *.
      destruct c; try (destruct Hco as [Hw ?]; try discriminate Hw);
        destruct (recording (self w)); unfold started in *; intuition (try done).
    + intros H0. destruct (Hidle H0) as (Hr & _ & Hc). rewrite Hr. done.
  - (* data = self.audio_stream.read(...) *)
    assert (Hopen : capture_open (self w)).
    { unfold coord_inv in Hco. cbn [world coord worker] in Hco.
      destruct c; try (destruct Hco as [Hw ?]; try discriminate Hw); try tauto.
      destruct Hco as [[_ [Hw|?]]|[Hw _]]; [discriminate Hw|done|discriminate Hw]. }
    rewrite (stream_read_open h _ w Hopen) in Hstep. injection Hstep as <-.
    set (r := mic h (hw_reads w) _).
    exists (new ++ [EvRead (hw_data r) (hw_overflowed r)]). inv_split.
    + by rewrite Ht, app_assoc.
    + done.
    + by rewrite appended_snoc, app_nil_r.
    + rewrite captured_snoc, appended_snoc, Hcap. simpl. by rewrite !app_nil_r.
    + done.
    + unfold coord_inv in *. cbn [world coord worker self emit count_read] in *.
      rewrite phase_of_snoc.
      destruct c; try (destruct Hco as [Hw ?]; try discriminate Hw).
      * destruct H as [? ->]. done.
      * destruct H as [? ->]. done.
      * destruct H as [? [? ->]]. done.
      * destruct Hco as [[-> [Hw|?]]|[Hw _]];
          [discriminate Hw|left; split; [done|by right]|discriminate Hw].
    + intros H0. by destruct (Hidle H0) as (_ & [] & _).
  - (* self.recorded_frames.append(data) *)
    injection Hstep as <-. exists (new ++ [EvAppend d]). inv_split.
    + by rewrite Ht, app_assoc.
    + done.
    + cbn. by rewrite Hfr, appended_snoc, app_assoc.
    + rewrite captured_snoc, appended_snoc, Hcap. simpl. by rewrite !app_nil_r.
    + done.
    + unfold coord_inv in *.
      cbn [world coord worker self emit with_self set_recorded_frames recording
        audio_stream pyaudio_obj filepath] in *.
      rewrite phase_of_snoc.
      destruct c; try (destruct Hco as [Hw ?]; try discriminate Hw).
      * destruct H as [? ->]. done.
      * destruct H as [? ->]. done.
      * destruct H as [? [? ->]]. done.
      * destruct Hco as [[-> [Hw|?]]|[Hw _]];
          [discriminate Hw|left; split; [done|by right]|discriminate Hw].
    + intros H0. by destruct (Hidle H0) as (_ & [] & _).
Qed.

Lemma input_spec w :
  ∃ r rest, input w = (r, set_stdin rest w)
            ∧ (stdin w = [] → r = Raise EOFError)
            ∧ (stdin w ≠ [] → is_ok r = true).
Proof.
  unfold input. destruct w as [a f [|l rest] hr hw t]; simpl.
  - exists (Raise EOFError), []. done.
  - exists (Ok l), rest. done.
Qed.

(** A turn of the coordinating thread keeps the invariant. *)
Lemma coord_step_inv h w0 s s' new :
  session_inv w0 s new → coord_step h s = Some s' →
  ∃ new', session_inv w0 s' new'.
Proof.
  intros (Ht & Hcfg & Hfr & Hcap & Hnr & Hco & Hidle) Hstep.
  unfold coord_step, coord_run in Hstep.
  destruct s as [w c p]. cbn [world coord worker] in *.
  unfold coord_inv in Hco. cbn [world coord worker] in Hco.
  destruct c as [use_default|device_index| | | | | | | | |e]; try discriminate.
  - (* device selection *)
    destruct Hco as [-> Hph].
    destruct use_default.
    + injection Hstep as <-. exists new. inv_split; try done.
    + st_unfold. rewrite select_device_spec in Hstep. cbv zeta in Hstep.
      destruct (select_loop _ _) as [[index|e] rest]; simpl in Hstep;
        injection Hstep as <-; exists new; inv_split; try done.
      unfold coord_inv; simpl. left. split; [done|by left].
  - (* self._open_audio_stream() *)
    destruct Hco as [-> Hph].
    pose proof (open_audio_stream_spec h true None None None w) as Hspec.
    destruct (_open_audio_stream _ _ _ _ _ _) as [[[]|e] w1]; injection Hstep as <-.
    + destruct Hspec as (st & -> & Hcl & Hin & _).
      exists (new ++ [EvOpen st]). unfold opened. inv_split; try done.
      * by rewrite Ht, app_assoc.
      * by rewrite appended_snoc, app_nil_r.
      * rewrite captured_snoc, appended_snoc, Hcap. by rewrite !app_nil_r.
      * unfold coord_inv; simpl. split; [done|]. split.
        { exists st. simpl. by eauto. }
        by rewrite phase_of_snoc, Hph.
      * intros H0. destruct (Hidle H0) as (? & ? & ?).
        rewrite captured_snoc, app_nil_r. done.
    + subst w1. exists new. inv_split; try done.
      unfold coord_inv; simpl. left. split; [done|by left].
  - (* input('Press <ENTER> to start recording...') *)
    destruct Hco as (-> & Hopen & Hph).
    destruct (input_spec w) as (r & rest & Hin & _). rewrite Hin in Hstep. exists new.
    destruct r as [l|e]; injection Hstep as <-; inv_split; try done.
    unfold coord_inv; simpl. left. split; [done|by left].
  - (* thread.start() *)
    destruct Hco as (-> & Hopen & Hph). injection Hstep as <-.
    exists (new ++ [EvSpawn]). inv_split; try done.
    + by rewrite Ht, app_assoc.
    + by rewrite appended_snoc, app_nil_r.
    + rewrite captured_snoc, appended_snoc, Hcap. by rewrite !app_nil_r.
    + unfold coord_inv; simpl. split; [done|]. split; [done|].
      by rewrite phase_of_snoc, Hph.
    + intros H0. destruct (Hidle H0) as (? & ? & ?).
      rewrite captured_snoc, app_nil_r. done.
  - (* input('Press <ENTER> to stop the recording') *)
    destruct Hco as (Hstarted & Hopen & Hph).
    destruct (input_spec w) as (r & rest & Hin & _). rewrite Hin in Hstep. exists new.
    destruct r as [l|e]; injection Hstep as <-; inv_split; try done.
    unfold coord_inv; simpl. left. split; [done|by right].
  - (* self.recording = False *)
    destruct Hco as (Hstarted & Hopen & Hph). st_unfold. injection Hstep as <-.
    exists (new ++ [EvStop]). inv_split; try done.
    + by rewrite Ht, app_assoc.
    + cbn. by rewrite appended_snoc, app_nil_r.
    + rewrite captured_snoc, appended_snoc, Hcap. by rewrite !app_nil_r.
    + unfold coord_inv; simpl. split; [done|]. split; [done|]. split; [done|].
      by rewrite phase_of_snoc, Hph.
    + intros H0. destruct (Hidle H0) as (? & ? & ?).
      rewrite captured_snoc, app_nil_r. done.
  - (* thread.join() *)
    destruct Hco as (Hstarted & Hopen & Hrec & Hph).
    destruct (terminated p) eqn:Hterm; [|discriminate]. st_unfold.
    injection Hstep as <-.
    exists (new ++ [EvJoin]). inv_split; try done.
    + by rewrite Ht, app_assoc.
    + by rewrite appended_snoc, app_nil_r.
    + rewrite captured_snoc, appended_snoc, Hcap. by rewrite !app_nil_r.
    + unfold coord_inv; simpl. split; [done|]. split; [done|]. split; [done|].
      by rewrite phase_of_snoc, Hph.
    + intros H0. destruct (Hidle H0) as (? & ? & ?).
      rewrite captured_snoc, app_nil_r. done.
  - (* self._close_audio_stream() *)
    destruct Hco as (Hterm & Hopen & Hrec & Hph).
    destruct Hopen as (st & Hst & Hcl & Hin & [po Hpo]).
    rewrite (close_audio_stream_spec w st po Hst Hpo) in Hstep. injection Hstep as <-.
    exists (new ++ [EvClose]). unfold closed. inv_split; try done.
    + by rewrite Ht, app_assoc.
    + by rewrite appended_snoc, app_nil_r.
    + rewrite captured_snoc, appended_snoc, Hcap. by rewrite !app_nil_r.
    + unfold coord_inv; simpl. split; [done|]. split.
      { exists (closed_stream st). done. }
      split; [done|]. by rewrite phase_of_snoc, Hph.
    + intros H0. destruct (Hidle H0) as (? & ? & ?).
      rewrite captured_snoc, app_nil_r. done.
  - (* self._write_to_file() *)
    destruct Hco as (Hterm & Hclosed & Hrec & Hph).
    pose proof (write_to_file_spec w) as Hspec.
    destruct (_write_to_file w) as [[[]|e] w1]; injection Hstep as <-.
    + destruct Hspec as (width & Hw & _ & _ & -> & _).
      exists (new ++ [EvSerialize (filepath (self w))]).
      unfold serialized, unfinished. inv_split; try done.
      * by rewrite Ht, app_assoc.
      * by rewrite appended_snoc, app_nil_r.
      * rewrite captured_snoc, appended_snoc, Hcap. by rewrite !app_nil_r.
      * unfold coord_inv; simpl. split; [done|]. split; [done|]. split; [done|].
        split; [by rewrite phase_of_snoc, Hph|].
        exists width. split; [done|]. apply lookup_insert_eq.
      * intros H0. destruct (Hidle H0) as (? & ? & ?).
        rewrite captured_snoc, app_nil_r. done.
    + destruct Hspec as (f & -> & _).
      exists (new ++ [EvSerialize (filepath (self w))]).
      unfold unfinished. inv_split; try done.
      * by rewrite Ht, app_assoc.
      * by rewrite appended_snoc, app_nil_r.
      * rewrite captured_snoc, appended_snoc, Hcap. by rewrite !app_nil_r.
      * unfold coord_inv; simpl. right. split; [done|]. split; [done|].
        by rewrite phase_of_snoc, Hph.
      * intros H0. destruct (Hidle H0) as (? & ? & ?).
        rewrite captured_snoc, app_nil_r. done.
Qed.

Lemma step_inv h t w0 s s' new :
  session_inv w0 s new → step h t s = Some s' → ∃ new', session_inv w0 s' new'.
Proof.
  destruct t; [apply coord_step_inv|apply worker_step_inv].
Qed.

(** Every state a schedule reaches from the start of [record] satisfies
    the invariant. *)
Lemma run_inv h schedule : ∀ w0 s s' new,
  session_inv w0 s new → run h schedule s = Some s' → ∃ new', session_inv w0 s' new'.
Proof.
  induction schedule as [|t schedule IH]; intros w0 s s' new Hinv Hrun; simpl in Hrun.
  - injection Hrun as <-. eauto.
  - destruct (step h t s) as [s1|] eqn:Hstep; [|discriminate].
    destruct (step_inv h t w0 s s1 new Hinv Hstep) as [new1 Hinv1]. eauto.
Qed.

Lemma record_inv h use_default schedule w0 s :
  run h schedule (start_record use_default w0) = Some s →
  ∃ new, session_inv w0 s new.
Proof.
  intros Hrun.
  exact (run_inv h schedule w0 _ s [] (session_inv_start use_default w0) Hrun).
Qed.

End session.

(** ** Recording sessions: what the invariant gives *)
Section teardown.
Import audio.

Lemma next_phase_setup p e :
  next_phase p e = PSetup → p = PSetup ∧ setup_event e.
Proof. destruct p, e; simpl; try discriminate; done. Qed.

Lemma next_phase_stopped p e :
  next_phase p e = PStopped →
  (p = PSetup ∧ e = EvStop) ∨ (p = PStopped ∧ capture_event e).
Proof. destruct p, e; simpl; try discriminate; auto. Qed.

Lemma next_phase_joined p e : next_phase p e = PJoined → p = PStopped ∧ e = EvJoin.
Proof. destruct p, e; simpl; try discriminate; done. Qed.

Lemma next_phase_closed p e : next_phase p e = PClosed → p = PJoined ∧ e = EvClose.
Proof. destruct p, e; simpl; try discriminate; done. Qed.

Lemma next_phase_serialized p e path :
  next_phase p e = PSerialized path → p = PClosed ∧ e = EvSerialize path.
Proof. destruct p, e; simpl; try discriminate; by intros [= ->]. Qed.

Lemma phase_setup t : phase_of t = PSetup → Forall setup_event t.
Proof.
  induction t as [|e t IH] using rev_ind; [done|].
  rewrite phase_of_snoc. intros [Hp He]%next_phase_setup.
  apply Forall_app. split; [by apply IH|by constructor].
Qed.

Lemma phase_stopped t :
  phase_of t = PStopped →
  ∃ pre mid, t = pre ++ EvStop :: mid
    ∧ Forall setup_event pre ∧ Forall capture_event mid.
Proof.
  induction t as [|e t IH] using rev_ind; [discriminate|].
  rewrite phase_of_snoc. intros [[Hp ->]|[Hp He]]%next_phase_stopped.
  - exists t, []. split; [done|]. split; [by apply phase_setup|done].
  - destruct (IH Hp) as (pre & mid & -> & Hpre & Hmid).
    exists pre, (mid ++ [e]). split; [by rewrite <- app_assoc|].
    split; [done|]. apply Forall_app. split; [done|by constructor].
Qed.

Lemma phase_serialized t path :
  phase_of t = PSerialized path →
  ∃ pre mid, t = pre ++ EvStop :: mid ++ [EvJoin; EvClose; EvSerialize path]
    ∧ Forall setup_event pre ∧ Forall capture_event mid.
Proof.
  destruct t as [|e3 t _] using rev_ind; [discriminate|].
  rewrite phase_of_snoc. intros [Hp ->]%next_phase_serialized.
  destruct t as [|e2 t _] using rev_ind; [discriminate|].
  rewrite phase_of_snoc in Hp. apply next_phase_closed in Hp as [Hp ->].
  destruct t as [|e1 t _] using rev_ind; [discriminate|].
  rewrite phase_of_snoc in Hp. apply next_phase_joined in Hp as [Hp ->].
  destruct (phase_stopped t Hp) as (pre & mid & -> & Hpre & Hmid).
  exists pre, mid. split; [|done].
  rewrite <- !app_assoc. simpl. by rewrite <- ?app_assoc.
Qed.

(** Before the serialization step the history holds no serialization. *)
Lemma phase_not_serialized t path :
  EvSerialize path ∈ t →
  phase_of t = PBad ∨ ∃ path', phase_of t = PSerialized path'.
Proof.
  induction t as [|e t IH] using rev_ind; [by intros ?%elem_of_nil|].
  rewrite phase_of_snoc, elem_of_app, list_elem_of_singleton.
  intros [Hin| <-].
  - destruct (IH Hin) as [->|[path' ->]]; left; by destruct e.
  - destruct (phase_of t); simpl; eauto.
Qed.

(** The invariant at each point of [record], by phase. *)
Lemma coord_inv_phase s new :
  coord_inv s new →
  (phase_of new = PSerialized (filepath (self (world s)))
   ∧ terminated (worker s) = true ∧ stream_closed (self (world s)))
  ∨ (coord s ≠ CReturned ∧ phase_of new ≠ PBad
     ∧ ∀ path, phase_of new ≠ PSerialized path).
Proof.
  unfold coord_inv. destruct (coord s); intros H.
  all: try (right; split; [done|]; (destruct H as (_ & H) || idtac);
            repeat (match type of H with _ ∧ _ => destruct H as (_ & H) end);
            rewrite H; by split).
  - left. tauto.
  - destruct H as [[H _]|(? & ? & ?)]; [|left; tauto].
    right. rewrite H. by split.
Qed.

Lemma serialize_last pre mid path path' :
  Forall setup_event pre → Forall capture_event mid →
  EvSerialize path' ∈ pre ++ EvStop :: mid ++ [EvJoin; EvClose; EvSerialize path] →
  path' = path.
Proof.
  intros Hpre Hmid. rewrite elem_of_app, elem_of_cons, elem_of_app, !elem_of_cons.
  rewrite Forall_forall in Hpre. rewrite Forall_forall in Hmid.
  intros [Hin|[[=]|[Hin|[[=]|[[=]|[[= ->]|Hin]]]]]]; try done.
  - by apply Hpre in Hin.
  - by apply Hmid in Hin.
  - by apply elem_of_nil in Hin.
Qed.

(** C1: in every run of [record], under every schedule of the two threads:
    a completed call has serialized; and a history that holds a
    serialization is, from the stop signal on, exactly: the stop signal,
    then capture events only, then the join, the close and the
    serialization, with no teardown event before the stop signal. So the
    order is stop, join, close, serialize; the capture thread does nothing
    after the join; and at the serialization the thread has ended and the
    stream is closed. *)
Theorem record_teardown_order h use_default schedule w0 s :
  run h schedule (start_record use_default w0) = Some s →
  ∃ new,
    trace (world s) = trace w0 ++ new
    ∧ (coord s = CReturned → EvSerialize (filepath (self w0)) ∈ new)
    ∧ (∀ path, EvSerialize path ∈ new →
         path = filepath (self w0)
         ∧ (∃ pre mid,
              new = pre ++ EvStop :: mid ++ [EvJoin; EvClose; EvSerialize path]
              ∧ Forall setup_event pre ∧ Forall capture_event mid)
         ∧ terminated (worker s) = true
         ∧ stream_closed (self (world s))).
Proof.
  intros Hrun.
  destruct (record_inv h use_default schedule w0 s Hrun)
    as (new & Ht & Hcfg & _ & _ & _ & Hco & _).
  destruct Hcfg as (Hpath & _).
  exists new. split; [exact Ht|].
  destruct (coord_inv_phase s new Hco) as [(Hph & Hterm & Hcl)|(Hc & Hbad & Hns)].
  - rewrite Hpath in Hph.
    destruct (phase_serialized new _ Hph) as (pre & mid & Hnew & Hpre & Hmid).
    split.
    + intros _. rewrite Hnew, elem_of_app, elem_of_cons, elem_of_app, !elem_of_cons.
      tauto.
    + intros path Hin. rewrite Hnew in Hin.
      apply (serialize_last pre mid _ _ Hpre Hmid) in Hin as ->.
      split; [done|]. split; [by exists pre, mid|]. done.
  - split; [done|]. intros path Hin.
    destruct (phase_not_serialized new path Hin) as [?|[path' ?]]; [done|].
    by destruct (Hns path').
Qed.

(** An instance: a session that captures one chunk. *)
Lemma record_teardown_order_witness :
  let h := host3 (chunk "a" 4) never never in
  let w0 := fresh_world small_Audio [enter; enter] in
  let s := final h (capture_schedule 1) (start_record true w0) in
  ∃ new,
    trace (world s) = trace w0 ++ new
    ∧ (coord s = CReturned → EvSerialize (filepath (self w0)) ∈ new)
    ∧ (∀ path, EvSerialize path ∈ new →
         path = filepath (self w0)
         ∧ (∃ pre mid,
              new = pre ++ EvStop :: mid ++ [EvJoin; EvClose; EvSerialize path]
              ∧ Forall setup_event pre ∧ Forall capture_event mid)
         ∧ terminated (worker s) = true
         ∧ stream_closed (self (world s))).
Proof.
  cbv zeta.
  apply (record_teardown_order (host3 (chunk "a" 4) never never) true (capture_schedule 1)).
  vm_compute. reflexivity.
Defined.

(** The one-chunk session does complete: stop, join, close, serialize. *)
Example one_chunk_session :
  let h := host3 (chunk "a" 4) never never in
  let s := final h (capture_schedule 1)
             (start_record true (fresh_world small_Audio [enter; enter])) in
  coord s = CReturned
  ∧ (∃ st, trace (world s)
           = [EvOpen st; EvSpawn; EvRead (chunk "a" 4) false; EvAppend (chunk "a" 4);
              EvStop; EvJoin; EvClose; EvSerialize "/app/recording.wav"])
  ∧ fs (world s) !! "/app/recording.wav" = Some (recording_of (chunk "a" 4)).
Proof.
  cbv zeta. set (s := final _ _ _). vm_compute in s. subst s.
  split; [reflexivity|]. split; [eexists; reflexivity|]. reflexivity.
Qed.

End teardown.

(** ** Recording sessions: the frame buffer and the file *)
Section frames.
Import audio.

(** A completed call of [record]: the capture thread has run to its end,
    every chunk it read is in the buffer, behind what the buffer held at the
    start, and the file holds the whole buffer. *)
Lemma completed_session h use_default schedule w0 s :
  run h schedule (start_record use_default w0) = Some s →
  coord s = CReturned →
  ∃ new width,
    trace (world s) = trace w0 ++ new
    ∧ worker s = WFinished
    ∧ (recording (self (world s)) = false ∧ same_config (self w0) (self (world s)))
    ∧ appended new = captured new
    ∧ recorded_frames (self (world s)) = recorded_frames (self w0) ++ captured new
    ∧ get_sample_size (format (self w0)) = Ok width
    ∧ fs (world s) !! filepath (self w0)
      = Some (wave.WavFile
                (session_wav (self w0) width (recorded_frames (self w0) ++ captured new))).
Proof.
  intros Hrun Hc.
  destruct (record_inv h use_default schedule w0 s Hrun)
    as (new & Ht & Hcfg & Hfr & Hcap & Hnr & Hco & _).
  pose proof Hcfg as (Hpath & Hrate & Hch & Hfmt & _).
  unfold coord_inv in Hco. rewrite Hc in Hco.
  destruct Hco as (Hterm & _ & Hrec & _ & width & Hw & Hfile).
  assert (Hfin : worker s = WFinished).
  { destruct (worker s); try discriminate; [done|]. by destruct Hnr. }
  rewrite Hfin in Hcap. simpl in Hcap. rewrite app_nil_r in Hcap.
  exists new, width.
  split; [done|]. split; [done|]. split; [done|]. split; [done|].
  split; [by rewrite Hcap|]. split; [by rewrite <- Hfmt|].
  rewrite <- Hpath, Hfile. unfold wav_of, session_wav.
  by rewrite Hch, Hrate, Hfr, Hcap.
Qed.

Lemma run_final h schedule s :
  completes h schedule s = true → run h schedule s = Some (final h schedule s).
Proof.
  unfold completes, final. destruct (run h schedule s); [done|discriminate].
Qed.

Lemma chunk_length b n : (0 ≤ n)%Z → Z.of_nat (length (chunk b (Z.to_nat n))) = n.
Proof. intros Hn. unfold chunk. rewrite repeat_length. lia. Qed.

(** C2: a session on an object configured with sample rate 16000, one
    channel, 16-bit samples and 4096 frames per buffer, whose capture loop
    appended three chunks of 8192 bytes, leaves a file whose header reports
    frame rate 16000, one channel and sample width 2, and whose payload is
    the three chunks in order, 24576 bytes. *)
Theorem three_chunk_session_file h use_default schedule w0 s path new c1 c2 c3 :
  self w0 = __init__ path 16000 1 paInt16 4096 →
  run h schedule (start_record use_default w0) = Some s →
  coord s = CReturned →
  trace (world s) = trace w0 ++ new →
  appended new = [c1; c2; c3] →
  Z.of_nat (length c1) = 8192%Z → Z.of_nat (length c2) = 8192%Z →
  Z.of_nat (length c3) = 8192%Z →
  ∃ f, fs (world s) !! path = Some (wave.WavFile f)
    ∧ wave.framerate f = 16000%Z
    ∧ wave.nchannels f = 1%Z
    ∧ wave.sampwidth f = 2%Z
    ∧ wave.payload f = c1 ++ c2 ++ c3
    ∧ Z.of_nat (length (wave.payload f)) = 24576%Z.
Proof.
  intros Hself Hrun Hc Ht Happ H1 H2 H3.
  destruct (completed_session h use_default schedule w0 s Hrun Hc)
    as (new' & width & Ht' & _ & _ & Happ' & _ & Hw & Hfile).
  assert (new' = new) as -> by (rewrite Ht in Ht'; by apply app_inv_head in Ht').
  rewrite Hself in Hw, Hfile. cbn in Hw, Hfile. injection Hw as <-.
  rewrite <- Happ', Happ in Hfile.
  eexists. split; [exact Hfile|]. cbn.
  rewrite app_nil_r, !length_app. repeat split; lia.
Qed.

(** An instance: three turns of the capture loop on the default object. *)
Lemma three_chunk_session_file_witness :
  let h := host3 (chunk "a" (Z.to_nat 8192)) never never in
  let w0 := fresh_world (default_Audio "/app") [enter; enter] in
  let s := final h (capture_schedule 3) (start_record true w0) in
  ∃ f, fs (world s) !! "/app/recording.wav" = Some (wave.WavFile f)
    ∧ wave.framerate f = 16000%Z
    ∧ wave.nchannels f = 1%Z
    ∧ wave.sampwidth f = 2%Z
    ∧ wave.payload f
      = chunk "a" (Z.to_nat 8192) ++ chunk "a" (Z.to_nat 8192)
        ++ chunk "a" (Z.to_nat 8192)
    ∧ Z.of_nat (length (wave.payload f)) = 24576%Z.
Proof.
  cbv zeta.
  set (h := host3 (chunk "a" (Z.to_nat 8192)) never never).
  set (w0 := fresh_world (default_Audio "/app") [enter; enter]).
  set (s := final h (capture_schedule 3) (start_record true w0)).
  apply (three_chunk_session_file h true (capture_schedule 3) w0 s
           "/app/recording.wav" (trace (world s))).
  - reflexivity.
  - apply run_final. vm_cast_no_check (eq_refl true).
  - vm_cast_no_check (eq_refl CReturned).
  - exact (eq_sym (app_nil_l (trace (world s)))).
  - vm_cast_no_check (eq_refl (appended (trace (world s)))).
  - by apply chunk_length.
  - by apply chunk_length.
  - by apply chunk_length.
Defined.

(** C8, as the code has it: a completed session writes the buffer as it was
    at the start of the call followed by the chunks captured during the
    call, in capture order; on an object as its constructor leaves it (so
    in its first session) the buffer is empty at the start and the file
    holds exactly the chunks captured during that session. *)
Theorem session_file_holds_buffer_and_captured h use_default schedule w0 s :
  run h schedule (start_record use_default w0) = Some s →
  coord s = CReturned →
  ∃ new f,
    trace (world s) = trace w0 ++ new
    ∧ fs (world s) !! filepath (self w0) = Some (wave.WavFile f)
    ∧ wave.payload f = join (recorded_frames (self w0)) ++ join (captured new)
    ∧ (recorded_frames (self w0) = [] → wave.payload f = join (captured new))
    ∧ (∀ path rate nchannels fmt nframes,
         self w0 = __init__ path rate nchannels fmt nframes →
         recorded_frames (self (world (start_record use_default w0))) = []
         ∧ wave.payload f = join (captured new)).
Proof.
  intros Hrun Hc.
  destruct (completed_session h use_default schedule w0 s Hrun Hc)
    as (new & width & Ht & _ & _ & _ & _ & _ & Hfile).
  exists new, (session_wav (self w0) width (recorded_frames (self w0) ++ captured new)).
  split; [done|]. split; [done|]. unfold session_wav, join. cbn [wave.payload].
  rewrite concat_app. split; [done|]. split; [by intros ->|].
  intros path rate nchannels fmt nframes Hinit. cbn [start_record world].
  rewrite Hinit. done.
Qed.

(** An instance: the first session of an object, capturing two chunks. *)
Lemma session_file_holds_buffer_and_captured_witness :
  let h := host3 (chunk "a" 4) never never in
  let w0 := fresh_world small_Audio [enter; enter] in
  let s := final h (capture_schedule 2) (start_record true w0) in
  ∃ new f,
    trace (world s) = trace w0 ++ new
    ∧ fs (world s) !! filepath (self w0) = Some (wave.WavFile f)
    ∧ wave.payload f = join (recorded_frames (self w0)) ++ join (captured new)
    ∧ (recorded_frames (self w0) = [] → wave.payload f = join (captured new))
    ∧ (∀ path rate nchannels fmt nframes,
         self w0 = __init__ path rate nchannels fmt nframes →
         recorded_frames (self (world (start_record true w0))) = []
         ∧ wave.payload f = join (captured new)).
Proof.
  cbv zeta.
  apply (session_file_holds_buffer_and_captured (host3 (chunk "a" 4) never never) true
           (capture_schedule 2)).
  - vm_compute. reflexivity.
  - vm_compute. reflexivity.
Defined.

(** C8 fails as stated: a second session on the same object. The first
    session captures one chunk; the second starts with that chunk in the
    buffer, captures nothing, and writes a file that holds the chunk of the
    first session. *)
Lemma second_session_starts_with_old_frames :
  let h := host3 (chunk "a" 4) never never in
  let w0 := fresh_world small_Audio [enter; enter; enter; enter] in
  let s1 := final h (capture_schedule 1) (start_record true w0) in
  let s2 := final h (capture_schedule 0) (start_record true (world s1)) in
  coord s1 = CReturned
  ∧ recorded_frames (self (world (start_record true (world s1)))) = [chunk "a" 4]
  ∧ run h (capture_schedule 0) (start_record true (world s1)) = Some s2
  ∧ coord s2 = CReturned
  ∧ captured (drop (length (trace (world s1))) (trace (world s2))) = []
  ∧ fs (world s2) !! "/app/recording.wav" = Some (recording_of (chunk "a" 4)).
Proof.
  cbv zeta. repeat (split; [vm_compute; reflexivity|]). vm_compute; reflexivity.
Qed.

(** C9: in every state a run of [record] reaches, the capture thread has
    not raised; when it is in a hardware read and the hardware reports an
    overrun for that read, the read returns the chunk (it does not raise);
    a chunk read is appended to the buffer by the next turn, after which the
    thread is back at the loop test and, while the flag is set, goes on to
    the next read; and every chunk read so far, overrun or not, is in the
    buffer or about to be appended. *)
Theorem capture_tolerates_overrun h use_default schedule w0 s :
  run h schedule (start_record use_default w0) = Some s →
  ¬ raised (worker s)
  ∧ (worker s = WReading →
     hw_overflowed (next_read h s) = true →
     ∃ s1, step h Capture s = Some s1
       ∧ worker s1 = WAppending (hw_data (next_read h s))
       ∧ trace (world s1)
         = trace (world s) ++ [EvRead (hw_data (next_read h s)) true]
       ∧ coord s1 = coord s)
  ∧ (∀ data, worker s = WAppending data →
     ∃ s2, step h Capture s = Some s2
       ∧ recorded_frames (self (world s2))
         = recorded_frames (self (world s)) ++ [data]
       ∧ worker s2 = WLoopTest)
  ∧ (worker s = WLoopTest → recording (self (world s)) = true →
     ∃ s3, step h Capture s = Some s3 ∧ worker s3 = WReading)
  ∧ (∃ new, trace (world s) = trace w0 ++ new
       ∧ captured new = appended new ++ pending (worker s)
       ∧ recorded_frames (self (world s)) = recorded_frames (self w0) ++ appended new).
Proof.
  intros Hrun.
  destruct (record_inv h use_default schedule w0 s Hrun)
    as (new & Ht & _ & Hfr & Hcap & Hnr & Hco & _).
  split; [exact Hnr|]. split; [|split; [|split]].
  - intros Hw Hov.
    assert (Hopen : capture_open (self (world s))).
    { unfold coord_inv in Hco. rewrite Hw in Hco.
      destruct (coord s); try (destruct Hco as [Hw' ?]; try discriminate Hw');
        try tauto.
      destruct Hco as [[_ [Hw'|?]]|[Hw' _]]; [discriminate Hw'|done|discriminate Hw']. }
    unfold next_read in *.
    unfold step, worker_step. rewrite Hw, (stream_read_open h _ _ Hopen), Hov.
    eexists. split; [reflexivity|]. done.
  - intros data Hw. unfold step, worker_step. rewrite Hw.
    eexists. split; [reflexivity|]. done.
  - intros Hw Hrec. unfold step, worker_step. rewrite Hw, Hrec.
    eexists. split; [reflexivity|]. done.
  - exists new. done.
Qed.

(** An instance: the state where the capture thread is in its first read,
    on a host where every read is an overrun. *)
Lemma capture_tolerates_overrun_witness :
  let h := host3 (chunk "a" 4) (λ _, true) never in
  let w0 := fresh_world small_Audio [enter; enter] in
  let s := final h (repeat Coordinator 4 ++ [Capture]) (start_record true w0) in
  ¬ raised (worker s)
  ∧ (worker s = WReading →
     hw_overflowed (next_read h s) = true →
     ∃ s1, step h Capture s = Some s1
       ∧ worker s1 = WAppending (hw_data (next_read h s))
       ∧ trace (world s1)
         = trace (world s) ++ [EvRead (hw_data (next_read h s)) true]
       ∧ coord s1 = coord s)
  ∧ (∀ data, worker s = WAppending data →
     ∃ s2, step h Capture s = Some s2
       ∧ recorded_frames (self (world s2))
         = recorded_frames (self (world s)) ++ [data]
       ∧ worker s2 = WLoopTest)
  ∧ (worker s = WLoopTest → recording (self (world s)) = true →
     ∃ s3, step h Capture s = Some s3 ∧ worker s3 = WReading)
  ∧ (∃ new, trace (world s) = trace w0 ++ new
       ∧ captured new = appended new ++ pending (worker s)
       ∧ recorded_frames (self (world s)) = recorded_frames (self w0) ++ appended new).
Proof.
  cbv zeta.
  apply (capture_tolerates_overrun (host3 (chunk "a" 4) (λ _, true) never) true
           (repeat Coordinator 4 ++ [Capture])).
  vm_compute. reflexivity.
Defined.

(** A session in which every read is an overrun still captures and writes
    every chunk. *)
Example overrun_session :
  let h := host3 (chunk "a" 4) (λ _, true) never in
  let s := final h (capture_schedule 2)
             (start_record true (fresh_world small_Audio [enter; enter])) in
  coord s = CReturned ∧ worker s = WFinished
  ∧ captured (trace (world s)) = [chunk "a" 4; chunk "a" 4]
  ∧ fs (world s) !! "/app/recording.wav" = Some (recording_of (chunk "a" 8)).
Proof.
  cbv zeta. repeat (split; [vm_compute; reflexivity|]). vm_compute; reflexivity.
Qed.

(** With [exception_on_overflow] set, the same read would raise. *)
Lemma stream_read_raises_when_asked h n w :
  capture_open (self w) → hw_overflowed (mic h (hw_reads w) n) = true →
  (stream_read h n true w).1 = Raise (IOError "Input overflowed").
Proof.
  intros (st & Hst & Hcl & Hin & _) Hov. unfold stream_read.
  by rewrite Hst, Hcl, Hin, Hov.
Qed.

(** C10: once a call of [record] has completed the flag is false; in every
    state a later call on the same object reaches, the flag is still false,
    the capture thread is not reading nor holding a chunk, nothing has been
    read or appended, and the buffer is what the first call left; and when
    that later call completes, its thread has run and ended, and the file it
    wrote is the file the first call wrote: the frames of the first call. *)
Theorem second_record_captures_nothing h ud1 sched1 w0 s1 ud2 sched2 s2 :
  run h sched1 (start_record ud1 w0) = Some s1 →
  coord s1 = CReturned →
  run h sched2 (start_record ud2 (world s1)) = Some s2 →
  recording (self (world s1)) = false
  ∧ recording (self (world s2)) = false
  ∧ idle (worker s2)
  ∧ (∃ new, trace (world s2) = trace (world s1) ++ new
       ∧ captured new = [] ∧ appended new = [])
  ∧ recorded_frames (self (world s2)) = recorded_frames (self (world s1))
  ∧ (coord s2 = CReturned →
     worker s2 = WFinished
     ∧ ∃ f, fs (world s2) !! filepath (self w0) = Some (wave.WavFile f)
         ∧ wave.payload f = join (recorded_frames (self (world s1)))
         ∧ fs (world s1) !! filepath (self w0) = Some (wave.WavFile f)).
Proof.
  intros Hrun1 Hc1 Hrun2.
  destruct (completed_session h ud1 sched1 w0 s1 Hrun1 Hc1)
    as (new1 & width & Ht1 & _ & [Hrec1 Hcfg1] & _ & Hfr1 & Hw1 & Hfile1).
  destruct (record_inv h ud2 sched2 (world s1) s2 Hrun2)
    as (new & Ht & _ & Hfr & Hcap & _ & _ & Hidle).
  destruct (Hidle Hrec1) as (Hrec2 & Hid & Hcap0).
  assert (Happ0 : appended new = []).
  { rewrite Hcap0 in Hcap. symmetry in Hcap. by apply app_eq_nil in Hcap as [? _]. }
  split; [done|]. split; [done|]. split; [done|].
  split; [by exists new|].
  split; [by rewrite Hfr, Happ0, app_nil_r|].
  intros Hc2.
  destruct (completed_session h ud2 sched2 (world s1) s2 Hrun2 Hc2)
    as (new2 & width2 & Ht2 & Hfin & _ & _ & _ & Hw2 & Hfile2).
  assert (new2 = new) as -> by (rewrite Ht in Ht2; by apply app_inv_head in Ht2).
  destruct Hcfg1 as (Hpath & Hrate & Hch & Hfmt & _).
  rewrite Hfmt, Hw1 in Hw2. injection Hw2 as <-.
  rewrite Hcap0, app_nil_r, Hpath in Hfile2.
  split; [done|]. eexists. split; [exact Hfile2|]. split; [done|].
  rewrite Hfile1. unfold session_wav. by rewrite Hch, Hrate, Hfr1.
Qed.

(** An instance: a one-chunk session followed by a second call on the same
    object. *)
Lemma second_record_captures_nothing_witness :
  let h := host3 (chunk "a" 4) never never in
  let w0 := fresh_world small_Audio [enter; enter; enter; enter] in
  let s1 := final h (capture_schedule 1) (start_record true w0) in
  let s2 := final h (capture_schedule 0) (start_record true (world s1)) in
  recording (self (world s1)) = false
  ∧ recording (self (world s2)) = false
  ∧ idle (worker s2)
  ∧ (∃ new, trace (world s2) = trace (world s1) ++ new
       ∧ captured new = [] ∧ appended new = [])
  ∧ recorded_frames (self (world s2)) = recorded_frames (self (world s1))
  ∧ (coord s2 = CReturned →
     worker s2 = WFinished
     ∧ ∃ f, fs (world s2) !! filepath (self w0) = Some (wave.WavFile f)
         ∧ wave.payload f = join (recorded_frames (self (world s1)))
         ∧ fs (world s1) !! filepath (self w0) = Some (wave.WavFile f)).
Proof.
  cbv zeta.
  apply (second_record_captures_nothing (host3 (chunk "a" 4) never never)
           true (capture_schedule 1)
           (fresh_world small_Audio [enter; enter; enter; enter]) _
           true (capture_schedule 0)).
  - vm_compute. reflexivity.
  - vm_compute. reflexivity.
  - vm_compute. reflexivity.
Defined.

End frames.

(** ** Which device a stream is opened on *)
Section device_choice.
Import audio.

(** [_open_audio_stream] itself opens the stream on the index it is given
    for the stream's direction, and on the host default when given none. *)
Lemma open_audio_stream_device h record fb i o w w' :
  _open_audio_stream h record fb i o w = (Ok tt, w') →
  ∃ st, audio_stream (self w') = Some st
    ∧ Some (st_device st)
      = if record then resolve i (default_input h) else resolve o (default_output h).
Proof.
  intros Hopen. pose proof (open_audio_stream_spec h record fb i o w) as Hspec.
  rewrite Hopen in Hspec. destruct Hspec as (st & -> & _ & Hin & _ & Hi & Ho).
  exists st. split; [done|]. unfold st_device. rewrite Hin. by destruct record.
Qed.

(** [play] passes the selected device on: choosing the headset (2) opens
    the output stream on device 2, not on the default speaker (1). *)
Example play_opens_selected_device :
  let h := host3 [] never never in
  let w := {| self := small_Audio;
              fs := {[ "/app/recording.wav" := recording_of (chunk "a" 4) ]};
              stdin := [IntLine 2]; hw_reads := 0; hw_writes := 0; trace := [] |} in
  ∃ w' st rest, play h false w = Some (Ok tt, w')
    ∧ trace w' = EvOpen st :: rest ∧ st_output st = true ∧ st_device st = 2%Z.
Proof.
  cbv zeta. set (r := play _ _ _). vm_compute in r. subst r.
  eexists _, _, _. split; [reflexivity|]. split; [reflexivity|]. split; reflexivity.
Qed.

(** In [record] the open step does not depend on the device held at that
    point: whatever was selected, the capture stream is opened on the
    host's default input device. *)
Lemma record_opens_default_input h s s' device_index :
  coord s = COpen device_index → coord_step h s = Some s' →
  coord s' = CPromptStart →
  ∃ st, audio_stream (self (world s')) = Some st ∧ st_input st = true
    ∧ default_input h = Some (st_device st).
Proof.
  intros Hc Hstep Hc'. unfold coord_step, coord_run in Hstep. rewrite Hc in Hstep.
  pose proof (open_audio_stream_spec h true None None None (world s)) as Hspec.
  destruct (_open_audio_stream _ _ _ _ _ _) as [[[]|e] w1]; injection Hstep as <-;
    [|discriminate Hc'].
  destruct Hspec as (st & -> & _ & Hin & _ & Hi & _).
  exists st. split; [done|]. split; [done|]. unfold st_device. by rewrite Hin.
Qed.

(** C6 on [record(use_default=False)]: the user picks the headset
    (device 2) at the prompt, [_select_device] returns 2, and the capture
    stream is nevertheless opened on the default microphone (device 0). *)
Theorem record_ignores_selected_device :
  let h := host3 [] never never in
  let w := fresh_world (default_Audio "/app") [IntLine 2; enter; enter] in
  let s1 := final h [Coordinator] (start_record false w) in
  let s2 := final h [Coordinator; Coordinator] (start_record false w) in
  run h [Coordinator] (start_record false w) = Some s1
  ∧ coord s1 = COpen (Some 2%Z)
  ∧ run h [Coordinator] s1 = Some s2
  ∧ coord s2 = CPromptStart
  ∧ st_device <$> audio_stream (self (world s2)) = Some 0%Z
  ∧ st_input <$> audio_stream (self (world s2)) = Some true
  ∧ default_input h = Some 0%Z.
Proof.
  cbv zeta. repeat (split; [vm_compute; reflexivity|]). reflexivity.
Qed.

End device_choice.

(** ** Chunking *)
Section chunking.
Context {A : Type}.
Implicit Types (l : list A) (n : nat).

Lemma chunks_upto_fuel n l : ∀ fuel1 fuel2,
  0 < n → length l ≤ fuel1 → length l ≤ fuel2 →
  chunks_upto fuel1 n l = chunks_upto fuel2 n l.
Proof.
  intros fuel1. revert l.
  induction fuel1 as [|fuel1 IH]; intros l fuel2 Hn H1 H2.
  - destruct l; [by destruct fuel2|simpl in H1; lia].
  - destruct l as [|a l]; [by destruct fuel2|].
    destruct fuel2 as [|fuel2]; [simpl in H2; lia|].
    cbn [chunks_upto]. f_equal.
    apply IH; [done| |]; rewrite length_drop; simpl in *; lia.
Qed.

Lemma chunks_upto_enough fuel n l :
  0 < n → length l ≤ fuel → chunks_upto fuel n l = chunks n l.
Proof. intros Hn Hlen. by apply chunks_upto_fuel. Qed.

Lemma chunks_nil n : chunks n (@nil A) = [].
Proof. done. Qed.

Lemma chunks_cons n l :
  0 < n → l ≠ [] → chunks n l = take n l :: chunks n (drop n l).
Proof.
  intros Hn Hl. destruct l as [|a l]; [done|].
  unfold chunks at 1. cbn [length chunks_upto]. f_equal.
  apply chunks_upto_enough; [done|]. rewrite length_drop. simpl. lia.
Qed.

(** Induction along the pieces. *)
Lemma chunks_ind n (Hn : 0 < n) (P : list A → Prop) :
  P [] → (∀ l, l ≠ [] → P (drop n l) → P l) → ∀ l, P l.
Proof.
  intros Hnil Hstep l.
  remember (length l) as k eqn:Hk. revert l Hk.
  induction k as [k IH] using lt_wf_ind. intros l ->.
  destruct l as [|a l]; [done|]. apply Hstep; [done|].
  apply (IH (length (drop n (a :: l)))); [|done]. rewrite length_drop. simpl. lia.
Qed.

Lemma concat_chunks n l : 0 < n → concat (chunks n l) = l.
Proof.
  intros Hn. induction l as [|l Hl IH] using (chunks_ind n Hn); [done|].
  rewrite chunks_cons by done. simpl. rewrite IH. apply take_drop.
Qed.

Lemma chunks_sizes n l :
  0 < n → Forall (λ c, 0 < length c ≤ n) (chunks n l).
Proof.
  intros Hn. induction l as [|l Hl IH] using (chunks_ind n Hn); [constructor|].
  rewrite chunks_cons by done. constructor; [|done].
  rewrite length_take. destruct l; [done|]. simpl. lia.
Qed.

(** Every piece but the last is full. *)
Lemma chunks_full n l i c :
  0 < n → chunks n l !! i = Some c → S i < length (chunks n l) → length c = n.
Proof.
  intros Hn. revert i. induction l as [|l Hl IH] using (chunks_ind n Hn); intros i; [done|].
  rewrite chunks_cons by done. destruct i as [|i]; simpl.
  - intros [= <-] Hlen. rewrite length_take.
    destruct (decide (n ≤ length l)) as [|Hshort]; [lia|].
    rewrite drop_ge in Hlen by lia. simpl in Hlen. lia.
  - intros Hc Hlen. apply (IH i); [done|lia].
Qed.

Lemma length_chunks n l :
  0 < n → length (chunks n l) = (length l + n - 1) / n.
Proof.
  intros Hn. induction l as [|l Hl IH] using (chunks_ind n Hn).
  - simpl. symmetry. apply Nat.div_small. lia.
  - rewrite chunks_cons by done. simpl. rewrite IH, length_drop.
    assert (0 < length l) by (destruct l; [done|simpl; lia]).
    destruct (decide (n ≤ length l)) as [Hle|Hgt].
    + replace (length l + n - 1) with ((length l - n + n - 1) + 1 * n) by lia.
      rewrite Nat.div_add by lia. lia.
    + replace (length l - n) with 0 by lia. simpl.
      rewrite (Nat.div_small (n - 1)) by lia.
      replace (length l + n - 1) with ((length l - 1) + 1 * n) by lia.
      rewrite Nat.div_add by lia. rewrite Nat.div_small by lia. done.
Qed.

End chunking.

(** ** Playback: the stream, the chunks, the failures *)
Section playback_more.
Import audio.

Ltac st_unfold :=
  unfold mbind, ST_bind, mret, ST_ret, modify, get, lift, raise in *.

Lemma open_for_record h w :
  _open_audio_stream h true None None None w
  = match default_input h, default_output h with
    | Some i, Some o =>
        if grants h (capture_stream (self w) i o)
        then (Ok tt, opened (capture_stream (self w) i o) w)
        else (Raise (refusal h (capture_stream (self w) i o)), created w)
    | None, _ => (Raise (IOError "No Default Input Device Available"), created w)
    | Some _, None => (Raise (IOError "No Default Output Device Available"), created w)
    end.
Proof.
  unfold _open_audio_stream, pa_open, get_default_input_device_index,
    get_default_output_device_index, capture_stream, created, refusal.
  st_unfold.
  destruct (default_input h) as [i|]; [|reflexivity].
  destruct (default_output h) as [o|]; [|reflexivity].
  cbn. destruct (grants h _); [reflexivity|]. by destruct (_ <? 1)%Z.
Qed.

Lemma open_for_play h file index w :
  _open_audio_stream h false (Some file) None index w
  = match default_input h, resolve index (default_output h) with
    | Some i, Some o =>
        match get_format_from_width (wave.getsampwidth file) with
        | Ok fmt =>
            if grants h (playback_stream (self w) file fmt i o)
            then (Ok tt, opened (playback_stream (self w) file fmt i o) w)
            else (Raise (refusal h (playback_stream (self w) file fmt i o)), created w)
        | Raise e => (Raise e, created w)
        end
    | None, _ => (Raise (IOError "No Default Input Device Available"), created w)
    | Some _, None => (Raise (IOError "No Default Output Device Available"), created w)
    end.
Proof.
  unfold _open_audio_stream, pa_open, get_default_input_device_index,
    get_default_output_device_index, playback_stream, created, resolve, refusal.
  st_unfold.
  destruct (default_input h) as [i|]; [|reflexivity].
  destruct index as [o|]; [|destruct (default_output h) as [o|]; [|reflexivity]];
    cbn; (destruct (get_format_from_width _) as [fmt|e]; [|reflexivity]);
    cbn; (destruct (grants h _); [reflexivity|]); by destruct (_ <? 1)%Z.
Qed.

Lemma readframes_pos n r :
  (0 < n * wave.framesize r)%Z →
  wave.readframes n r
  = let data := take (Z.to_nat (n * wave.framesize r))
                  (drop (wave.r_pos r) (wave.payload (wave.r_file r))) in
    (data, {| wave.r_file := wave.r_file r; wave.r_pos := wave.r_pos r + length data |}).
Proof.
  intros Hpos. unfold wave.readframes.
  destruct (n =? 0)%Z eqn:Hn; [lia|].
  destruct (n * wave.framesize r <? 0)%Z eqn:Hs; [lia|]. reflexivity.
Qed.

Lemma drop_take_drop {A} (l : list A) p n :
  drop (p + length (take n (drop p l))) l = drop n (drop p l).
Proof.
  rewrite drop_drop, length_take, length_drop.
  destruct (decide (n ≤ length l - p)) as [Hle|Hgt].
  - f_equal. lia.
  - rewrite !drop_ge; [done|lia|lia].
Qed.

(** With every write accepted, the loop of [play] hands the rest of the
    payload to the stream in pieces of the chunk size. *)
Lemma read_play_chunks h st sz : ∀ fuel file w,
  audio_stream (self w) = Some st → st_closed st = false → st_output st = true →
  (∀ k, speaker_ok h k = true) →
  (0 < frames_per_buffer (self w) * wave.framesize file)%Z →
  sz = Z.to_nat (frames_per_buffer (self w) * wave.framesize file) →
  length (wave.payload (wave.r_file file)) - wave.r_pos file < fuel →
  let cs := chunks sz (drop (wave.r_pos file) (wave.payload (wave.r_file file))) in
  read_play h fuel file w = Some (Ok tt, after_writes (length cs) (ok_writes cs) w).
Proof.
  induction fuel as [|fuel IH]; intros file w Hst Hcl Hout Hspk Hpos Hsz Hfuel; [lia|].
  assert (Hn : 0 < sz) by lia.
  cbv zeta. unfold read_play. rewrite readframes_pos by done. cbv zeta. rewrite <- Hsz.
  set (rest := drop (wave.r_pos file) (wave.payload (wave.r_file file))).
  destruct rest as [|b rest'] eqn:Hrest.
  { rewrite take_nil. cbn [play_loop]. by rewrite chunks_nil, after_writes_0. }
  rewrite chunks_cons by done.
  assert (Hdata : take sz (b :: rest') = b :: take (sz - 1) rest').
  { destruct sz; [lia|]. simpl. by rewrite Nat.sub_0_r. }
  rewrite Hdata. cbn [play_loop]. rewrite <- Hdata.
  rewrite (stream_write_open _ _ _ st Hst Hcl Hout), Hspk.
  set (file1 := {| wave.r_file := _; wave.r_pos := _ |}).
  set (w1 := emit _ _).
  assert (Hrest1 : drop (wave.r_pos file1) (wave.payload (wave.r_file file1))
                   = drop sz (b :: rest')).
  { subst file1. cbn [wave.r_pos wave.r_file]. rewrite <- Hrest. apply drop_take_drop. }
  specialize (IH file1 w1 Hst Hcl Hout Hspk Hpos Hsz).
  cbv zeta in IH. rewrite Hrest1 in IH.
  change (read_play h fuel file1 w1
          = Some (Ok tt, after_writes (length (take sz (b :: rest') :: chunks sz (drop sz (b :: rest'))))
                           (ok_writes (take sz (b :: rest') :: chunks sz (drop sz (b :: rest')))) w)).
  rewrite IH.
  - f_equal. f_equal. unfold after_writes; simpl. f_equal; [lia|by rewrite <- app_assoc].
  - subst file1. cbn [wave.r_pos wave.r_file].
    assert (length (b :: rest') = length (wave.payload (wave.r_file file)) - wave.r_pos file)
      by (rewrite <- Hrest; subst rest; apply length_drop).
    rewrite length_take. simpl in *. lia.
Qed.

Lemma after_selection_frame h use_default w r wsel :
  after_selection h use_default w = (r, wsel) →
  ∃ rest mics spks,
    wsel = set_stdin rest (listed mics spks w)
    ∧ (use_default = true → wsel = w).
Proof.
  unfold after_selection. destruct use_default.
  - intros [= <- <-]. exists (stdin w), [], [].
    split; [|done]. rewrite listed_nil. by destruct w.
  - cbv zeta. destruct (select_loop _ _) as [r' rest]. intros [= <- <-].
    eexists _, _, _. split; [reflexivity|done].
Qed.

Lemma play_prologue_selection h use_default w :
  play_prologue h use_default w
  = match after_selection h use_default w with
    | (Raise e, wsel) => (Raise e, wsel)
    | (Ok index, wsel) =>
        match wave.open_read (filepath (self w)) (fs w !! filepath (self w)) with
        | Raise e => (Raise e, wsel)
        | Ok file =>
            match _open_audio_stream h false (Some file) None index wsel with
            | (Ok _, w2) => (Ok file, w2)
            | (Raise e, w2) => (Raise e, w2)
            end
        end
    end.
Proof.
  unfold play_prologue, after_selection. st_unfold. destruct use_default.
  - destruct (wave.open_read _ _); [|reflexivity].
    destruct (_open_audio_stream _ _ _ _ _ _) as [[[]|?] ?]; reflexivity.
  - rewrite select_device_spec. cbv zeta.
    destruct (select_loop _ _) as [[index|e] rest]; cbn; [|reflexivity].
    destruct (wave.open_read _ _); [|reflexivity].
    destruct (_open_audio_stream _ _ _ _ _ _) as [[[]|?] ?]; reflexivity.
Qed.

(** Every call of [play] returns, in one of the five ways. *)
Lemma play_outcomes h use_default w :
  ∃ r w', play h use_default w = Some (r, w') ∧ play_outcome h use_default w r w'.
Proof.
  rewrite play_unfold, play_prologue_selection.
  destruct (after_selection h use_default w) as [[index|e] wsel] eqn:Hsel;
    [|eexists _, _; split; [reflexivity|by eapply play_no_device]].
  destruct (wave.open_read _ _) as [file|e] eqn:Hopen;
    [|eexists _, _; split; [reflexivity|by eapply play_no_file]].
  pose proof (open_for_play h file index wsel) as Hstream.
  destruct (default_input h) as [i|] eqn:Hi;
    [|rewrite Hstream; eexists _, _; split; [reflexivity|by eapply play_no_stream]].
  destruct (resolve index (default_output h)) as [o|] eqn:Ho;
    [|rewrite Hstream; eexists _, _; split; [reflexivity|by eapply play_no_stream]].
  destruct (get_format_from_width _) as [fmt|e] eqn:Hfmt;
    [|rewrite Hstream; eexists _, _; split; [reflexivity|by eapply play_no_stream]].
  destruct (grants h _) eqn:Hg;
    [|rewrite Hstream; eexists _, _; split; [reflexivity|by eapply play_no_stream]].
  rewrite Hstream. set (st := playback_stream (self wsel) file fmt i o).
  unfold read_play.
  destruct (readframes_spec (frames_per_buffer (self (opened st wsel))) file) as [Hfile Hlen].
  destruct (wave.readframes _ file) as [data file1]. simpl in Hfile, Hlen.
  destruct (play_loop_spec h (S (length (wave.payload (wave.r_file file)))) file1 data
              (opened st wsel) st) as (r & w' & n & new & ds & Hrun & Hres); try done.
  { intros _. subst file1. simpl. lia. }
  rewrite Hrun. destruct Hres as [(-> & -> & ->)|(d & k & -> & -> & ->)].
  - eexists _, _. split; [reflexivity|]. by eapply play_done.
  - eexists _, _. split; [reflexivity|]. by eapply play_write_failed.
Qed.

Lemma open_read_ok path content file :
  wave.open_read path content = Ok file →
  ∃ f, content = Some (wave.WavFile f) ∧ file = {| wave.r_file := f; wave.r_pos := 0 |}
       ∧ wave.nchannels f ≠ 0%Z ∧ wave.sampwidth f ≠ 0%Z.
Proof.
  unfold wave.open_read. destruct content as [[f|format_tag|text|]|]; try discriminate.
  2:{ repeat case_match; discriminate. }
  destruct (wave.nchannels f =? 0)%Z eqn:E1; [discriminate|].
  destruct (wave.sampwidth f =? 0)%Z eqn:E2; [discriminate|].
  intros [= <-]. exists f. repeat split; lia.
Qed.

Lemma open_read_wav path f :
  wave.nchannels f ≠ 0%Z → wave.sampwidth f ≠ 0%Z →
  wave.open_read path (Some (wave.WavFile f)) = Ok {| wave.r_file := f; wave.r_pos := 0 |}.
Proof.
  intros H1 H2. unfold wave.open_read.
  destruct (wave.nchannels f =? 0)%Z eqn:E1; [lia|].
  destruct (wave.sampwidth f =? 0)%Z eqn:E2; [lia|]. done.
Qed.

Lemma get_format_from_width_invalid n :
  ¬ (1 ≤ n ≤ 4)%Z →
  get_format_from_width n = Raise (ValueError ("Invalid width: " +:+ pretty n)).
Proof.
  intros Hn. unfold get_format_from_width.
  destruct (n =? 1)%Z eqn:H1; [lia|]. destruct (n =? 2)%Z eqn:H2; [lia|].
  destruct (n =? 3)%Z eqn:H3; [lia|]. destruct (n =? 4)%Z eqn:H4; [lia|]. done.
Qed.

Lemma play_run h use_default w r w' r0 w0' :
  play h use_default w = Some (r, w') → play h use_default w = Some (r0, w0') →
  r0 = r ∧ w0' = w'.
Proof. intros -> [= -> ->]. done. Qed.

Lemma in_ok_writes e ds : e ∈ ok_writes ds → ∃ d, e = EvPlay d true.
Proof. unfold ok_writes. intros (d & -> & _)%list_elem_of_fmap. eauto. Qed.

(** X1: the stream [play] opens, whenever it opens one, is an output-only
    stream configured from the header of the file (format from the sample
    width, channels, frame rate), with the object's buffer size, whatever the
    object's own capture configuration; its output device is the host default
    when [use_default] is set and otherwise the id of a listed speaker typed
    at the prompt. *)
Theorem play_stream_from_header h use_default w r w' :
  play h use_default w = Some (r, w') →
  ∃ new, trace w' = trace w ++ new
    ∧ ∀ st, EvOpen st ∈ new →
        ∃ f fmt,
          fs w !! filepath (self w) = Some (wave.WavFile f)
          ∧ get_format_from_width (wave.sampwidth f) = Ok fmt
          ∧ st_format st = fmt
          ∧ st_channels st = wave.nchannels f
          ∧ st_rate st = wave.framerate f
          ∧ st_frames_per_buffer st = frames_per_buffer (self w)
          ∧ st_input st = false ∧ st_output st = true
          ∧ default_input h = Some (st_input_device_index st)
          ∧ (if use_default then default_output h = Some (st_output_device_index st)
             else st_output_device_index st
                  ∈ map id (speakers (self w) ++ host_speakers h)).
Proof.
  intros Hplay. destruct (play_outcomes h use_default w) as (r0 & w0' & Hplay0 & Hout).
  destruct (play_run _ _ _ _ _ _ _ Hplay Hplay0) as [-> ->]. clear Hplay0.
  assert (Hnone : ∀ wsel ri, after_selection h use_default w = (ri, wsel) →
                  trace wsel = trace w).
  { intros wsel ri Hsel.
    destruct (after_selection_frame _ _ _ _ _ Hsel) as (rest & m & sp & -> & _). done. }
  assert (Hsome : ∀ index wsel file fmt i o st,
            after_selection h use_default w = (Ok index, wsel) →
            wave.open_read (filepath (self w)) (fs w !! filepath (self w)) = Ok file →
            get_format_from_width (wave.getsampwidth file) = Ok fmt →
            default_input h = Some i → resolve index (default_output h) = Some o →
            st = playback_stream (self wsel) file fmt i o →
            ∃ f fmt,
              fs w !! filepath (self w) = Some (wave.WavFile f)
              ∧ get_format_from_width (wave.sampwidth f) = Ok fmt
              ∧ st_format st = fmt
              ∧ st_channels st = wave.nchannels f
              ∧ st_rate st = wave.framerate f
              ∧ st_frames_per_buffer st = frames_per_buffer (self w)
              ∧ st_input st = false ∧ st_output st = true
              ∧ default_input h = Some (st_input_device_index st)
              ∧ (if use_default then default_output h = Some (st_output_device_index st)
                 else st_output_device_index st
                      ∈ map id (speakers (self w) ++ host_speakers h))).
  { intros index wsel file fmt i o st Hsel Hopen Hfmt Hi Ho ->.
    destruct (open_read_ok _ _ _ Hopen) as (f & Hfile & -> & _).
    exists f, fmt. split; [done|]. split; [done|]. cbn.
    destruct (after_selection_frame _ _ _ _ _ Hsel) as (rest & m & sp & -> & _).
    repeat (split; [done|]).
    unfold after_selection in Hsel. destruct use_default.
    - injection Hsel as <- _. done.
    - cbv zeta in Hsel.
      change (speakers (self (listed (host_microphones h) (host_speakers h) w)))
        with (speakers (self w) ++ host_speakers h) in Hsel.
      destruct (select_loop _ _) as [[index'|e] rest'] eqn:Hloop; [|discriminate].
      injection Hsel as <- _. simpl in Ho. injection Ho as <-.
      by eapply select_loop_listed. }
  inversion Hout as [e wsel Hsel|index wsel e Hsel Hopen|index wsel file e Hsel Hopen Hstream
                    |index wsel file fmt i o n ds Hsel Hopen Hfmt Hi Ho st
                    |index wsel file fmt i o n ds d k Hsel Hopen Hfmt Hi Ho st]; subst.
  - exists []. rewrite app_nil_r. split; [simpl; by eapply Hnone|].
    by intros st ?%elem_of_nil.
  - exists []. rewrite app_nil_r. split; [simpl; by eapply Hnone|].
    by intros st ?%elem_of_nil.
  - exists []. rewrite app_nil_r. split; [simpl; by eapply Hnone|].
    by intros st ?%elem_of_nil.
  - exists ([EvOpen st] ++ ok_writes ds ++ [EvClose]). split.
    + simpl. rewrite (Hnone _ _ Hsel). by rewrite <- !app_assoc.
    + intros st'. rewrite !elem_of_app, !list_elem_of_singleton.
      intros [[= ->]|[Hin|[=]]]; [by eapply Hsome|].
      apply in_ok_writes in Hin as [d [=]].
  - exists ([EvOpen st] ++ ok_writes ds ++ [EvPlay d false]). split.
    + simpl. rewrite (Hnone _ _ Hsel). by rewrite <- !app_assoc.
    + intros st'. rewrite !elem_of_app, !list_elem_of_singleton.
      intros [[= ->]|[Hin|[=]]]; [by eapply Hsome|].
      apply in_ok_writes in Hin as [d' [=]].
Qed.

(** An instance: the headset selected for a one-chunk file. *)
Lemma play_stream_from_header_witness :
  let h := host3 [] never never in
  let w := {| self := small_Audio;
              fs := {[ "/app/recording.wav" := recording_of (chunk "a" 4) ]};
              stdin := [IntLine 2]; hw_reads := 0; hw_writes := 0; trace := [] |} in
  let w' := default w (snd <$> play h false w) in
  ∃ new, trace w' = trace w ++ new
    ∧ ∀ st, EvOpen st ∈ new →
        ∃ f fmt,
          fs w !! filepath (self w) = Some (wave.WavFile f)
          ∧ get_format_from_width (wave.sampwidth f) = Ok fmt
          ∧ st_format st = fmt
          ∧ st_channels st = wave.nchannels f
          ∧ st_rate st = wave.framerate f
          ∧ st_frames_per_buffer st = frames_per_buffer (self w)
          ∧ st_input st = false ∧ st_output st = true
          ∧ default_input h = Some (st_input_device_index st)
          ∧ (if false then default_output h = Some (st_output_device_index st)
             else st_output_device_index st
                  ∈ map id (speakers (self w) ++ host_speakers h)).
Proof.
  cbv zeta.
  apply (play_stream_from_header (host3 [] never never) false _ (Ok tt)).
  vm_compute. reflexivity.
Defined.

(** The facts about a file that [play] can play in full. *)
Lemma play_chunk_size_pos a f :
  (0 < wave.nchannels f)%Z → (1 ≤ wave.sampwidth f)%Z → (0 < frames_per_buffer a)%Z →
  0 < play_chunk_size a f.
Proof. intros H1 H2 H3. unfold play_chunk_size. nia. Qed.

(** X2: [play] with the default device, on a file with a positive channel
    count and a sample width of 1 to 4 bytes, with a positive buffer size and
    a host that opens the stream and accepts every write: the whole payload
    is written to the stream, in order, in chunks of frames_per_buffer frames
    (the last one possibly shorter, none empty), one hardware write per chunk,
    and then the stream is closed. *)
Theorem play_plays_whole_file h w f i o :
  fs w !! filepath (self w) = Some (wave.WavFile f) →
  (0 < wave.nchannels f)%Z → (1 ≤ wave.sampwidth f ≤ 4)%Z →
  (0 < frames_per_buffer (self w))%Z →
  default_input h = Some i → default_output h = Some o →
  (∀ s, grants h s = true) → (∀ k, speaker_ok h k = true) →
  ∃ w' st cs,
    play h true w = Some (Ok tt, w')
    ∧ trace w' = trace w ++ [EvOpen st] ++ ok_writes cs ++ [EvClose]
    ∧ join cs = wave.payload f
    ∧ Forall (λ c, 0 < length c ≤ play_chunk_size (self w) f) cs
    ∧ (∀ k c, cs !! k = Some c → S k < length cs →
         length c = play_chunk_size (self w) f)
    ∧ length cs
      = (length (wave.payload f) + play_chunk_size (self w) f - 1)
        / play_chunk_size (self w) f
    ∧ hw_writes w' = hw_writes w + length cs.
Proof.
  intros Hfile Hch Hsw Hfpb Hi Ho Hg Hspk.
  pose proof (play_chunk_size_pos (self w) f Hch ltac:(lia) Hfpb) as Hsz.
  destruct (get_format_from_width_ok (wave.sampwidth f) Hsw) as [fmt Hfmt].
  set (file := {| wave.r_file := f; wave.r_pos := 0 |}).
  set (st := playback_stream (self w) file fmt i o).
  set (cs := chunks (play_chunk_size (self w) f) (wave.payload f)).
  assert (Hpro : play_prologue h true w = (Ok file, opened st w)).
  { rewrite play_prologue_selection. unfold after_selection.
    rewrite Hfile, open_read_wav by lia. fold file.
    rewrite open_for_play, Hi. simpl. rewrite Ho.
    unfold wave.getsampwidth. simpl. rewrite Hfmt, Hg. done. }
  assert (Hrun : read_play h (S (length (wave.payload (wave.r_file file)))) file (opened st w)
                 = Some (Ok tt, after_writes (length cs) (ok_writes cs) (opened st w))).
  { apply (read_play_chunks h st (play_chunk_size (self w) f)); try done.
    - cbn. unfold wave.framesize, wave.getnchannels, wave.getsampwidth. cbn. nia.
    - cbn. lia. }
  exists (closed st (after_writes (length cs) (ok_writes cs) (opened st w))), st, cs.
  split; [rewrite play_unfold, Hpro, Hrun; reflexivity|].
  split; [simpl; by rewrite <- !app_assoc|].
  split; [by apply concat_chunks|].
  split; [by apply chunks_sizes|].
  split; [intros k c; by apply chunks_full|].
  split; [by apply length_chunks|]. done.
Qed.

(** An instance: ten bytes played in four-byte chunks. *)
Lemma play_plays_whole_file_witness :
  let h := host3 [] never never in
  let w := world_with_file small_Audio (chunk "a" 10) in
  let f := {| wave.nchannels := 1; wave.sampwidth := 2; wave.framerate := 16000;
              wave.payload := chunk "a" 10 |} in
  ∃ w' st cs,
    play h true w = Some (Ok tt, w')
    ∧ trace w' = trace w ++ [EvOpen st] ++ ok_writes cs ++ [EvClose]
    ∧ join cs = wave.payload f
    ∧ Forall (λ c, 0 < length c ≤ play_chunk_size (self w) f) cs
    ∧ (∀ k c, cs !! k = Some c → S k < length cs →
         length c = play_chunk_size (self w) f)
    ∧ length cs
      = (length (wave.payload f) + play_chunk_size (self w) f - 1)
        / play_chunk_size (self w) f
    ∧ hw_writes w' = hw_writes w + length cs.
Proof.
  cbv zeta.
  apply (play_plays_whole_file (host3 [] never never)
           (world_with_file small_Audio (chunk "a" 10)) _ 0%Z 1%Z).
  - vm_compute. reflexivity.
  - simpl; lia.
  - simpl; lia.
  - simpl; lia.
  - reflexivity.
  - reflexivity.
  - reflexivity.
  - reflexivity.
Defined.

(** The ten bytes go out as 4 + 4 + 2. *)
Example play_ten_bytes :
  let h := host3 [] never never in
  played (trace (default (world_with_file small_Audio [])
                   (snd <$> play h true (world_with_file small_Audio (chunk "a" 10)))))
  = [chunk "a" 4; chunk "a" 4; chunk "a" 2].
Proof. vm_compute. reflexivity. Qed.

End playback_more.

(** ** Playback: what it leaves alone, and its failures *)
Section playback_failures.
Import audio.

Ltac st_unfold :=
  unfold mbind, ST_bind, mret, ST_ret, modify, get, lift, raise in *.

(** X3: whatever way a call of [play] ends, it has not changed any file,
    the frame buffer, the recording flag, the configuration or path of the
    object, nor read from the capture hardware; with the default device it
    has not read the console nor changed the device lists either. *)
Theorem play_leaves_recording_state h use_default w r w' :
  play h use_default w = Some (r, w') →
  fs w' = fs w
  ∧ recorded_frames (self w') = recorded_frames (self w)
  ∧ recording (self w') = recording (self w)
  ∧ same_config (self w) (self w')
  ∧ hw_reads w' = hw_reads w
  ∧ (use_default = true →
     stdin w' = stdin w
     ∧ microphones (self w') = microphones (self w)
     ∧ speakers (self w') = speakers (self w)).
Proof.
  intros Hplay. destruct (play_outcomes h use_default w) as (r0 & w0' & Hplay0 & Hout).
  destruct (play_run _ _ _ _ _ _ _ Hplay Hplay0) as [-> ->]. clear Hplay0.
  inversion Hout as [e wsel Hsel|index wsel e Hsel Hopen|index wsel file e Hsel Hopen Hstream
                    |index wsel file fmt i o n ds Hsel Hopen Hfmt Hi Ho st
                    |index wsel file fmt i o n ds d k Hsel Hopen Hfmt Hi Ho st]; subst;
    destruct (after_selection_frame _ _ _ _ _ Hsel) as (rest & m & sp & Hw & Hdef);
    (split; [by rewrite Hw|]); (split; [by rewrite Hw|]); (split; [by rewrite Hw|]);
    (split; [by rewrite Hw|]); (split; [by rewrite Hw|]);
    intros Hud; rewrite (Hdef Hud); done.
Qed.

(** An instance: a playback that fails at its second write. *)
Lemma play_leaves_recording_state_witness :
  let h := host3 [] never (λ k, k =? 1) in
  let w := world_with_file small_Audio (chunk "a" 10) in
  let w' := default w (snd <$> play h true w) in
  fs w' = fs w
  ∧ recorded_frames (self w') = recorded_frames (self w)
  ∧ recording (self w') = recording (self w)
  ∧ same_config (self w) (self w')
  ∧ hw_reads w' = hw_reads w
  ∧ (true = true →
     stdin w' = stdin w
     ∧ microphones (self w') = microphones (self w)
     ∧ speakers (self w') = speakers (self w)).
Proof.
  cbv zeta.
  apply (play_leaves_recording_state (host3 [] never (λ k, k =? 1)) true _
           (Raise (IOError "Unanticipated host error"))).
  vm_compute. reflexivity.
Defined.

Lemma select_loop_error devs : ∀ lines e rest,
  select_loop devs lines = (Raise e, rest) → e = EOFError ∧ rest = [].
Proof.
  induction lines as [|[index|text] lines IH]; intros e rest; simpl.
  - by intros [= <- <-].
  - destruct (bool_decide _); [discriminate|]. apply IH.
  - apply IH.
Qed.

(** X4: when the file at the object's path cannot be opened as a wave file
    (it is missing, too short, not a wave file or not PCM), [play] raises
    without opening a stream or writing to the hardware, and leaves the
    object's stream and PyAudio attributes as they were. With the default
    device the error is the one of [wave.open] and the world is exactly as
    before. Without, the device prompt comes first: the devices are
    enumerated into the object's lists and console lines are consumed, and
    the error is the one of [wave.open] unless the console ran out before a
    listed speaker was chosen (EOFError). *)
Theorem play_unreadable_file h use_default w e :
  wave.open_read (filepath (self w)) (fs w !! filepath (self w)) = Raise e →
  ∃ e' w',
    play h use_default w = Some (Raise e', w')
    ∧ trace w' = trace w
    ∧ audio_stream (self w') = audio_stream (self w)
    ∧ pyaudio_obj (self w') = pyaudio_obj (self w)
    ∧ hw_writes w' = hw_writes w
    ∧ (use_default = true → e' = e ∧ w' = w)
    ∧ (use_default = false →
       (∃ rest, w' = set_stdin rest (listed (host_microphones h) (host_speakers h) w))
       ∧ (e' = e ∨ (e' = EOFError ∧ stdin w' = []))).
Proof.
  intros Hopen. rewrite play_unfold, play_prologue_selection, Hopen.
  destruct (after_selection h use_default w) as [[index|e0] wsel] eqn:Hsel;
    destruct (after_selection_frame _ _ _ _ _ Hsel) as (rest & m & sp & Hw & Hdef);
    eexists _, wsel; (split; [reflexivity|]);
    do 4 (split; [by rewrite Hw|]).
  - split; [intros Hud; by rewrite (Hdef Hud)|].
    intros ->. unfold after_selection in Hsel. cbv zeta in Hsel.
    destruct (select_loop _ _) as [r' rest']. injection Hsel as _ <-.
    split; [by eexists|by left].
  - split; [intros ->; discriminate Hsel|].
    intros ->. unfold after_selection in Hsel. cbv zeta in Hsel.
    destruct (select_loop _ _) as [[i|e1] rest'] eqn:Hloop; [discriminate|].
    injection Hsel as <- <-.
    apply select_loop_error in Hloop as [-> ->].
    split; [by eexists|by right].
Qed.

(** An instance: a text file at the path, and the headset chosen at the
    prompt. *)
Lemma play_unreadable_file_witness :
  let h := host3 [] never never in
  let w := {| self := small_Audio;
              fs := {[ "/app/recording.wav" := wave.TextFile "not a recording" ]};
              stdin := [IntLine 2]; hw_reads := 0; hw_writes := 0; trace := [] |} in
  ∃ e' w',
    play h false w = Some (Raise e', w')
    ∧ trace w' = trace w
    ∧ audio_stream (self w') = audio_stream (self w)
    ∧ pyaudio_obj (self w') = pyaudio_obj (self w)
    ∧ hw_writes w' = hw_writes w
    ∧ (false = true → e' = WaveError "file does not start with RIFF id" ∧ w' = w)
    ∧ (false = false →
       (∃ rest, w' = set_stdin rest (listed (host_microphones h) (host_speakers h) w))
       ∧ (e' = WaveError "file does not start with RIFF id"
          ∨ (e' = EOFError ∧ stdin w' = []))).
Proof.
  cbv zeta.
  apply (play_unreadable_file (host3 [] never never) false
           {| self := small_Audio;
              fs := {[ "/app/recording.wav" := wave.TextFile "not a recording" ]};
              stdin := [IntLine 2]; hw_reads := 0; hw_writes := 0; trace := [] |}).
  vm_compute. reflexivity.
Defined.

(** The errors of [wave.open] that [play] passes on with the default
    device: no file, a file of two bytes, a file that is no RIFF file, a
    file whose format is not PCM. *)
Example play_unreadable_files :
  let h := host3 [] never never in
  let w := fresh_world small_Audio [] in
  let holding f := set_file "/app/recording.wav" f w in
  play h true w = Some (Raise (FileNotFoundError "/app/recording.wav"), w)
  ∧ play h true (holding (wave.TextFile "RI"))
    = Some (Raise EOFError, holding (wave.TextFile "RI"))
  ∧ play h true (holding (wave.TextFile "not a recording"))
    = Some (Raise (WaveError "file does not start with RIFF id"),
            holding (wave.TextFile "not a recording"))
  ∧ play h true (holding (wave.NonPcmFile 6))
    = Some (Raise (WaveError "unknown format: 6"), holding (wave.NonPcmFile 6)).
Proof.
  cbv zeta.
  split; [vm_compute; reflexivity|]. split; [vm_compute; reflexivity|].
  split; vm_compute; reflexivity.
Qed.

(** X5: a file whose sample width is outside 1 to 4 bytes cannot be played:
    with default devices present, [play] raises the ValueError of
    [get_format_from_width], which names the width, after creating its
    PyAudio instance and before opening a stream; the instance is left as
    it is (nothing terminates it). *)
Theorem play_rejects_sample_width h w f i o :
  fs w !! filepath (self w) = Some (wave.WavFile f) →
  wave.nchannels f ≠ 0%Z → wave.sampwidth f ≠ 0%Z →
  ¬ (1 ≤ wave.sampwidth f ≤ 4)%Z →
  default_input h = Some i → default_output h = Some o →
  play h true w
  = Some (Raise (ValueError ("Invalid width: " +:+ pretty (wave.sampwidth f))), created w)
  ∧ pyaudio_obj (self (created w)) = Some true
  ∧ audio_stream (self (created w)) = audio_stream (self w)
  ∧ trace (created w) = trace w.
Proof.
  intros Hfile Hch Hsw Hrange Hi Ho. split; [|done].
  rewrite play_unfold, play_prologue_selection. unfold after_selection.
  rewrite Hfile, open_read_wav by done.
  rewrite open_for_play, Hi. simpl. rewrite Ho.
  unfold wave.getsampwidth. simpl.
  by rewrite get_format_from_width_invalid.
Qed.

(** An instance: eight-byte samples. *)
Lemma play_rejects_sample_width_witness :
  let h := host3 [] never never in
  let f := {| wave.nchannels := 1; wave.sampwidth := 8; wave.framerate := 16000;
              wave.payload := chunk "a" 16 |} in
  let w := {| self := small_Audio; fs := {[ "/app/recording.wav" := wave.WavFile f ]};
              stdin := []; hw_reads := 0; hw_writes := 0; trace := [] |} in
  play h true w = Some (Raise (ValueError "Invalid width: 8"), created w)
  ∧ pyaudio_obj (self (created w)) = Some true
  ∧ audio_stream (self (created w)) = audio_stream (self w)
  ∧ trace (created w) = trace w.
Proof.
  cbv zeta.
  apply (play_rejects_sample_width (host3 [] never never) _
           {| wave.nchannels := 1; wave.sampwidth := 8; wave.framerate := 16000;
              wave.payload := chunk "a" 16 |} 0%Z 1%Z).
  - vm_compute. reflexivity.
  - simpl; lia.
  - simpl; lia.
  - simpl; lia.
  - reflexivity.
  - reflexivity.
Defined.

(** X6: with a buffer size of 0 frames, or an empty payload, [play] opens
    the stream and closes it without a single write, and returns normally,
    whatever the length of the file in the first case. *)
Theorem play_without_a_write h w f i o fmt :
  fs w !! filepath (self w) = Some (wave.WavFile f) →
  wave.nchannels f ≠ 0%Z → wave.sampwidth f ≠ 0%Z →
  get_format_from_width (wave.sampwidth f) = Ok fmt →
  default_input h = Some i → default_output h = Some o →
  (∀ s, grants h s = true) →
  frames_per_buffer (self w) = 0%Z ∨ wave.payload f = [] →
  ∃ st,
    play h true w = Some (Ok tt, closed st (opened st w))
    ∧ trace (closed st (opened st w)) = trace w ++ [EvOpen st; EvClose]
    ∧ hw_writes (closed st (opened st w)) = hw_writes w.
Proof.
  intros Hfile Hch Hsw Hfmt Hi Ho Hg Hcase.
  set (file := {| wave.r_file := f; wave.r_pos := 0 |}).
  set (st := playback_stream (self w) file fmt i o).
  exists st. split; [|split; [simpl; by rewrite <- app_assoc|done]].
  assert (Hpro : play_prologue h true w = (Ok file, opened st w)).
  { rewrite play_prologue_selection. unfold after_selection.
    rewrite Hfile, open_read_wav by done. fold file.
    rewrite open_for_play, Hi. simpl. rewrite Ho.
    unfold wave.getsampwidth. simpl. rewrite Hfmt, Hg. done. }
  rewrite play_unfold, Hpro. unfold read_play.
  assert (Hdata : (wave.readframes (frames_per_buffer (self (opened st w))) file).1 = []).
  { destruct Hcase as [H0|Hnil].
    - cbn. rewrite H0. reflexivity.
    - apply readframes_end. simpl. by rewrite Hnil. }
  destruct (wave.readframes _ file) as [data file1]. simpl in Hdata. subst data.
  reflexivity.
Qed.

(** An instance: a ten-byte file and a buffer size of 0. *)
Lemma play_without_a_write_witness :
  let h := host3 [] never never in
  let w := world_with_file (__init__ "/app/recording.wav" 16000 1 paInt16 0)
             (chunk "a" 10) in
  ∃ st,
    play h true w = Some (Ok tt, closed st (opened st w))
    ∧ trace (closed st (opened st w)) = trace w ++ [EvOpen st; EvClose]
    ∧ hw_writes (closed st (opened st w)) = hw_writes w.
Proof.
  cbv zeta.
  apply (play_without_a_write (host3 [] never never) _
           {| wave.nchannels := 1; wave.sampwidth := 2; wave.framerate := 16000;
              wave.payload := chunk "a" 10 |} 0%Z 1%Z paInt16).
  - vm_compute. reflexivity.
  - simpl; lia.
  - simpl; lia.
  - reflexivity.
  - reflexivity.
  - reflexivity.
  - reflexivity.
  - left. reflexivity.
Defined.

End playback_failures.

(** ** Recording sessions: the hardware, the files, the stop signal *)
Section session_more.
Import audio.

Ltac st_unfold :=
  unfold mbind, ST_bind, mret, ST_ret, modify, get, lift, raise in *.

Lemma opens_snoc t e :
  opens (t ++ [e]) = opens t ++ match e with EvOpen st => [st] | _ => [] end.
Proof. unfold opens. rewrite omap_app. by destruct e. Qed.

Lemma late_reads_snoc t e : late_reads (t ++ [e]) = late_step (late_reads t) e.
Proof. unfold late_reads. by rewrite fold_left_app. Qed.

Lemma hw_chunks_S h frames r0 n :
  hw_chunks h frames r0 (S n)
  = hw_chunks h frames r0 n ++ [hw_data (mic h (r0 + n) frames)].
Proof. unfold hw_chunks. by rewrite seq_S, map_app. Qed.

Lemma length_hw_chunks h frames r0 n : length (hw_chunks h frames r0 n) = n.
Proof. unfold hw_chunks. by rewrite length_map, length_seq. Qed.

Lemma session_inv2_start h use_default w0 :
  session_inv2 h w0 (start_record use_default w0) [].
Proof.
  unfold session_inv2, hw_inv, fs_inv, late_inv, open_inv; simpl.
  repeat split; try done; try lia.
  - by intros ?%elem_of_nil.
Qed.

(** *** How each group fares under a step *)

Lemma captured_app t1 t2 : captured (t1 ++ t2) = captured t1 ++ captured t2.
Proof. apply omap_app. Qed.

Lemma opens_app t1 t2 : opens (t1 ++ t2) = opens t1 ++ opens t2.
Proof. apply omap_app. Qed.

Lemma late_reads_app t1 t2 :
  late_reads (t1 ++ t2) = fold_left late_step t2 (late_reads t1).
Proof. apply fold_left_app. Qed.

Lemma serializations_elem p t : EvSerialize p ∈ t ↔ p ∈ serializations t.
Proof.
  unfold serializations. rewrite list_elem_of_omap. split.
  - intros Hin. by exists (EvSerialize p).
  - intros (e & Hin & He). destruct e; try discriminate. by injection He as ->.
Qed.

Lemma serialize_before new evs p :
  serializations evs = [] → EvSerialize p ∈ new ++ evs → EvSerialize p ∈ new.
Proof.
  intros Hevs [?|Hin%serializations_elem]%elem_of_app; [done|].
  rewrite Hevs in Hin. by apply elem_of_nil in Hin.
Qed.

Lemma hw_inv_quiet h w0 s s' new evs :
  hw_inv h w0 s new → captured evs = [] →
  hw_reads (world s') = hw_reads (world s) →
  hw_writes (world s') = hw_writes (world s) →
  hw_inv h w0 s' (new ++ evs).
Proof.
  intros (Hr & Hc & Hw) Hp Hr' Hw'. unfold hw_inv.
  rewrite captured_app, Hp, app_nil_r, Hr', Hw'. done.
Qed.

Lemma fs_inv_quiet w0 s s' new evs :
  fs_inv w0 s new → serializations evs = [] →
  fs (world s') = fs (world s) →
  (coord s' = coord s
   ∧ (EvSerialize (filepath (self w0)) ∈ new → self (world s') = self (world s)))
  ∨ (coord s ≠ CReturned ∧ (∀ e, coord s ≠ CRaised e) ∧ coord s' ≠ CReturned) →
  fs_inv w0 s' (new ++ evs).
Proof.
  intros (H1 & H2 & H3 & H4) Hp Hfs Hc. unfold fs_inv. rewrite Hfs.
  split; [done|]. split.
  { intros Hnot. apply H2. intros Hin. apply Hnot, elem_of_app. by left. }
  split.
  - intros Hin%(serialize_before _ _ _ Hp).
    destruct Hc as [[-> Hself]|(Hr & He & _)]; [rewrite (Hself Hin); by apply H3|].
    destruct (H3 Hin) as [[? _]|(e & f & ? & _)]; [done|by destruct (He e)].
  - destruct Hc as [[-> _]|(_ & _ & Hr)]; [|done].
    intros Hin%H4. apply elem_of_app. by left.
Qed.

(** Once the history holds a serialization, the capture thread has ended. *)
Lemma serialized_terminated w0 s new path :
  session_inv w0 s new → EvSerialize path ∈ new → terminated (worker s) = true.
Proof.
  intros (_ & _ & _ & _ & _ & Hco & _) Hin.
  apply phase_not_serialized in Hin. unfold coord_inv in Hco.
  destruct (coord s); try tauto;
    try (destruct Hin as [Hb|[path' Hb]]; rewrite Hb in Hco;
         [|]; (intuition discriminate)).
Qed.

Lemma late_inv_quiet w0 s s' new evs :
  late_inv w0 s new → (∀ k, fold_left late_step evs k = k) →
  recording (self (world s')) = recording (self (world s)) →
  (worker s' = WReading → worker s = WReading ∨ recording (self (world s)) = true) →
  late_inv w0 s' (new ++ evs).
Proof.
  unfold late_inv. intros H Hp Hrec Hw. rewrite late_reads_app, Hp, Hrec.
  destruct (late_reads new) as [n|]; [|done].
  destruct H as (Hf & Hn & H1). split; [done|]. split; [done|].
  intros Hn1 Hw'. destruct (Hw Hw') as [?|?]; [by apply H1|congruence].
Qed.

Lemma open_inv_quiet h w0 s s' new evs :
  open_inv h w0 s new → opens evs = [] →
  (new = [] → evs = [] ∧ worker s' = WNotStarted
     ∧ match coord s' with CSelect _ | COpen _ | CRaised _ => True | _ => False end) →
  (new ≠ [] → match coord s' with CSelect _ | COpen _ => False | _ => True end) →
  open_inv h w0 s' (new ++ evs).
Proof.
  unfold open_inv. intros H Hp H0 H1. destruct new as [|e0 rest].
  - destruct H0 as (-> & ? & ?); done.
  - simpl. destruct H as (He & Hrest & _). split; [done|].
    split; [by rewrite opens_app, Hrest, Hp|]. by apply H1.
Qed.

(** A session that has an event has left the selection and the opening
    behind, and conversely the later statements have an event before them. *)
Lemma open_inv_nonempty h w0 s new :
  open_inv h w0 s new →
  match coord s with CSelect _ | COpen _ | CRaised _ => False | _ => True end
  ∨ worker s ≠ WNotStarted →
  new ≠ [].
Proof.
  intros Hop Hc ->. destruct Hop as [Hw Hco]. destruct Hc as [Hc|Hc]; [|done].
  by destruct (coord s).
Qed.

Lemma open_inv_early h w0 s new :
  open_inv h w0 s new →
  match coord s with CSelect _ | COpen _ => True | _ => False end →
  new = [].
Proof.
  intros Hop Hc. destruct new as [|e rest]; [done|].
  destruct Hop as (_ & _ & Hco). by destruct (coord s).
Qed.

Lemma open_inv_later h w0 s new :
  open_inv h w0 s new → new ≠ [] →
  match coord s with CSelect _ | COpen _ => False | _ => True end.
Proof. intros Hop Hne. destruct new as [|e rest]; [done|]. by destruct Hop as (_ & _ & ?). Qed.

(** A turn of the capture thread keeps the four groups. *)
Lemma worker_step_inv2 h w0 s s' new :
  session_inv w0 s new → session_inv2 h w0 s new → worker_step h s = Some s' →
  ∃ new', session_inv w0 s' new' ∧ session_inv2 h w0 s' new'.
Proof.
  intros Hinv (Hhw & Hfs & Hlate & Hop) Hstep.
  destruct (worker_step_inv h w0 s s' new Hinv Hstep) as [new' Hinv'].
  exists new'. split; [done|].
  pose proof Hinv as (Ht & Hcfg & Hfr & Hcap & Hnr & Hco & Hidle).
  pose proof Hinv' as (Ht' & _).
  assert (Hstarted : new ≠ []).
  { apply (open_inv_nonempty h w0 s new Hop). right. intros Hw.
    unfold worker_step in Hstep. rewrite Hw in Hstep. discriminate. }
  pose proof (open_inv_later h w0 s new Hop Hstarted) as Hlater.
  assert (Hnoser : EvSerialize (filepath (self w0)) ∉ new).
  { intros Hin%(serialized_terminated w0 s new _ Hinv).
    unfold worker_step in Hstep. by destruct (worker s). }
  unfold worker_step in Hstep.
  destruct s as [w c p]. cbn [world coord worker] in *.
  destruct p as [| | |d| |e]; try discriminate.
  - (* while self.recording *)
    injection Hstep as <-. cbn [world] in Ht'.
    assert (new' = new ++ []) as ->
      by (apply (app_inv_head (trace w0)); by rewrite <- Ht', app_nil_r).
    split; [by apply (hw_inv_quiet h w0 _ _ new [] Hhw)|].
    split; [apply (fs_inv_quiet w0 _ _ new [] Hfs); [done|done|left; by split]|].
    split.
    + apply (late_inv_quiet w0 _ _ new [] Hlate); [done|done|]. simpl.
      destruct (recording (self w)); [by right|done].
    + by apply (open_inv_quiet h w0 _ _ new [] Hop).
  - (* data = self.audio_stream.read(...) *)
    assert (Hopen : capture_open (self w)).
    { unfold coord_inv in Hco. cbn [world coord worker] in Hco.
      destruct c; try (destruct Hco as [Hw ?]; try discriminate Hw); try tauto.
      destruct Hco as [[_ [Hw|?]]|[Hw _]]; [discriminate Hw|done|discriminate Hw]. }
    rewrite (stream_read_open h _ w Hopen) in Hstep. injection Hstep as <-.
    cbn [world emit count_read trace] in Ht'.
    set (r := mic h (hw_reads w) (frames_per_buffer (self w))) in *.
    assert (new' = new ++ [EvRead (hw_data r) (hw_overflowed r)]) as ->
      by (apply (app_inv_head (trace w0)); by rewrite <- Ht', Ht, app_assoc).
    destruct Hhw as (Hr & Hc & Hw). cbn [world] in Hr, Hw.
    destruct Hcfg as (_ & _ & _ & _ & Hfpb).
    split; [|split; [|split]].
    + unfold hw_inv. cbn [world emit count_read hw_reads hw_writes].
      rewrite captured_snoc, length_app. simpl.
      split; [lia|]. split; [|done].
      rewrite Nat.add_1_r, hw_chunks_S, <- Hc. f_equal. subst r.
      by rewrite Hr, Hfpb.
    + destruct Hfs as (H1 & H2 & H3 & H4). cbn [world coord] in H1, H2, H3, H4.
      unfold fs_inv. cbn.
      split; [done|]. split.
      { intros Hnot. apply H2. intros Hin. apply Hnot, elem_of_app. by left. }
      split.
      * rewrite elem_of_app, list_elem_of_singleton. intros [Hin|[=]]. by apply H3.
      * intros Hin%H4. apply elem_of_app. by left.
    + unfold late_inv in *. rewrite late_reads_snoc. cbn.
      destruct (late_reads new) as [n|]; simpl; [|done].
      destruct Hlate as (Hf & Hn & H1). split; [done|].
      assert (n = 0) as -> by (destruct n as [|[|n]]; [done|by destruct H1|lia]).
      done.
    + unfold open_inv in *. destruct new as [|e0 rest]; [done|]. simpl.
      destruct Hop as (He & Hrest & Hc'). split; [done|]. split; [|done].
      by rewrite opens_snoc, Hrest.
  - (* self.recorded_frames.append(data) *)
    injection Hstep as <-. cbn [world emit with_self trace] in Ht'.
    assert (new' = new ++ [EvAppend d]) as ->
      by (apply (app_inv_head (trace w0)); by rewrite <- Ht', Ht, app_assoc).
    split; [by apply (hw_inv_quiet h w0 _ _ new _ Hhw)|].
    split; [apply (fs_inv_quiet w0 _ _ new _ Hfs); [done|done|left; by split]|].
    split.
    + apply (late_inv_quiet w0 _ _ new _ Hlate); [by intros [?|]|done|done].
    + by apply (open_inv_quiet h w0 _ _ new _ Hop).
Qed.

Lemma capture_stream_config a a' i o :
  same_config a a' → capture_stream a' i o = capture_stream a i o.
Proof.
  intros (_ & Hr & Hc & Hf & Hb). unfold capture_stream. by rewrite Hr, Hc, Hf, Hb.
Qed.

Ltac new_is w0 new' evs Ht Ht' :=
  assert (new' = evs) as ->
    by (apply (app_inv_head (trace w0)); rewrite <- Ht'; cbn;
        rewrite ?Ht, ?app_nil_r, <- ?app_assoc; reflexivity).

(** A turn of the coordinating thread keeps the four groups. *)
Lemma coord_step_inv2 h w0 s s' new :
  session_inv w0 s new → session_inv2 h w0 s new → coord_step h s = Some s' →
  ∃ new', session_inv w0 s' new' ∧ session_inv2 h w0 s' new'.
Proof.
  intros Hinv (Hhw & Hfs & Hlate & Hop) Hstep.
  destruct (coord_step_inv h w0 s s' new Hinv Hstep) as [new' Hinv'].
  exists new'. split; [done|].
  pose proof Hinv as (Ht & Hcfg & Hfr & Hcap & Hnr & Hco & Hidle).
  pose proof Hinv' as (Ht' & _).
  unfold coord_step, coord_run in Hstep.
  destruct s as [w c p]. cbn [world coord worker] in *.
  unfold coord_inv in Hco. cbn [world coord worker] in Hco.
  destruct c as [use_default|device_index| | | | | | | | |e]; try discriminate.
  - (* device selection *)
    destruct Hco as [Hp _].
    pose proof (open_inv_early h w0 _ new Hop I) as Hnil.
    destruct use_default.
    + injection Hstep as <-. new_is w0 new' (new ++ []) Ht Ht'.
      split; [by apply (hw_inv_quiet h w0 _ _ new [] Hhw)|].
      split; [apply (fs_inv_quiet w0 _ _ new [] Hfs); [done|done|by right]|].
      split; [apply (late_inv_quiet w0 _ _ new [] Hlate); [done|done|by left]|].
      apply (open_inv_quiet h w0 _ _ new [] Hop); [done|done|by intros []].
    + st_unfold. rewrite select_device_spec in Hstep. cbv zeta in Hstep.
      destruct (select_loop _ _) as [[index|e] rest]; simpl in Hstep;
        injection Hstep as <-; new_is w0 new' (new ++ []) Ht Ht';
        (split; [by apply (hw_inv_quiet h w0 _ _ new [] Hhw)|]);
        (split; [apply (fs_inv_quiet w0 _ _ new [] Hfs); [done|done|by right]|]);
        (split; [apply (late_inv_quiet w0 _ _ new [] Hlate); [done|done|by left]|]);
        (apply (open_inv_quiet h w0 _ _ new [] Hop); [done|done|by intros []]).
  - (* self._open_audio_stream() *)
    destruct Hco as [Hp _].
    pose proof (open_inv_early h w0 _ new Hop I) as Hnil.
    rewrite open_for_record in Hstep.
    destruct (default_input h) as [i|] eqn:Hi;
      [destruct (default_output h) as [o|] eqn:Ho;
       [destruct (grants h (capture_stream (self w) i o)) eqn:Hg|]|].
    + injection Hstep as <-.
      new_is w0 new' (new ++ [EvOpen (capture_stream (self w) i o)]) Ht Ht'.
      split; [by apply (hw_inv_quiet h w0 _ _ new _ Hhw)|].
      split; [apply (fs_inv_quiet w0 _ _ new _ Hfs); [done|done|by right]|].
      split; [apply (late_inv_quiet w0 _ _ new _ Hlate); [by intros [?|]|done|by left]|].
      rewrite Hnil. unfold open_inv. simpl. split; [|done].
      exists i, o. rewrite <- (capture_stream_config _ _ i o Hcfg). done.
    + injection Hstep as <-. new_is w0 new' (new ++ []) Ht Ht'.
      split; [by apply (hw_inv_quiet h w0 _ _ new [] Hhw)|].
      split; [apply (fs_inv_quiet w0 _ _ new [] Hfs); [done|done|by right]|].
      split; [apply (late_inv_quiet w0 _ _ new [] Hlate); [done|done|by left]|].
      apply (open_inv_quiet h w0 _ _ new [] Hop); [done|done|by intros []].
    + injection Hstep as <-. new_is w0 new' (new ++ []) Ht Ht'.
      split; [by apply (hw_inv_quiet h w0 _ _ new [] Hhw)|].
      split; [apply (fs_inv_quiet w0 _ _ new [] Hfs); [done|done|by right]|].
      split; [apply (late_inv_quiet w0 _ _ new [] Hlate); [done|done|by left]|].
      apply (open_inv_quiet h w0 _ _ new [] Hop); [done|done|by intros []].
    + injection Hstep as <-. new_is w0 new' (new ++ []) Ht Ht'.
      split; [by apply (hw_inv_quiet h w0 _ _ new [] Hhw)|].
      split; [apply (fs_inv_quiet w0 _ _ new [] Hfs); [done|done|by right]|].
      split; [apply (late_inv_quiet w0 _ _ new [] Hlate); [done|done|by left]|].
      apply (open_inv_quiet h w0 _ _ new [] Hop); [done|done|by intros []].
  - (* input('Press <ENTER> to start recording...') *)
    assert (Hne : new ≠ []) by (apply (open_inv_nonempty h w0 _ new Hop); by left).
    destruct (input_spec w) as (r & rest & Hin & _). rewrite Hin in Hstep.
    destruct r as [l|e]; injection Hstep as <-; new_is w0 new' (new ++ []) Ht Ht';
      (split; [by apply (hw_inv_quiet h w0 _ _ new [] Hhw)|]);
      (split; [apply (fs_inv_quiet w0 _ _ new [] Hfs); [done|done|by right]|]);
      (split; [apply (late_inv_quiet w0 _ _ new [] Hlate); [done|done|by left]|]);
      (apply (open_inv_quiet h w0 _ _ new [] Hop); [done|by intros ?|done]).
  - (* thread.start() *)
    assert (Hne : new ≠ []) by (apply (open_inv_nonempty h w0 _ new Hop); by left).
    injection Hstep as <-. new_is w0 new' (new ++ [EvSpawn]) Ht Ht'.
    split; [by apply (hw_inv_quiet h w0 _ _ new _ Hhw)|].
    split; [apply (fs_inv_quiet w0 _ _ new _ Hfs); [done|done|by right]|].
    split; [apply (late_inv_quiet w0 _ _ new _ Hlate); [by intros [?|]|done|done]|].
    apply (open_inv_quiet h w0 _ _ new _ Hop); [done|by intros ?|done].
  - (* input('Press <ENTER> to stop the recording') *)
    assert (Hne : new ≠ []) by (apply (open_inv_nonempty h w0 _ new Hop); by left).
    destruct (input_spec w) as (r & rest & Hin & _). rewrite Hin in Hstep.
    destruct r as [l|e]; injection Hstep as <-; new_is w0 new' (new ++ []) Ht Ht';
      (split; [by apply (hw_inv_quiet h w0 _ _ new [] Hhw)|]);
      (split; [apply (fs_inv_quiet w0 _ _ new [] Hfs); [done|done|by right]|]);
      (split; [apply (late_inv_quiet w0 _ _ new [] Hlate); [done|done|by left]|]);
      (apply (open_inv_quiet h w0 _ _ new [] Hop); [done|by intros ?|done]).
  - (* self.recording = False *)
    assert (Hne : new ≠ []) by (apply (open_inv_nonempty h w0 _ new Hop); by left).
    st_unfold. injection Hstep as <-. new_is w0 new' (new ++ [EvStop]) Ht Ht'.
    split; [by apply (hw_inv_quiet h w0 _ _ new _ Hhw)|].
    split; [apply (fs_inv_quiet w0 _ _ new _ Hfs); [done|done|by right]|].
    split; [|apply (open_inv_quiet h w0 _ _ new _ Hop); [done|by intros ?|done]].
    unfold late_inv. rewrite late_reads_snoc. simpl.
    destruct (late_reads new); simpl; (split; [done|split; [lia|done]]).
  - (* thread.join() *)
    assert (Hne : new ≠ []) by (apply (open_inv_nonempty h w0 _ new Hop); by left).
    destruct (terminated p) eqn:Hterm; [|discriminate]. st_unfold.
    injection Hstep as <-. new_is w0 new' (new ++ [EvJoin]) Ht Ht'.
    split; [by apply (hw_inv_quiet h w0 _ _ new _ Hhw)|].
    split; [apply (fs_inv_quiet w0 _ _ new _ Hfs); [done|done|by right]|].
    split; [apply (late_inv_quiet w0 _ _ new _ Hlate); [by intros [?|]|done|by left]|].
    apply (open_inv_quiet h w0 _ _ new _ Hop); [done|by intros ?|done].
  - (* self._close_audio_stream() *)
    assert (Hne : new ≠ []) by (apply (open_inv_nonempty h w0 _ new Hop); by left).
    destruct Hco as (Hterm & Hopen & Hrec & Hph).
    destruct Hopen as (st & Hst & Hcl & Hin & [po Hpo]).
    rewrite (close_audio_stream_spec w st po Hst Hpo) in Hstep. injection Hstep as <-.
    new_is w0 new' (new ++ [EvClose]) Ht Ht'.
    split; [by apply (hw_inv_quiet h w0 _ _ new _ Hhw)|].
    split; [apply (fs_inv_quiet w0 _ _ new _ Hfs); [done|done|by right]|].
    split; [apply (late_inv_quiet w0 _ _ new _ Hlate); [by intros [?|]|done|by left]|].
    apply (open_inv_quiet h w0 _ _ new _ Hop); [done|by intros ?|done].
  - (* self._write_to_file() *)
    assert (Hne : new ≠ []) by (apply (open_inv_nonempty h w0 _ new Hop); by left).
    pose proof Hcfg as (Hpath & _).
    pose proof (write_to_file_spec w) as Hspec.
    destruct Hfs as (H1 & H2 & H3 & H4). cbn [world coord] in H1, H2, H3, H4.
    destruct (_write_to_file w) as [[[]|e] w1]; injection Hstep as <-.
    + destruct Hspec as (width & Hw & Hch & Hsr & -> & Hlim).
      new_is w0 new' (new ++ [EvSerialize (filepath (self w))]) Ht Ht'.
      split; [by apply (hw_inv_quiet h w0 _ _ new _ Hhw)|].
      split; [|split;
        [apply (late_inv_quiet w0 _ _ new _ Hlate); [by intros [?|]|done|by left]
        |apply (open_inv_quiet h w0 _ _ new _ Hop); [done|by intros ?|done]]].
      unfold fs_inv, serialized, unfinished. cbn. rewrite Hpath.
      split; [intros q Hq; rewrite !lookup_insert_ne by done; by apply H1|].
      split; [intros Hnot; destruct Hnot; apply elem_of_app; right; by left|].
      split; [|intros _; apply elem_of_app; right; by left].
      intros _. left. split; [done|]. exists width.
      split; [done|]. split; [|done]. unfold valid_config. by rewrite Hw.
    + destruct Hspec as (f & -> & Hfail).
      new_is w0 new' (new ++ [EvSerialize (filepath (self w))]) Ht Ht'.
      split; [by apply (hw_inv_quiet h w0 _ _ new _ Hhw)|].
      split; [|split;
        [apply (late_inv_quiet w0 _ _ new _ Hlate); [by intros [?|]|done|by left]
        |apply (open_inv_quiet h w0 _ _ new _ Hop); [done|by intros ?|done]]].
      unfold fs_inv, unfinished. cbn. rewrite Hpath.
      split; [intros q Hq; rewrite lookup_insert_ne by done; by apply H1|].
      split; [intros Hnot; destruct Hnot; apply elem_of_app; right; by left|].
      split; [|done].
      intros _. right. exists e, f. split; [done|]. split; [apply lookup_insert_eq|done].
Qed.

Lemma step_inv2 h t w0 s s' new :
  session_inv w0 s new → session_inv2 h w0 s new → step h t s = Some s' →
  ∃ new', session_inv w0 s' new' ∧ session_inv2 h w0 s' new'.
Proof. destruct t; [apply coord_step_inv2|apply worker_step_inv2]. Qed.

Lemma run_inv2 h schedule : ∀ w0 s s' new,
  session_inv w0 s new → session_inv2 h w0 s new → run h schedule s = Some s' →
  ∃ new', session_inv w0 s' new' ∧ session_inv2 h w0 s' new'.
Proof.
  induction schedule as [|t schedule IH]; intros w0 s s' new Hinv Hinv2 Hrun;
    simpl in Hrun.
  - injection Hrun as <-. eauto.
  - destruct (step h t s) as [s1|] eqn:Hstep; [|discriminate].
    destruct (step_inv2 h t w0 s s1 new Hinv Hinv2 Hstep) as (new1 & Hinv1 & Hinv21).
    eauto.
Qed.

(** Every state a schedule reaches from the start of [record] satisfies
    both invariants, for the events the session has added. *)
Lemma record_inv2 h use_default schedule w0 s :
  run h schedule (start_record use_default w0) = Some s →
  ∃ new, session_inv w0 s new ∧ session_inv2 h w0 s new.
Proof.
  intros Hrun.
  exact (run_inv2 h schedule w0 _ s [] (session_inv_start use_default w0)
           (session_inv2_start h use_default w0) Hrun).
Qed.

End session_more.

(** ** Recording sessions: what the second invariant gives *)
Section record_more.
Import audio.

Lemma fold_late_no_stop post : ∀ k,
  EvStop ∉ post →
  fold_left late_step post (Some k) = Some (k + length (captured post)).
Proof.
  induction post as [|e post IH]; intros k Hno; simpl; [by rewrite Nat.add_0_r|].
  apply not_elem_of_cons in Hno as [He Hno].
  destruct e; try done; simpl; rewrite IH by done; try done.
  unfold captured; simpl. f_equal. lia.
Qed.

Lemma late_reads_after pre post :
  EvStop ∉ post → late_reads (pre ++ EvStop :: post) = Some (length (captured post)).
Proof.
  intros Hno. rewrite late_reads_app. simpl.
  replace (late_step (late_reads pre) EvStop) with (Some 0)
    by by destruct (late_reads pre).
  by rewrite fold_late_no_stop.
Qed.

Lemma phase_bad t : fold_left next_phase t PBad = PBad.
Proof. induction t as [|e t IH]; [done|]. simpl. by destruct e. Qed.

Lemma phase_second_stop post : ∀ p,
  p ≠ PSetup → EvStop ∈ post → fold_left next_phase post p = PBad.
Proof.
  induction post as [|e post IH]; intros p Hp Hin; [by apply elem_of_nil in Hin|].
  simpl. apply elem_of_cons in Hin as [<-|Hin].
  - replace (next_phase p EvStop) with PBad by by destruct p.
    apply phase_bad.
  - apply IH; [|done]. by destruct p, e.
Qed.

(** A session has one stop signal at most. *)
Lemma one_stop pre post :
  phase_of (pre ++ EvStop :: post) ≠ PBad → EvStop ∉ post.
Proof.
  intros Hph Hin. apply Hph. unfold phase_of. rewrite fold_left_app. simpl.
  apply phase_second_stop; [|done]. by destruct (fold_left next_phase pre PSetup).
Qed.

Lemma session_phase_ok s new : coord_inv s new → phase_of new ≠ PBad.
Proof.
  intros [(Hph & _)|(_ & Hbad & _)]%coord_inv_phase; [by rewrite Hph|done].
Qed.

Lemma hw_chunks_cons h frames r0 n :
  hw_chunks h frames r0 (S n)
  = hw_data (mic h r0 frames) :: hw_chunks h frames (S r0) n.
Proof.
  unfold hw_chunks. simpl. rewrite Nat.add_0_r. f_equal.
  rewrite <- seq_shift, map_map. apply map_ext. intros k. f_equal. f_equal. lia.
Qed.

(** X7: the buffer and the hardware. In every state of every run of
    [record], the frame buffer, with the chunk the capture thread may be
    holding, is the buffer the object had at the start followed by the
    chunks the hardware delivered to the reads made so far; these reads are
    consecutive hardware reads of [frames_per_buffer] frames each, so no
    chunk is dropped, duplicated or reordered on its way to the buffer.
    Nothing is written to the hardware. *)
Theorem record_buffers_every_read h use_default schedule w0 s :
  run h schedule (start_record use_default w0) = Some s →
  ∃ n,
    hw_reads (world s) = hw_reads w0 + n
    ∧ recorded_frames (self (world s)) ++ pending (worker s)
      = recorded_frames (self w0)
        ++ hw_chunks h (frames_per_buffer (self w0)) (hw_reads w0) n
    ∧ hw_writes (world s) = hw_writes w0.
Proof.
  intros Hrun.
  destruct (record_inv2 h use_default schedule w0 s Hrun)
    as (new & (Ht & Hcfg & Hfr & Hcap & _) & (Hr & Hc & Hw) & _).
  exists (length (captured new)). split; [done|]. split; [|done].
  by rewrite Hfr, <- app_assoc, <- Hcap, <- Hc.
Qed.

(** An instance: a session of two chunks, stopped while the second is held. *)
Lemma record_buffers_every_read_witness :
  let h := host3 (chunk "a" 4) never never in
  let w0 := fresh_world small_Audio [enter; enter] in
  let schedule := repeat Coordinator 4 ++ repeat Capture 5 in
  let s := final h schedule (start_record true w0) in
  ∃ n,
    hw_reads (world s) = hw_reads w0 + n
    ∧ recorded_frames (self (world s)) ++ pending (worker s)
      = recorded_frames (self w0)
        ++ hw_chunks h (frames_per_buffer (self w0)) (hw_reads w0) n
    ∧ hw_writes (world s) = hw_writes w0.
Proof.
  cbv zeta.
  apply (record_buffers_every_read (host3 (chunk "a" 4) never never) true
           (repeat Coordinator 4 ++ repeat Capture 5)).
  vm_compute. reflexivity.
Defined.

(** X8: the files. [record] never touches a file other than the one at
    the object's path, and touches that one only in its last statement:
    while the call is under way the files are as they were; when the call
    has returned the file holds the container of the whole buffer, whose
    block size, byte rate and length the header can hold; when it has
    raised, either no file has changed, or [_write_to_file] has failed and
    the file at the path is what its failure leaves, which takes a host
    that granted the capture stream of the object's configuration. *)
Theorem record_changes_only_its_file h use_default schedule w0 s :
  run h schedule (start_record use_default w0) = Some s →
  (∀ p, p ≠ filepath (self w0) → fs (world s) !! p = fs w0 !! p)
  ∧ match coord s with
    | CReturned =>
        ∃ width, get_sample_size (format (self w0)) = Ok width
          ∧ fs (world s)
            = <[filepath (self w0) := wave.WavFile (wav_of (self (world s)) width)]>
                (fs w0)
          ∧ container_limits (self (world s)) width
    | CRaised e =>
        fs (world s) = fs w0
        ∨ (∃ f i o, fs (world s) = <[filepath (self w0) := f]> (fs w0)
             ∧ write_failure (self (world s)) e f
             ∧ grants h (capture_stream (self w0) i o) = true)
    | _ => fs (world s) = fs w0
    end.
Proof.
  intros Hrun.
  destruct (record_inv2 h use_default schedule w0 s Hrun)
    as (new & (Ht & Hcfg & _ & _ & _ & Hco & _) & _ & (H1 & H2 & H3 & H4) & _ & Hop).
  split; [done|].
  assert (Hrunning : coord s ≠ CReturned → (∀ e, coord s ≠ CRaised e) →
                     fs (world s) = fs w0).
  { intros Hr He. apply H2. intros Hin.
    destruct (H3 Hin) as [[? _]|(e & f & ? & _)]; [done|by destruct (He e)]. }
  assert (Hmap : ∀ f, fs (world s) !! filepath (self w0) = Some f →
                 fs (world s) = <[filepath (self w0) := f]> (fs w0)).
  { intros f Hf. apply map_eq. intros p.
    destruct (decide (p = filepath (self w0))) as [->|Hp].
    - by rewrite lookup_insert_eq.
    - rewrite lookup_insert_ne by done. by apply H1. }
  destruct (coord s) eqn:Hc; try (by apply Hrunning).
  - unfold coord_inv in Hco. rewrite Hc in Hco.
    destruct Hco as (_ & _ & _ & _ & width & Hw & Hfile).
    destruct Hcfg as (Hpath & _ & _ & Hfmt & _). rewrite Hpath in Hfile.
    exists width. split; [by rewrite <- Hfmt|]. split; [by apply Hmap|].
    destruct (H3 (H4 eq_refl)) as [(_ & width' & Hw' & _ & Hlim)|(e' & f & ? & _)];
      [|done].
    by assert (width = width') as -> by congruence.
  - destruct (decide (filepath (self w0) ∈ serializations new)) as [Hin|Hnot].
    + apply serializations_elem in Hin.
      destruct (H3 Hin) as [[? _]|(e' & f & [= <-] & Hf & Hfail)]; [done|].
      unfold open_inv in Hop. destruct new as [|e0 rest]; [by apply elem_of_nil in Hin|].
      destruct Hop as ((i & o & _ & _ & Hg & _) & _).
      right. exists f, i, o. split; [by apply Hmap|done].
    + left. apply H2. by rewrite serializations_elem.
Qed.

(** An instance: a completed session of one chunk. *)
Lemma record_changes_only_its_file_witness :
  let h := host3 (chunk "a" 4) never never in
  let w0 := fresh_world small_Audio [enter; enter] in
  let s := final h (capture_schedule 1) (start_record true w0) in
  (∀ p, p ≠ filepath (self w0) → fs (world s) !! p = fs w0 !! p)
  ∧ match coord s with
    | CReturned =>
        ∃ width, get_sample_size (format (self w0)) = Ok width
          ∧ fs (world s)
            = <[filepath (self w0) := wave.WavFile (wav_of (self (world s)) width)]>
                (fs w0)
          ∧ container_limits (self (world s)) width
    | CRaised e =>
        fs (world s) = fs w0
        ∨ (∃ f i o, fs (world s) = <[filepath (self w0) := f]> (fs w0)
             ∧ write_failure (self (world s)) e f
             ∧ grants h (capture_stream (self w0) i o) = true)
    | _ => fs (world s) = fs w0
    end.
Proof.
  cbv zeta.
  apply (record_changes_only_its_file (host3 (chunk "a" 4) never never) true
           (capture_schedule 1)).
  vm_compute. reflexivity.
Defined.

(** X9: the last statement decides the outcome. A run of [record] reaches
    [_write_to_file] only on a host that granted the capture stream of the
    object's configuration; the buffer then holds the old frames followed by
    every chunk captured; and the call has returned, with a configuration
    [wave] accepts and a container the header can hold at the path, or it
    has raised the error of a failed write, with the file that failure
    leaves at the path. *)
Theorem record_outcome_at_serialization h use_default schedule w0 s new :
  run h schedule (start_record use_default w0) = Some s →
  trace (world s) = trace w0 ++ new →
  EvSerialize (filepath (self w0)) ∈ new →
  (∃ i o, default_input h = Some i ∧ default_output h = Some o
     ∧ grants h (capture_stream (self w0) i o) = true)
  ∧ recorded_frames (self (world s)) = recorded_frames (self w0) ++ captured new
  ∧ ((∃ width,
        coord s = CReturned
        ∧ get_sample_size (format (self w0)) = Ok width
        ∧ valid_config (self w0)
        ∧ container_limits (self (world s)) width
        ∧ fs (world s) !! filepath (self w0)
          = Some (wave.WavFile (wav_of (self (world s)) width)))
     ∨ (∃ e f,
          coord s = CRaised e
          ∧ write_failure (self (world s)) e f
          ∧ fs (world s) !! filepath (self w0) = Some f)).
Proof.
  intros Hrun Htrace Hin.
  destruct (record_inv2 h use_default schedule w0 s Hrun)
    as (new' & Hinv & _ & (_ & _ & H3 & _) & _ & Hop).
  pose proof Hinv as (Ht & Hcfg & Hfr & Hcap & Hnr & Hco & _).
  assert (new' = new) as ->
    by (apply (app_inv_head (trace w0)); by rewrite <- Ht, Htrace).
  split; [|split].
  - unfold open_inv in Hop. destruct new as [|e0 rest]; [by apply elem_of_nil in Hin|].
    destruct Hop as ((i & o & Hi & Ho & Hg & _) & _). by exists i, o.
  - pose proof (serialized_terminated w0 s new _ Hinv Hin) as Hterm.
    rewrite Hfr, Hcap.
    destruct (worker s); try discriminate; simpl; [by rewrite app_nil_r|by destruct Hnr].
  - destruct (H3 Hin) as [(Hc & width & Hw & Hv & Hlim)|(e & f & Hc & Hf & Hfail)].
    + left. exists width. unfold coord_inv in Hco. rewrite Hc in Hco.
      destruct Hco as (_ & _ & _ & _ & width' & Hw' & Hfile).
      assert (width' = width) as -> by congruence.
      destruct Hcfg as (Hpath & Hrate & Hch & Hfmt & Hfpb).
      split; [done|]. split; [by rewrite <- Hfmt|].
      split; [unfold valid_config in *; by rewrite <- Hfmt, <- Hch, <- Hrate|].
      split; [done|]. by rewrite <- Hpath.
    + right. by exists e, f.
Qed.

(** An instance: a completed session of one chunk, recorded over an old
    file. *)
Lemma record_outcome_at_serialization_witness :
  let h := host3 (chunk "a" 4) never never in
  let w0 := {| self := small_Audio;
               fs := {[ "/app/recording.wav" := recording_of (chunk "b" 8) ]};
               stdin := [enter; enter]; hw_reads := 0; hw_writes := 0; trace := [] |} in
  let s := final h (capture_schedule 1) (start_record true w0) in
  let new := trace (world s) in
  (∃ i o, default_input h = Some i ∧ default_output h = Some o
     ∧ grants h (capture_stream (self w0) i o) = true)
  ∧ recorded_frames (self (world s)) = recorded_frames (self w0) ++ captured new
  ∧ ((∃ width,
        coord s = CReturned
        ∧ get_sample_size (format (self w0)) = Ok width
        ∧ valid_config (self w0)
        ∧ container_limits (self (world s)) width
        ∧ fs (world s) !! filepath (self w0)
          = Some (wave.WavFile (wav_of (self (world s)) width)))
     ∨ (∃ e f,
          coord s = CRaised e
          ∧ write_failure (self (world s)) e f
          ∧ fs (world s) !! filepath (self w0) = Some f)).
Proof.
  cbv zeta.
  apply (record_outcome_at_serialization (host3 (chunk "a" 4) never never) true
           (capture_schedule 1)).
  - vm_compute. reflexivity.
  - exact (eq_sym (app_nil_l _)).
  - vm_compute. do 7 right. left.
Defined.

(** The session of the instance returns, and the old file is replaced by
    the container of the chunk captured. *)
Example record_over_an_old_file :
  let h := host3 (chunk "a" 4) never never in
  let w0 := {| self := small_Audio;
               fs := {[ "/app/recording.wav" := recording_of (chunk "b" 8) ]};
               stdin := [enter; enter]; hw_reads := 0; hw_writes := 0; trace := [] |} in
  let s := final h (capture_schedule 1) (start_record true w0) in
  coord s = CReturned
  ∧ fs (world s) !! "/app/recording.wav" = Some (recording_of (chunk "a" 4))
  ∧ recorded_frames (self (world s)) = [chunk "a" 4].
Proof.
  cbv zeta. set (s := final _ _ _). vm_compute in s. subst s.
  split; [reflexivity|]. split; reflexivity.
Qed.

(** X10: the stop signal. In every run of [record], under every schedule,
    the capture thread reads at most once after [self.recording = False]:
    the read it had already decided on, if any. The flag is false from the
    signal on. *)
Theorem record_reads_once_after_stop h use_default schedule w0 s pre post :
  run h schedule (start_record use_default w0) = Some s →
  trace (world s) = trace w0 ++ pre ++ EvStop :: post →
  length (captured post) ≤ 1
  ∧ recording (self (world s)) = false
  ∧ (length (captured post) = 1 → worker s ≠ WReading).
Proof.
  intros Hrun Htrace.
  destruct (record_inv2 h use_default schedule w0 s Hrun)
    as (new & (Ht & _ & _ & _ & _ & Hco & _) & _ & _ & Hlate & _).
  assert (new = pre ++ EvStop :: post) as ->
    by (apply (app_inv_head (trace w0)); by rewrite <- Ht, Htrace).
  unfold late_inv in Hlate.
  rewrite late_reads_after in Hlate by (by eapply one_stop, session_phase_ok).
  tauto.
Qed.

(** An instance: the stop signal arrives while the thread is in a read. *)
Lemma record_reads_once_after_stop_witness :
  let h := host3 (chunk "a" 4) never never in
  let w0 := fresh_world small_Audio [enter; enter] in
  let schedule := repeat Coordinator 4 ++ [Capture] ++ repeat Coordinator 2
                  ++ repeat Capture 3 in
  let s := final h schedule (start_record true w0) in
  let post := [EvRead (chunk "a" 4) false; EvAppend (chunk "a" 4)] in
  length (captured post) ≤ 1
  ∧ recording (self (world s)) = false
  ∧ (length (captured post) = 1 → worker s ≠ WReading).
Proof.
  cbv zeta.
  apply (record_reads_once_after_stop (host3 (chunk "a" 4) never never) true
           (repeat Coordinator 4 ++ [Capture] ++ repeat Coordinator 2 ++ repeat Capture 3)
           (fresh_world small_Audio [enter; enter]) _
           [EvOpen (capture_stream small_Audio 0 1); EvSpawn]).
  - vm_compute. reflexivity.
  - vm_compute. reflexivity.
Defined.

(** X11: the stream of a session. Whatever [use_default] is and whatever
    is typed at the device prompt, the first event of a session of [record]
    is the opening of an input-only stream with the object's configuration
    on the host's default input device (and default output device), and the
    session opens no other stream. *)
Theorem record_opens_default_capture_stream h use_default schedule w0 s new st :
  run h schedule (start_record use_default w0) = Some s →
  trace (world s) = trace w0 ++ new →
  EvOpen st ∈ new →
  ∃ i o rest,
    default_input h = Some i ∧ default_output h = Some o
    ∧ st = capture_stream (self w0) i o
    ∧ new = EvOpen st :: rest
    ∧ opens rest = [].
Proof.
  intros Hrun Htrace Hin.
  destruct (record_inv2 h use_default schedule w0 s Hrun)
    as (new' & (Ht & _) & _ & _ & _ & Hop).
  assert (new' = new) as ->
    by (apply (app_inv_head (trace w0)); by rewrite <- Ht, Htrace).
  unfold open_inv in Hop. destruct new as [|e rest]; [by apply elem_of_nil in Hin|].
  destruct Hop as ((i & o & Hi & Ho & _ & ->) & Hrest & _).
  exists i, o, rest. split; [done|]. split; [done|].
  apply elem_of_cons in Hin as [[= ->]|Hin]; [done|].
  assert (st ∈ opens rest) as Hst
    by (unfold opens; apply list_elem_of_omap; by exists (EvOpen st)).
  rewrite Hrest in Hst. by apply elem_of_nil in Hst.
Qed.

(** An instance: the headset (2) is typed at the prompt; the microphone
    (0) is opened. *)
Lemma record_opens_default_capture_stream_witness :
  let h := host3 [] never never in
  let w0 := fresh_world small_Audio [IntLine 2; enter; enter] in
  let s := final h [Coordinator; Coordinator] (start_record false w0) in
  let st := capture_stream small_Audio 0 1 in
  ∃ i o rest,
    default_input h = Some i ∧ default_output h = Some o
    ∧ st = capture_stream (self w0) i o
    ∧ trace (world s) = EvOpen st :: rest
    ∧ opens rest = [].
Proof.
  cbv zeta.
  apply (record_opens_default_capture_stream (host3 [] never never) false
           [Coordinator; Coordinator] (fresh_world small_Audio [IntLine 2; enter; enter])
           (final (host3 [] never never) [Coordinator; Coordinator]
              (start_record false (fresh_world small_Audio [IntLine 2; enter; enter])))).
  - vm_compute. reflexivity.
  - exact (eq_sym (app_nil_l _)).
  - vm_compute. left.
Defined.

(** X12: [record] needs both default devices. On a host without a default
    input device or without a default output device (which a capture does
    not use), no run of [record] gets past [_open_audio_stream]: no event
    happens, the capture thread is never started, no file changes; and with
    [use_default] the call raises PyAudio's IOError in its second statement. *)
Theorem record_needs_both_default_devices h use_default schedule w0 s :
  default_input h = None ∨ default_output h = None →
  run h schedule (start_record use_default w0) = Some s →
  trace (world s) = trace w0
  ∧ worker s = WNotStarted
  ∧ fs (world s) = fs w0
  ∧ match coord s with CSelect _ | COpen _ | CRaised _ => True | _ => False end
  ∧ run h [Coordinator; Coordinator] (start_record true w0)
    = Some {| world := created w0;
              coord := CRaised (IOError (match default_input h with
                                         | Some _ => "No Default Output Device Available"
                                         | None => "No Default Input Device Available"
                                         end));
              worker := WNotStarted |}.
Proof.
  intros Hnone Hrun.
  destruct (record_inv2 h use_default schedule w0 s Hrun)
    as (new & (Ht & _) & _ & (_ & H2 & _) & _ & Hop).
  assert (new = []) as ->.
  { unfold open_inv in Hop. destruct new as [|e rest]; [done|].
    destruct Hop as ((i & o & Hi & Ho & _) & _). destruct Hnone; congruence. }
  destruct Hop as [Hw Hc]. rewrite app_nil_r in Ht.
  split; [done|]. split; [done|].
  split; [apply H2; by intros ?%elem_of_nil|]. split; [done|].
  simpl. unfold coord_run. simpl. rewrite open_for_record.
  destruct Hnone as [->| ->]; [done|]. by destruct (default_input h).
Qed.

(** An instance: a host with a microphone and no speaker. *)
Lemma record_needs_both_default_devices_witness :
  let h := {| devices := [ {| name := "microphone"; maxInputChannels := 2;
                              maxOutputChannels := 0 |} ];
              default_input := Some 0%Z; default_output := None;
              grants := λ _, true;
              mic := λ _ _, {| hw_data := chunk "a" 4; hw_overflowed := false |};
              speaker_ok := λ _, true;
              open_error := λ _, "Invalid device";
              write_error := λ _, "Unanticipated host error" |} in
  let w0 := fresh_world small_Audio [enter; enter] in
  let s := final h [Coordinator; Coordinator] (start_record true w0) in
  trace (world s) = trace w0
  ∧ worker s = WNotStarted
  ∧ fs (world s) = fs w0
  ∧ match coord s with CSelect _ | COpen _ | CRaised _ => True | _ => False end
  ∧ run h [Coordinator; Coordinator] (start_record true w0)
    = Some {| world := created w0;
              coord := CRaised (IOError (match default_input h with
                                         | Some _ => "No Default Output Device Available"
                                         | None => "No Default Input Device Available"
                                         end));
              worker := WNotStarted |}.
Proof.
  cbv zeta.
  apply (record_needs_both_default_devices _ true [Coordinator; Coordinator]).
  - right. reflexivity.
  - vm_compute. reflexivity.
Defined.

End record_more.

(** ** Recording sessions: the two threads at the end of the call *)
Section threads.
Import audio.

Lemma run_app h l1 l2 s :
  run h (l1 ++ l2) s
  = match run h l1 s with Some s1 => run h l2 s1 | None => None end.
Proof.
  revert s. induction l1 as [|t l1 IH]; intros s; simpl; [done|].
  destruct (step h t s); [apply IH|done].
Qed.

Lemma capture_open_frames a l :
  capture_open a → capture_open (set_recorded_frames l a).
Proof. intros (st & ? & ? & ? & ?). by exists st. Qed.

Lemma run_cons h t rest s s1 :
  step h t s = Some s1 → run h (t :: rest) s = run h rest s1.
Proof. intros Hstep. simpl. by rewrite Hstep. Qed.

(** The turns of the capture thread, one by one. *)
Lemma step_test h w c :
  step h Capture {| world := w; coord := c; worker := WLoopTest |}
  = Some {| world := w; coord := c;
            worker := if recording (self w) then WReading else WFinished |}.
Proof. reflexivity. Qed.

Lemma step_read h w c :
  capture_open (self w) →
  let r := mic h (hw_reads w) (frames_per_buffer (self w)) in
  step h Capture {| world := w; coord := c; worker := WReading |}
  = Some {| world := emit (EvRead (hw_data r) (hw_overflowed r)) (count_read w);
            coord := c; worker := WAppending (hw_data r) |}.
Proof.
  intros Hopen. simpl. unfold worker_step. simpl.
  by rewrite (stream_read_open h _ w Hopen).
Qed.

Lemma step_append h w c d :
  step h Capture {| world := w; coord := c; worker := WAppending d |}
  = Some {| world := emit (EvAppend d)
                       (with_self (λ a, set_recorded_frames (recorded_frames a ++ [d]) a) w);
            coord := c; worker := WLoopTest |}.
Proof. reflexivity. Qed.

(** One turn of the capture loop while the flag is set: test, read, append. *)
Lemma capture_round h s :
  worker s = WLoopTest → recording (self (world s)) = true →
  capture_open (self (world s)) →
  let w := world s in
  let d := hw_data (mic h (hw_reads w) (frames_per_buffer (self w))) in
  let ov := hw_overflowed (mic h (hw_reads w) (frames_per_buffer (self w))) in
  run h [Capture; Capture; Capture] s
  = Some {| world := emit (EvAppend d)
                       (with_self (λ a, set_recorded_frames (recorded_frames a ++ [d]) a)
                          (emit (EvRead d ov) (count_read w)));
            coord := coord s; worker := WLoopTest |}.
Proof.
  intros Hw Hrec Hopen. destruct s as [w c p]. simpl in Hw, Hrec, Hopen. subst p.
  cbv zeta. cbn [world coord].
  rewrite (run_cons _ _ _ _ _ (step_test h w c)), Hrec.
  rewrite (run_cons _ _ _ _ _ (step_read h w c Hopen)).
  rewrite (run_cons _ _ _ _ _ (step_append h _ c _)).
  reflexivity.
Qed.

(** While the flag is set the capture thread goes on, turn after turn. *)
Lemma capture_rounds_run h n : ∀ s,
  worker s = WLoopTest → recording (self (world s)) = true →
  capture_open (self (world s)) →
  ∃ s', run h (capture_rounds n) s = Some s'
    ∧ coord s' = coord s ∧ worker s' = WLoopTest
    ∧ recording (self (world s')) = true ∧ capture_open (self (world s'))
    ∧ fs (world s') = fs (world s)
    ∧ hw_reads (world s') = hw_reads (world s) + n
    ∧ frames_per_buffer (self (world s')) = frames_per_buffer (self (world s))
    ∧ recorded_frames (self (world s'))
      = recorded_frames (self (world s))
        ++ hw_chunks h (frames_per_buffer (self (world s))) (hw_reads (world s)) n.
Proof.
  induction n as [|n IH]; intros s Hw Hrec Hopen.
  - exists s. simpl. rewrite Nat.add_0_r, app_nil_r. done.
  - change (capture_rounds (S n)) with ([Capture; Capture; Capture] ++ capture_rounds n).
    rewrite run_app, (capture_round h s Hw Hrec Hopen). cbv zeta.
    set (s1 := {| world := _; coord := _; worker := _ |}).
    destruct (IH s1) as (s' & Hrun & Hc & Hw' & Hrec' & Hopen' & Hfs & Hr & Hb & Hfr);
      [done|done|by apply capture_open_frames|].
    exists s'. split; [done|]. split; [done|]. split; [done|]. split; [done|].
    split; [done|]. split; [done|]. split; [rewrite Hr; simpl; lia|].
    split; [done|]. rewrite Hfr. simpl. by rewrite <- app_assoc, hw_chunks_cons.
Qed.

(** Once the flag is cleared the capture thread ends within three turns. *)
Lemma worker_winds_down h s :
  recording (self (world s)) = false → capture_open (self (world s)) →
  started (worker s) → ¬ raised (worker s) →
  ∃ k s', k ≤ 3 ∧ run h (repeat Capture k) s = Some s'
    ∧ worker s' = WFinished ∧ coord s' = coord s
    ∧ capture_open (self (world s'))
    ∧ length (captured (trace (world s'))) ≤ S (length (captured (trace (world s)))).
Proof.
  intros Hrec Hopen Hst Hnr. destruct s as [w c p]. simpl in *.
  destruct p as [| | |d| |e]; [done| | | | |by destruct Hnr].
  - exists 1, {| world := w; coord := c; worker := WFinished |}.
    split; [lia|]. cbn [repeat].
    rewrite (run_cons _ _ _ _ _ (step_test h w c)), Hrec.
    split; [done|]. split; [done|]. split; [done|]. split; [done|]. simpl. lia.
  - eexists 3, _. split; [lia|]. cbn [repeat].
    rewrite (run_cons _ _ _ _ _ (step_read h w c Hopen)).
    rewrite (run_cons _ _ _ _ _ (step_append h _ c _)).
    rewrite (run_cons _ _ _ _ _ (step_test h _ c)). cbn [self emit with_self
      set_recorded_frames recording count_read]. rewrite Hrec.
    split; [reflexivity|]. split; [done|]. split; [done|].
    split; [by apply capture_open_frames|].
    simpl. rewrite !captured_snoc, app_nil_r, length_app. simpl. lia.
  - eexists 2, _. split; [lia|]. cbn [repeat].
    rewrite (run_cons _ _ _ _ _ (step_append h _ c _)).
    rewrite (run_cons _ _ _ _ _ (step_test h _ c)). cbn [self emit with_self
      set_recorded_frames recording count_read]. rewrite Hrec.
    split; [reflexivity|]. split; [done|]. split; [done|].
    split; [by apply capture_open_frames|].
    simpl. rewrite captured_snoc, app_nil_r. lia.
  - exists 0, {| world := w; coord := c; worker := WFinished |}.
    split; [lia|]. split; [done|]. split; [done|]. split; [done|]. split; [done|].
    simpl. lia.
Qed.

(** The last three statements of [record]. *)
Lemma step_join h w p :
  terminated p = true →
  step h Coordinator {| world := w; coord := CJoin; worker := p |}
  = Some {| world := emit EvJoin w; coord := CClose; worker := p |}.
Proof. intros Hterm. simpl. unfold coord_step. simpl. by rewrite Hterm. Qed.

Lemma step_close h w p st po :
  audio_stream (self w) = Some st → pyaudio_obj (self w) = Some po →
  step h Coordinator {| world := w; coord := CClose; worker := p |}
  = Some {| world := closed st w; coord := CSerialize; worker := p |}.
Proof.
  intros Hst Hpo. simpl. unfold coord_step, coord_run. simpl.
  by rewrite (close_audio_stream_spec w st po Hst Hpo).
Qed.

Lemma step_serialize h w p :
  step h Coordinator {| world := w; coord := CSerialize; worker := p |}
  = Some (match _write_to_file w with
          | (Ok _, w') => {| world := w'; coord := CReturned; worker := p |}
          | (Raise e, w') => {| world := w'; coord := CRaised e; worker := p |}
          end).
Proof. simpl. unfold coord_step, coord_run. simpl. by destruct (_write_to_file w) as [[] ?]. Qed.

(** With the capture thread ended, join, close and serialize go through. *)
Lemma finish_from_join h s :
  coord s = CJoin → terminated (worker s) = true → capture_open (self (world s)) →
  ∃ s', run h (repeat Coordinator 3) s = Some s'
    ∧ (coord s' = CReturned ∨ ∃ e, coord s' = CRaised e)
    ∧ worker s' = worker s
    ∧ stream_closed (self (world s'))
    ∧ captured (trace (world s')) = captured (trace (world s)).
Proof.
  intros Hc Hterm Hopen. destruct s as [w c p]. simpl in Hc, Hterm, Hopen. subst c.
  cbn [world coord worker].
  destruct Hopen as (st & Hst & Hcl & Hin & [po Hpo]).
  cbn [repeat].
  rewrite (run_cons _ _ _ _ _ (step_join h w p Hterm)).
  rewrite (run_cons _ _ _ _ _ (step_close h (emit EvJoin w) p st po Hst Hpo)).
  rewrite (run_cons _ _ _ _ _ (step_serialize h _ p)).
  pose proof (write_to_file_spec (closed st (emit EvJoin w))) as Hspec.
  destruct (_write_to_file _) as [[[]|e] w1]; eexists; (split; [reflexivity|]);
    cbn [coord worker world].
  - destruct Hspec as (width & _ & _ & _ & -> & _).
    split; [by left|]. split; [done|]. split; [by exists (closed_stream st)|].
    unfold serialized, unfinished. simpl. by rewrite !captured_snoc, !app_nil_r.
  - destruct Hspec as (f & -> & _).
    split; [right; by exists e|]. split; [done|]. split; [by exists (closed_stream st)|].
    unfold unfinished. simpl. by rewrite !captured_snoc, !app_nil_r.
Qed.

(** X13: [thread.join()] does not block for ever. From every state of
    every run of [record] in which the coordinating thread has cleared the
    flag and waits in [join], the capture thread ends within three of its
    own turns (at most one of them a read), and then three turns of the
    coordinating thread end the call, returned or raised, with the stream
    closed. *)
Theorem record_ends_after_stop h use_default schedule w0 s :
  run h schedule (start_record use_default w0) = Some s →
  coord s = CJoin →
  ∃ k s', k ≤ 3
    ∧ run h (repeat Capture k ++ repeat Coordinator 3) s = Some s'
    ∧ (coord s' = CReturned ∨ ∃ e, coord s' = CRaised e)
    ∧ worker s' = WFinished
    ∧ stream_closed (self (world s'))
    ∧ length (captured (trace (world s'))) ≤ S (length (captured (trace (world s)))).
Proof.
  intros Hrun Hc.
  destruct (record_inv h use_default schedule w0 s Hrun)
    as (new & _ & _ & _ & _ & Hnr & Hco & _).
  unfold coord_inv in Hco. rewrite Hc in Hco. destruct Hco as (Hst & Hopen & Hrec & _).
  destruct (worker_winds_down h s Hrec Hopen Hst Hnr)
    as (k & s1 & Hk & Hrun1 & Hw1 & Hc1 & Hopen1 & Hlen).
  destruct (finish_from_join h s1) as (s' & Hrun2 & Hend & Hw' & Hcl & Hcap);
    [congruence|by rewrite Hw1|done|].
  exists k, s'. split; [done|]. rewrite run_app, Hrun1.
  split; [done|]. split; [done|]. split; [congruence|]. split; [done|].
  by rewrite Hcap.
Qed.

(** An instance: the flag is cleared while the capture thread is about to
    read. *)
Lemma record_ends_after_stop_witness :
  let h := host3 (chunk "a" 4) never never in
  let w0 := fresh_world small_Audio [enter; enter] in
  let schedule := repeat Coordinator 4 ++ [Capture] ++ repeat Coordinator 2 in
  let s := final h schedule (start_record true w0) in
  ∃ k s', k ≤ 3
    ∧ run h (repeat Capture k ++ repeat Coordinator 3) s = Some s'
    ∧ (coord s' = CReturned ∨ ∃ e, coord s' = CRaised e)
    ∧ worker s' = WFinished
    ∧ stream_closed (self (world s'))
    ∧ length (captured (trace (world s'))) ≤ S (length (captured (trace (world s)))).
Proof.
  cbv zeta.
  apply (record_ends_after_stop (host3 (chunk "a" 4) never never) true
           (repeat Coordinator 4 ++ [Capture] ++ repeat Coordinator 2)
           (fresh_world small_Audio [enter; enter])).
  - vm_compute. reflexivity.
  - vm_compute. reflexivity.
Defined.

(** X14: end of input at the stop prompt. When the console holds one line
    only, [record(use_default=True)] on a host that grants the capture
    stream starts the capture thread and then raises EOFError from the
    second [input]; the flag is never cleared, the stream never closed and
    the file never written, and the capture thread goes on reading: after
    any number [n] of further turns of its loop it is still running, with
    [n] chunks in the buffer, and the coordinating thread cannot move. *)
Theorem record_end_of_input_leaves_thread_running h w0 l i o n :
  stdin w0 = [l] → recording (self w0) = true →
  default_input h = Some i → default_output h = Some o →
  grants h (capture_stream (self w0) i o) = true →
  ∃ s,
    run h (repeat Coordinator 5 ++ capture_rounds n) (start_record true w0) = Some s
    ∧ coord s = CRaised EOFError
    ∧ worker s = WLoopTest
    ∧ recording (self (world s)) = true
    ∧ capture_open (self (world s))
    ∧ recorded_frames (self (world s))
      = recorded_frames (self w0)
        ++ hw_chunks h (frames_per_buffer (self w0)) (hw_reads w0) n
    ∧ fs (world s) = fs w0
    ∧ coord_step h s = None
    ∧ is_Some (worker_step h s).
Proof.
  intros Hin Hrec Hi Ho Hg.
  set (st := capture_stream (self w0) i o).
  set (s5 := {| world := set_stdin [] (emit EvSpawn (set_stdin [] (opened st w0)));
                coord := CRaised EOFError; worker := WLoopTest |}).
  assert (Hrun5 : run h (repeat Coordinator 5) (start_record true w0) = Some s5).
  { cbn [repeat]. unfold start_record.
    rewrite (run_cons _ _ _ _ {| world := w0; coord := COpen None; worker := WNotStarted |})
      by reflexivity.
    rewrite (run_cons _ _ _ _
               {| world := opened st w0; coord := CPromptStart; worker := WNotStarted |})
      by (simpl; unfold coord_step, coord_run; simpl;
          by rewrite open_for_record, Hi, Ho, Hg).
    rewrite (run_cons _ _ _ _
               {| world := set_stdin [] (opened st w0); coord := CSpawn;
                  worker := WNotStarted |})
      by (simpl; unfold coord_step, coord_run, input; simpl; by rewrite Hin).
    rewrite (run_cons _ _ _ _
               {| world := emit EvSpawn (set_stdin [] (opened st w0)); coord := CPromptStop;
                  worker := WLoopTest |}) by reflexivity.
    rewrite (run_cons _ _ _ _ s5) by reflexivity.
    reflexivity. }
  destruct (capture_rounds_run h n s5)
    as (s & Hrun & Hc & Hw & Hrec' & Hopen & Hfs & _ & _ & Hfr); [done|done| |].
  { exists st. simpl. by eauto. }
  exists s. rewrite run_app, Hrun5. split; [done|]. split; [done|]. split; [done|].
  split; [done|]. split; [done|]. split; [done|]. split; [done|].
  split; [unfold coord_step; by rewrite Hc|].
  unfold worker_step. rewrite Hw. by eexists.
Qed.

(** An instance: three more turns of the loop after the EOFError. *)
Lemma record_end_of_input_leaves_thread_running_witness :
  let h := host3 (chunk "a" 4) never never in
  let w0 := fresh_world small_Audio [enter] in
  ∃ s,
    run h (repeat Coordinator 5 ++ capture_rounds 3) (start_record true w0) = Some s
    ∧ coord s = CRaised EOFError
    ∧ worker s = WLoopTest
    ∧ recording (self (world s)) = true
    ∧ capture_open (self (world s))
    ∧ recorded_frames (self (world s))
      = recorded_frames (self w0)
        ++ hw_chunks h (frames_per_buffer (self w0)) (hw_reads w0) 3
    ∧ fs (world s) = fs w0
    ∧ coord_step h s = None
    ∧ is_Some (worker_step h s).
Proof.
  cbv zeta.
  apply (record_end_of_input_leaves_thread_running (host3 (chunk "a" 4) never never)
           (fresh_world small_Audio [enter]) enter 0%Z 1%Z 3).
  - reflexivity.
  - reflexivity.
  - reflexivity.
  - reflexivity.
  - reflexivity.
Defined.

End threads.
